(** * structmap: the type-resolution and code-synthesis engine

    A shallow embedding of [internal/imports/imports-manager.go],
    [internal/packages/package-manager.go] and
    [internal/generator/generator.go], and the properties of the engine that
    the specification states about them.

    Go strings are byte strings ([string] of [ascii]); Go maps are [gmap];
    a Go function returning [(T, error)] that may also panic returns a
    [Res T]; the three caches of the generator are threaded explicitly. *)

From Stdlib Require Import Ascii String DecimalString DecimalNat.
From stdpp Require Import base option list strings gmap fin_maps.

Open Scope string_scope.
Set Warnings "-register-all".

(** ** Outcomes of a Go call *)

(** [Ok] is a normal return with a nil error, [Err] a returned non-nil error
    (its message), [Panic] a run-time panic, and [Diverge] the absence of any
    return (the recursion of the source does not bottom out). *)
Inductive Res (A : Type) : Type :=
| Ok (a : A)
| Err (msg : string)
| Panic (msg : string)
| Diverge.
Arguments Ok {A} a.
Arguments Err {A} msg.
Arguments Panic {A} msg.
Arguments Diverge {A}.

Definition res_bind {A B} (r : Res A) (k : A → Res B) : Res B :=
  match r with
  | Ok a => k a
  | Err e => Err e
  | Panic e => Panic e
  | Diverge => Diverge
  end.

Definition is_Ok {A} (r : Res A) : bool :=
  match r with Ok _ => true | _ => false end.

(** A stateful Go method over the receiver state [S]: the state survives an
    error return, as the fields of a Go struct do. *)
Definition M (S A : Type) : Type := S → Res A * S.

Definition ret {S A} (a : A) : M S A := λ s, (Ok a, s).
Definition fail {S A} (e : string) : M S A := λ s, (Err e, s).
Definition bind {S A B} (m : M S A) (k : A → M S B) : M S B :=
  λ s, match m s with
       | (Ok a, s') => k a s'
       | (Err e, s') => (Err e, s')
       | (Panic e, s') => (Panic e, s')
       | (Diverge, s') => (Diverge, s')
       end.
Definition lift_res {S A} (r : Res A) : M S A := λ s, (r, s).
Definition get {S} : M S S := λ s, (Ok s, s).
Definition modify {S} (f : S → S) : M S unit := λ s, (Ok tt, f s).

(** [wrap pre m]: [return ..., fmt.Errorf(pre + ": %w", err)] on an error. *)
Definition wrap {S A} (pre : string) (m : M S A) : M S A :=
  λ s, match m s with
       | (Err e, s') => (Err (pre ++ e), s')
       | r => r
       end.

Declare Scope go_scope.
Delimit Scope go_scope with go.
Notation "'let*' x ':=' m 'in' k" := (bind m (λ x, k))
  (at level 10, x name, m at level 100, k at level 200) : go_scope.
Notation "'let*' ' p ':=' m 'in' k" := (bind m (λ p, k))
  (at level 10, p pattern, m at level 100, k at level 200) : go_scope.

(** ** The functions of Go's [strings] and [fmt] the engine calls *)

Module strings.

(** [strings.HasPrefix(s, p)]. *)
Fixpoint HasPrefix (s p : string) : bool :=
  match p, s with
  | "", _ => true
  | String c p', String d s' => if Ascii.eqb c d then HasPrefix s' p' else false
  | String _ _, "" => false
  end.

(** [strings.Contains(s, substr)]. *)
Fixpoint Contains (s substr : string) : bool :=
  if HasPrefix s substr then true
  else match s with
       | "" => false
       | String _ s' => Contains s' substr
       end.

Definition in_cutset (cutset : string) (c : ascii) : bool :=
  existsb (Ascii.eqb c) (list_ascii_of_string cutset).

Fixpoint TrimLeft (s cutset : string) : string :=
  match s with
  | "" => ""
  | String c s' => if in_cutset cutset c then TrimLeft s' cutset else s
  end.

(** The part of [s] that remains once the trailing bytes of [cutset] are
    cut: [None] stands for "everything so far was cut". *)
Fixpoint TrimRight_go (s cutset : string) : option string :=
  match s with
  | "" => None
  | String c s' =>
      match TrimRight_go s' cutset with
      | Some r => Some (String c r)
      | None => if in_cutset cutset c then None else Some (String c "")
      end
  end.

Definition TrimRight (s cutset : string) : string :=
  default "" (TrimRight_go s cutset).

(** [strings.Trim(s, cutset)], for a cutset of one-byte code points (the
    engine trims the double quote and the back quote). *)
Definition Trim (s cutset : string) : string :=
  TrimRight (TrimLeft s cutset) cutset.

(** [strings.CutPrefix(s, prefix)]: what follows [prefix] in [s]. *)
Fixpoint CutPrefix (s prefix : string) {struct prefix} : option string :=
  match prefix, s with
  | "", _ => Some s
  | String c p', String d s' => if Ascii.eqb c d then CutPrefix s' p' else None
  | String _ _, "" => None
  end.

(** A code point given by the bytes of its UTF-8 encoding. *)
Definition rune (bytes : list nat) : string :=
  string_of_list_ascii (ascii_of_nat <$> bytes).

(** The code points of [unicode.IsSpace], in UTF-8: U+0009 to U+000D,
    U+0020, U+0085, U+00A0, U+1680, U+2000 to U+200A, U+2028, U+2029,
    U+202F, U+205F and U+3000. *)
Definition space_runes : list string :=
  rune <$>
    [ [9]; [10]; [11]; [12]; [13]; [32];
      [194; 133]; [194; 160];
      [225; 154; 128];
      [226; 128; 128]; [226; 128; 129]; [226; 128; 130]; [226; 128; 131];
      [226; 128; 132]; [226; 128; 133]; [226; 128; 134]; [226; 128; 135];
      [226; 128; 136]; [226; 128; 137]; [226; 128; 138];
      [226; 128; 168]; [226; 128; 169]; [226; 128; 175];
      [226; 129; 159];
      [227; 128; 128] ].

(** [s] without its first code point, when that is one of [runes]. *)
Definition cut_rune (runes : list string) (s : string) : option string :=
  head (omap (CutPrefix s) runes).

(** The loop of [strings.TrimLeftFunc]: code points of [runes] are cut as
    long as [s] starts with one. Each one cut is at least one byte long, so
    a [fuel] of the length of [s] is never used up. *)
Fixpoint trim_runes (runes : list string) (fuel : nat) (s : string) : string :=
  match fuel with
  | O => s
  | S fuel =>
      match cut_rune runes s with
      | Some s' => trim_runes runes fuel s'
      | None => s
      end
  end.

(** [strings.TrimLeftFunc(s, unicode.IsSpace)]. Bytes that are no valid
    encoding decode to U+FFFD, which is no white space, and an encoding is
    never the start of another. *)
Definition TrimLeftSpace (s : string) : string :=
  trim_runes space_runes (String.length s) s.

(** [strings.TrimRightFunc(s, unicode.IsSpace)]: the last code point is
    white space exactly when [s] ends with its encoding, so the bytes are
    read from the end. *)
Definition TrimRightSpace (s : string) : string :=
  String.rev (trim_runes (String.rev <$> space_runes) (String.length s)
                         (String.rev s)).

(** [strings.TrimSpace(s)]: the leading and the trailing white space of
    Unicode is cut. *)
Definition TrimSpace (s : string) : string := TrimRightSpace (TrimLeftSpace s).

(** [strings.Join(elems, sep)]. *)
Definition Join (elems : list string) (sep : string) : string :=
  String.concat sep elems.

(** [strings.Split(s, sep)] for a separator of one byte (the engine splits
    at a comma and at a dot): never empty, one more part than separators. *)
Fixpoint Split (s : string) (sep : ascii) : list string :=
  match s with
  | "" => [""]
  | String c s' =>
      if Ascii.eqb c sep then "" :: Split s' sep
      else match Split s' sep with
           | p :: ps => String c p :: ps
           | [] => [String c ""]
           end
  end.

(** [strings.ReplaceAll(s, old, new)] for a non-empty [old]: matches are
    found left to right and do not overlap; [skip] counts the bytes of a
    match still to be dropped. *)
Fixpoint ReplaceAll_go (old new : string) (skip : nat) (s : string) : string :=
  match s with
  | "" => ""
  | String c s' =>
      match skip with
      | S k => ReplaceAll_go old new k s'
      | O =>
          if HasPrefix s old
          then new ++ ReplaceAll_go old new (String.length old - 1) s'
          else String c (ReplaceAll_go old new 0 s')
      end
  end.

(** With an empty [old] Go inserts [new] before every code point and at the
    end; here before every byte. *)
Fixpoint intersperse_all (new s : string) : string :=
  match s with
  | "" => new
  | String c s' => new ++ String c (intersperse_all new s')
  end.

Definition ReplaceAll (s old new : string) : string :=
  match old with
  | "" => intersperse_all new s
  | _ => ReplaceAll_go old new 0 s
  end.

End strings.

Module fmt.
(** The verb [%d] applied to a non-negative [int]. *)
Definition d (n : nat) : string := NilEmpty.string_of_uint (Nat.to_uint n).
End fmt.

(** The double quote and the back quote, as one-byte strings. *)
Definition dquote : string := String (ascii_of_nat 34) "".
Definition bquote : string := String (ascii_of_nat 96) "".
Definition nl : string := String (ascii_of_nat 10) "".
Definition tab : string := String (ascii_of_nat 9) "".

(** ** [internal/imports]: the import alias manager *)

Module imports.

(** [aliasCounter] is a Go [int]; it counts registrations and stays far
    below the range of the type. *)
Record ImportManager : Type := mkImportManager {
  imports : gmap string string;
  aliasCounter : nat;
}.

Definition NewImportManager : ImportManager :=
  {| imports := ∅; aliasCounter := 1 |}.

Definition AddImport (im : ImportManager) (importPath : string) : ImportManager :=
  if negb (strings.Contains importPath "/") then im
  else
    let importPath := strings.TrimSpace importPath in
    if String.eqb importPath "" then im
    else
      let importPath := strings.Trim importPath dquote in
      match imports im !! importPath with
      | Some _ => im
      | None =>
          let alias := "ref" ++ fmt.d (aliasCounter im) in
          {| imports := <[importPath := alias]> (imports im);
             aliasCounter := S (aliasCounter im) |}
      end.

Definition GetImportAlias (im : ImportManager) (importPath : string) : string :=
  let importPath := strings.Trim importPath dquote in
  default "" (imports im !! importPath).

(** One line of the import block: [fmt.Sprintf("\t%s \"%s\"", alias, importPath)]. *)
Definition importLine (entry : string * string) : string :=
  tab ++ entry.2 ++ " " ++ dquote ++ entry.1 ++ dquote.

(** The test of the loop: [strings.Contains(pattern, alias+".")]. *)
Definition referenced (pattern : string) (entry : string * string) : Prop :=
  strings.Contains pattern (entry.2 ++ ".") = true.

#[export] Instance referenced_dec (pattern : string) (entry : string * string)
  : Decision (referenced pattern entry) :=
  decide (strings.Contains pattern (entry.2 ++ ".") = true).

(** The lines appended by the loop of [RenderImports] when [range] yields
    the entries of the map in the order [entries]. *)
Definition importLines (entries : list (string * string)) (pattern : string)
  : list string :=
  importLine <$> filter (referenced pattern) entries.

(** A [range] over a Go map yields every entry once, in an order the
    language leaves unspecified and that changes from one loop to the next:
    [range_order] is the order one execution of the loop happens to take. *)
Definition RangeOrder : Type := gmap string string → list (string * string).

Definition range_ok (range_order : RangeOrder) : Prop :=
  ∀ m, range_order m ≡ₚ map_to_list m.

Definition RenderImports (range_order : RangeOrder) (im : ImportManager)
    (pattern : string) : string :=
  if decide (size (imports im) = 0) then ""
  else
    "import (" ++ nl ++
    strings.Join (importLines (range_order (imports im)) pattern) nl ++
    nl ++ ")".

End imports.

(** ** What the engine consumes from the Go tool chain *)

(** The syntax trees of [go/ast], as far as the engine looks into them. *)
Module ast.

(** [Field]: one entry of a field list; no name means an embedded field. *)
Record Field_ (E : Type) : Type := mkField {
  Names : list string;
  Type_ : E;
  Tag : option string;
}.
Arguments mkField {E} _ _ _.
Arguments Names {E} _.
Arguments Type_ {E} _.
Arguments Tag {E} _.

(** The expressions the engine distinguishes; [OtherExpr] is every other
    node ([chan], [interface], generic instantiation, ...). *)
Inductive Expr : Type :=
| Ident (Name : string)
| StarExpr (X : Expr)
| SelectorExpr (X : Expr) (Sel : string)
| ArrayType (Elt : Expr)
| MapType (Key Value : Expr)
| StructType (Fields : list (Field_ Expr))
| FuncType (Params Results : option (list (Field_ Expr)))
| OtherExpr (text : string).

Definition Field : Type := Field_ Expr.

(** [ImportSpec]: [Name] is the local name if one is written, [Path] the
    path literal with its quotes. *)
Record ImportSpec : Type := mkImportSpec {
  ImportSpec_Name : option string;
  ImportSpec_Path : string;
}.

Record TypeSpec : Type := mkTypeSpec {
  TypeSpec_Name : string;
  TypeSpec_Type : Expr;
}.

(** A parsed file: its imports and the [TypeSpec] nodes in the order
    [ast.Inspect] meets them. *)
Record File : Type := mkFile {
  Imports : list ImportSpec;
  TypeSpecs : list TypeSpec;
}.

End ast.

(** [golang.org/x/tools/go/packages]: a loaded package. *)
Module gopackages.

Record Package : Type := mkPackage {
  Name : string;
  PkgPath : string;
  GoFiles : list string;
  Errors : list string;
}.

End gopackages.

(** The result of parsing and executing a template of [html/template]. *)
Inductive TmplResult : Type :=
| Rendered (text : string)
| ParseError (err : string)
| ExecError (err : string).

(** The collaborators outside the repository, each a function of its
    arguments: [packages.Load] (the packages found and the error),
    [parser.ParseFile] ([None] when the file does not parse),
    [printer.Fprint] on a type expression, [template.New(name).Parse(text)]
    followed by [Execute] on a map, and [reflect.StructTag.Get]. *)
Class GoEnv : Type := {
  packages_Load : string → list gopackages.Package * option string;
  parser_ParseFile : string → option ast.File;
  printer_Fprint : ast.Expr → string;
  template_Run : string → string → gmap string string → TmplResult;
  StructTag_Get : string → string → string;
}.

(** ** [internal/packages]: the cached module loader *)

Module packages.

(** A cache entry holds a pointer, which may be nil ([None]). *)
Record PackageManager : Type := mkPackageManager {
  packageCache : gmap string (option gopackages.Package);
}.

Section with_env.
Context `{GoEnv}.

Definition NewPackageManager : PackageManager := {| packageCache := ∅ |}.

(** [fmt.Sprintf("%v", errs)] on a slice of errors. *)
Definition fmt_v (errs : list string) : string :=
  "[" ++ strings.Join errs " " ++ "]".

(** The pair [(pkg, err)] a Go call returns: either may be nil. *)
Definition loadPackage (pkgPath : string)
  : option gopackages.Package * option string :=
  match packages_Load pkgPath with
  | (_, Some err) =>
      (None, Some ("failed to load package " ++ pkgPath ++ ": " ++ err))
  | ([], None) => (None, Some ("package not found: " ++ pkgPath))
  | (pkg :: _, None) =>
      if decide (0 < List.length (gopackages.Errors pkg))
      then (None, Some ("package errors: " ++ fmt_v (gopackages.Errors pkg)))
      else (Some pkg, None)
  end.

Definition GetPackage (pm : PackageManager) (pkgPath : string)
  : (option gopackages.Package * option string) * PackageManager :=
  match packageCache pm !! pkgPath with
  | Some pkg => ((pkg, None), pm)
  | None =>
      let '(pkg, err) := loadPackage pkgPath in
      ((pkg, err), {| packageCache := <[pkgPath := pkg]> (packageCache pm) |})
  end.

End with_env.
End packages.

(** ** [internal/generator]: configuration and descriptors *)

Module generator.

Notation "'let?' x ':=' r 'in' k" := (res_bind r (λ x, k))
  (at level 10, x name, r at level 100, k at level 200).

Record TypeWithImportsTemplate : Type := mkTypeWithImportsTemplate {
  TypeTemplate : string;
  Imports : list string;
}.

Definition NewTypeWithImportsTemplate (typeStr : string) (imports : list string)
  : TypeWithImportsTemplate :=
  {| TypeTemplate := typeStr; Imports := imports |}.

Record ConversionTemplate : Type := mkConversionTemplate {
  Tmpl : string;
  Error : bool;
}.

Record Conversion : Type := mkConversion {
  SourceType : string;
  DestType : string;
  Conversion_Conversion : ConversionTemplate;
  ReverseConversion : ConversionTemplate;
  Conversion_Imports : list string;
}.

(** [StructDefinition] only embeds a [TypeWithImportsTemplate]. *)
Definition StructDefinition : Type := TypeWithImportsTemplate.

Record CustomFieldMapping : Type := mkCustomFieldMapping {
  SourceField : string;
  DestField : string;
  SourceTag : string;
  DestTag : string;
  CustomFieldMapping_Tag : string;
}.

Record AdditionalArg : Type := mkAdditionalArg {
  AdditionalArg_Name : string;
  AdditionalArg_DestField : string;
  AdditionalArg_Template : TypeWithImportsTemplate;
}.

Record Mapping : Type := mkMapping {
  From : StructDefinition;
  To : StructDefinition;
  FuncName : string;
  FuncAdditionalArgs : list AdditionalArg;
  CustomFieldMappings : list CustomFieldMapping;
  CustomConversions : list Conversion;
  Mapping_Tag : string;
}.

Record Config : Type := mkConfig {
  OutPackageName : string;
  OutFileName : string;
  OutFilePath : string;
  Mappings : list Mapping;
  Debug : bool;
}.

Record Conversions : Type := mkConversions {
  Conversions_Conversions : list Conversion;
}.

Record FieldDefinition : Type := mkFieldDefinition {
  Name : string;
  Tag : string;
  FieldDefinition_Template : TypeWithImportsTemplate;
}.

(** [Alias] is a pointer to a string: nil when the import has no local name. *)
Record ImportInfo : Type := mkImportInfo {
  Alias : option string;
  PkgName : string;
  Path : string;
}.

Definition NewImportInfo (alias : option string) (pkgName path : string)
  : ImportInfo :=
  {| Alias := alias; PkgName := pkgName; Path := path |}.

Record Generator : Type := mkGenerator {
  importManager : imports.ImportManager;
  packageManager : packages.PackageManager;
  typeToFieldsMap : gmap string (list FieldDefinition);
  conversions : Conversions;
  config : Config;
}.

Definition NewGenerator (config : Config) (conversions : Conversions) : Generator :=
  {| importManager := imports.NewImportManager;
     packageManager := packages.NewPackageManager;
     typeToFieldsMap := ∅;
     conversions := conversions;
     config := config |}.

Definition set_importManager (g : Generator) (im : imports.ImportManager)
  : Generator :=
  {| importManager := im; packageManager := packageManager g;
     typeToFieldsMap := typeToFieldsMap g; conversions := conversions g;
     config := config g |}.

Definition set_packageManager (g : Generator) (pm : packages.PackageManager)
  : Generator :=
  {| importManager := importManager g; packageManager := pm;
     typeToFieldsMap := typeToFieldsMap g; conversions := conversions g;
     config := config g |}.

Definition AddFields (g : Generator) (typeName : string)
    (fields : list FieldDefinition) : Generator :=
  {| importManager := importManager g; packageManager := packageManager g;
     typeToFieldsMap := <[typeName := fields]> (typeToFieldsMap g);
     conversions := conversions g; config := config g |}.

Definition GetFields (g : Generator) (typeName : string)
  : option (list FieldDefinition) :=
  typeToFieldsMap g !! typeName.

(** The loop [for idx, imp := range imports { data["Import<idx>"] = alias }],
    from index [idx] on. *)
Fixpoint importData (im : imports.ImportManager) (idx : nat)
    (imps : list string) (data : gmap string string) : gmap string string :=
  match imps with
  | [] => data
  | imp :: rest =>
      importData im (S idx) rest
        (<["Import" ++ fmt.d idx := imports.GetImportAlias im imp]> data)
  end.

Definition NewFieldDefinition_go (st : string * list string) (idx : nat)
    (importInfo : ImportInfo) : string * list string :=
  let old := default (PkgName importInfo) (Alias importInfo) in
  (strings.ReplaceAll st.1 old ("{{ .Import" ++ fmt.d idx ++ " }}"),
   (st.2 ++ [Path importInfo])%list).

Fixpoint NewFieldDefinition_loop (idx : nat) (importInfos : list ImportInfo)
    (st : string * list string) : string * list string :=
  match importInfos with
  | [] => st
  | importInfo :: rest =>
      NewFieldDefinition_loop (S idx) rest (NewFieldDefinition_go st idx importInfo)
  end.

Definition NewFieldDefinition (name typeStr tag : string)
    (importInfos : list ImportInfo) : FieldDefinition :=
  let '(typeTemplate, imports) := NewFieldDefinition_loop 0 importInfos (typeStr, []) in
  {| Name := name; Tag := tag;
     FieldDefinition_Template := NewTypeWithImportsTemplate typeTemplate imports |}.

Fixpoint GetUnaliasedType_loop (n i : nat) (result : string) : string :=
  match n with
  | O => result
  | S n' =>
      GetUnaliasedType_loop n' (S i)
        (strings.ReplaceAll result ("{{ .Import" ++ fmt.d i ++ " }}.") "")
  end.

Definition GetUnaliasedType (t : TypeWithImportsTemplate) : string :=
  GetUnaliasedType_loop (List.length (Imports t)) 0 (TypeTemplate t).

Definition GetSourceTypeWithImportsTemplate (c : Conversion)
  : TypeWithImportsTemplate :=
  NewTypeWithImportsTemplate (SourceType c) (Conversion_Imports c).

Definition GetDestTypeWithImportsTemplate (c : Conversion)
  : TypeWithImportsTemplate :=
  NewTypeWithImportsTemplate (DestType c) (Conversion_Imports c).

Section with_env.
Context `{GoEnv}.

(** *** Templates *)

Definition ExecuteTemplate (t : TypeWithImportsTemplate)
    (im : imports.ImportManager) : Res string :=
  match template_Run "type" (TypeTemplate t) (importData im 0 (Imports t) ∅) with
  | Rendered s => Ok s
  | ParseError e => Panic ("failed to parse type template: " ++ e)
  | ExecError e => Panic ("failed to execute type template: " ++ e)
  end.

Definition Equals (t other : TypeWithImportsTemplate)
    (im : imports.ImportManager) : Res bool :=
  let? renderedT := ExecuteTemplate t im in
  let? renderedOther := ExecuteTemplate other im in
  Ok (String.eqb renderedT renderedOther).

Definition executeTemplate (c : Conversion) (tmplStr : string) (hasError : bool)
    (sourceVar destVar errorVar : string) (im : imports.ImportManager)
    (tmplName : string) : Res (string * bool) :=
  let data := importData im 0 (Conversion_Imports c) ∅ in
  let data := <["Source" := sourceVar]> data in
  let data := <["Dest" := destVar]> data in
  let data := <["Error" := errorVar]> data in
  match template_Run tmplName tmplStr data with
  | Rendered s => Ok (s, hasError)
  | ParseError e => Panic e
  | ExecError e => Panic e
  end.

Definition ExecuteConversionTemplate (c : Conversion)
    (sourceVar destVar errorVar : string) (im : imports.ImportManager)
  : Res (string * bool) :=
  executeTemplate c (Tmpl (Conversion_Conversion c)) (Error (Conversion_Conversion c))
    sourceVar destVar errorVar im "conversion".

Definition ExecuteReverseConversionTemplate (c : Conversion)
    (sourceVar destVar errorVar : string) (im : imports.ImportManager)
  : Res (string * bool) :=
  if String.eqb (Tmpl (ReverseConversion c)) ""
  then Ok (destVar ++ " = " ++ sourceVar, false)
  else executeTemplate c (Tmpl (ReverseConversion c)) (Error (ReverseConversion c))
         sourceVar destVar errorVar im "reverse_conversion".

Definition RenderParameter (a : AdditionalArg) (im : imports.ImportManager)
  : Res string :=
  let? renderedType := ExecuteTemplate (AdditionalArg_Template a) im in
  Ok (AdditionalArg_Name a ++ " " ++ renderedType).

(** *** The conversion resolver *)

(** The two closures of [findConversion]; [&&] evaluates its right operand
    only when the left one is true. *)
Definition equalsFunc (g : Generator) (conv : Conversion)
    (sourceTypeTemplate destTypeTemplate : TypeWithImportsTemplate) : Res bool :=
  let? b := Equals (GetSourceTypeWithImportsTemplate conv) sourceTypeTemplate
              (importManager g) in
  if b then Equals (GetDestTypeWithImportsTemplate conv) destTypeTemplate
             (importManager g)
  else Ok false.

Definition reverseEqualsFunc (g : Generator) (conv : Conversion)
    (sourceTypeTemplate destTypeTemplate : TypeWithImportsTemplate) : Res bool :=
  let? b := Equals (GetDestTypeWithImportsTemplate conv) sourceTypeTemplate
              (importManager g) in
  if b then
    let? b' := Equals (GetSourceTypeWithImportsTemplate conv) destTypeTemplate
                 (importManager g) in
    if b' then Ok (negb (String.eqb (Tmpl (ReverseConversion conv)) ""))
    else Ok false
  else Ok false.

(** One loop of [findConversion]: [None] when the loop ends without a
    [return]. *)
Fixpoint findConversion_loop (g : Generator) (convs : list Conversion)
    (sourceTypeTemplate destTypeTemplate : TypeWithImportsTemplate)
  : Res (option (Conversion * bool)) :=
  match convs with
  | [] => Ok None
  | conv :: rest =>
      let? fwd := equalsFunc g conv sourceTypeTemplate destTypeTemplate in
      if fwd then Ok (Some (conv, false))
      else
        let? rev := reverseEqualsFunc g conv sourceTypeTemplate destTypeTemplate in
        if rev then Ok (Some (conv, true))
        else findConversion_loop g rest sourceTypeTemplate destTypeTemplate
  end.

(** [findConversion] returns [(nil, false)] as [None]. *)
Definition findConversion (g : Generator)
    (sourceTypeTemplate destTypeTemplate : TypeWithImportsTemplate)
    (conversions customConversions : list Conversion)
  : Res (option (Conversion * bool)) :=
  let? r := findConversion_loop g customConversions sourceTypeTemplate
              destTypeTemplate in
  match r with
  | Some found => Ok (Some found)
  | None => findConversion_loop g conversions sourceTypeTemplate destTypeTemplate
  end.

Definition assignmentWithConversion (g : Generator) (sourceExpr : string)
    (dest : FieldDefinition) (conversion : option Conversion) (isReverse : bool)
  : Res (string * bool) :=
  let destExpr := "dst." ++ Name dest in
  let errorExpr := "err" in
  match conversion with
  | Some conversion =>
      if isReverse
      then ExecuteReverseConversionTemplate conversion sourceExpr destExpr
             errorExpr (importManager g)
      else ExecuteConversionTemplate conversion sourceExpr destExpr errorExpr
             (importManager g)
  | None => Ok (destExpr ++ " = " ++ sourceExpr, false)
  end.

Definition assignmentLine (g : Generator) (source : option FieldDefinition)
    (dest : FieldDefinition) (conversions customConversions : list Conversion)
    (additionalArg : option AdditionalArg) : Res (string * bool) :=
  match additionalArg, source with
  | Some additionalArg, _ =>
      let? found := findConversion g (AdditionalArg_Template additionalArg)
                      (FieldDefinition_Template dest) conversions customConversions in
      assignmentWithConversion g (AdditionalArg_Name additionalArg) dest
        (fst <$> found) (default false (snd <$> found))
  | None, Some source =>
      let? found := findConversion g (FieldDefinition_Template source)
                      (FieldDefinition_Template dest) conversions customConversions in
      assignmentWithConversion g ("src." ++ Name source) dest
        (fst <$> found) (default false (snd <$> found))
  | None, None =>
      Ok ("// no matching source found for field: " ++ Name dest ++
          ", consider adding an additional arg or aligning the fields", false)
  end.

(** *** The field matcher *)

Definition findAdditionalArg (additionalArgs : list AdditionalArg)
    (dest : FieldDefinition) : option AdditionalArg :=
  List.find (λ arg, String.eqb (AdditionalArg_DestField arg) (Name dest))
    additionalArgs.

Definition tagValue (tag key : string) : string :=
  if String.eqb tag "" then ""
  else
    let v := StructTag_Get tag key in
    if String.eqb v "" then ""
    else
      let parts := strings.Split v "," in
      let part0 := default "" (head parts) in
      if String.eqb part0 "-" then "" else part0.

(** The inner loop of a tag-based override: the first source field whose
    tag value equals [sourceTag]. *)
Definition findByTag (sourceFields : list FieldDefinition)
    (customTag sourceTag : string) : option FieldDefinition :=
  List.find (λ field, String.eqb (tagValue (Tag field) customTag) sourceTag)
    sourceFields.

(** The body of the loop over [customFieldMappings]: [Some] is a [return]. *)
Definition customFieldMappingStep (dest : FieldDefinition)
    (byName : gmap string FieldDefinition) (tag : string)
    (sourceFields : list FieldDefinition) (cfm : CustomFieldMapping)
  : option FieldDefinition :=
  let byNameHit :=
    if negb (String.eqb (DestField cfm) "") && String.eqb (DestField cfm) (Name dest)
       && negb (String.eqb (SourceField cfm) "")
    then byName !! SourceField cfm
    else None in
  match byNameHit with
  | Some field => Some field
  | None =>
      if negb (String.eqb (DestTag cfm) "") then
        let customTag :=
          if String.eqb (CustomFieldMapping_Tag cfm) "" then tag
          else CustomFieldMapping_Tag cfm in
        let tagVal := tagValue (Tag dest) customTag in
        if negb (String.eqb tagVal "") && String.eqb tagVal (DestTag cfm) then
          if negb (String.eqb (SourceTag cfm) "")
          then findByTag sourceFields customTag (SourceTag cfm)
          else None
        else None
      else None
  end.

Fixpoint customFieldMappingsLoop (dest : FieldDefinition)
    (byName : gmap string FieldDefinition) (tag : string)
    (sourceFields : list FieldDefinition)
    (customFieldMappings : list CustomFieldMapping) : option FieldDefinition :=
  match customFieldMappings with
  | [] => None
  | cfm :: rest =>
      match customFieldMappingStep dest byName tag sourceFields cfm with
      | Some field => Some field
      | None => customFieldMappingsLoop dest byName tag sourceFields rest
      end
  end.

Definition findSourceForDest (dest : FieldDefinition)
    (byName byTag : gmap string FieldDefinition)
    (customFieldMappings : list CustomFieldMapping) (tag : string)
    (sourceFields : list FieldDefinition) : option FieldDefinition :=
  match customFieldMappingsLoop dest byName tag sourceFields customFieldMappings with
  | Some field => Some field
  | None =>
      match byName !! Name dest with
      | Some field => Some field
      | None =>
          let tagVal := tagValue (Tag dest) tag in
          if negb (String.eqb tagVal "") then byTag !! tagVal else None
      end
  end.

(** *** The type resolver *)

Open Scope go_scope.

Definition nil_deref : string :=
  "runtime error: invalid memory address or nil pointer dereference".

(** Reading a field through a pointer that may be nil. *)
Definition deref {S A} (p : option A) : M S A :=
  match p with
  | Some a => ret a
  | None => lift_res (Panic nil_deref)
  end.

(** [g.packageManager.GetPackage(pkgPath)]: the pair it returns, the cache
    updated in the generator. *)
Definition getPackage (pkgPath : string)
  : M Generator (option gopackages.Package * option string) :=
  λ g, let '(r, pm) := packages.GetPackage (packageManager g) pkgPath in
       (Ok r, set_packageManager g pm).

(** [pkgAliasVisitor]: the state is [(pkgAliases, seen)]. The selector of a
    [SelectorExpr] is an identifier, on which [visit] does nothing. *)
Fixpoint visit (e : ast.Expr) (st : list string * gset string)
  : list string * gset string :=
  match e with
  | ast.SelectorExpr X _ =>
      match X with
      | ast.Ident name =>
          if decide (name ∈ st.2) then st
          else ((st.1 ++ [name])%list, {[name]} ∪ st.2)
      | _ => st
      end
  | ast.StarExpr X => visit X st
  | ast.ArrayType Elt => visit Elt st
  | ast.MapType Key Value => visit Value (visit Key st)
  | ast.StructType Fields =>
      (fix visit_fields (fs : list ast.Field) st :=
         match fs with
         | [] => st
         | f :: fs' => visit_fields fs' (visit (ast.Type_ f) st)
         end) Fields st
  | ast.FuncType Params Results =>
      let visit_fields :=
        fix visit_fields (fs : list ast.Field) st :=
          match fs with
          | [] => st
          | f :: fs' => visit_fields fs' (visit (ast.Type_ f) st)
          end in
      let st := match Params with Some ps => visit_fields ps st | None => st end in
      match Results with Some rs => visit_fields rs st | None => st end
  | _ => st
  end.

Definition pkgAliasVisitor (expression : ast.Expr) : list string :=
  (visit expression ([], ∅)).1.

Definition importInfoOf (alias : option string) (pkg : gopackages.Package)
  : ImportInfo :=
  {| Alias := alias; PkgName := gopackages.Name pkg;
     Path := gopackages.PkgPath pkg |}.

(** [findImportSpecForAlias], over the imports of the file still to look at;
    [Ok None] is the final [return nil, nil]. Both tests of the loop body read
    [pkg.Name], so a nil package panics whatever the import is. *)
Fixpoint findImportSpecForAlias_loop (imps : list ast.ImportSpec)
    (pkgAlias : string) : M Generator (option ImportInfo) :=
  match imps with
  | [] => ret None
  | imp :: rest =>
      let path := strings.Trim (ast.ImportSpec_Path imp) dquote in
      let* r := getPackage path in
      match r with
      | (_, Some err) => fail err
      | (pkg, None) =>
          let* pkg := deref pkg in
          match ast.ImportSpec_Name imp with
          | Some name =>
              if String.eqb name pkgAlias
              then ret (Some (importInfoOf (Some name) pkg))
              else if String.eqb (gopackages.Name pkg) pkgAlias
              then ret (Some (importInfoOf None pkg))
              else findImportSpecForAlias_loop rest pkgAlias
          | None =>
              if String.eqb (gopackages.Name pkg) pkgAlias
              then ret (Some (importInfoOf None pkg))
              else findImportSpecForAlias_loop rest pkgAlias
          end
      end
  end.

Definition findImportSpecForAlias (f : ast.File) (pkgAlias : string)
  : M Generator (option ImportInfo) :=
  findImportSpecForAlias_loop (ast.Imports f) pkgAlias.

(** The loop over [pkg.GoFiles] that looks for the import of [pkgAlias]:
    [Ok None] when it ends without a [break]. *)
Fixpoint findImportInFiles (gofiles : list string) (pkgAlias : string)
  : M Generator (option ImportInfo) :=
  match gofiles with
  | [] => ret None
  | gofile :: rest =>
      match parser_ParseFile gofile with
      | None => findImportInFiles rest pkgAlias
      | Some file =>
          let* importInfo := findImportSpecForAlias file pkgAlias in
          match importInfo with
          | None => findImportInFiles rest pkgAlias
          | Some info => ret (Some info)
          end
      end
  end.

Fixpoint findImportSpecs_loop (pkg : option gopackages.Package)
    (pkgPath : string) (pkgAliases : list string) (result : list ImportInfo)
  : M Generator (list ImportInfo) :=
  match pkgAliases with
  | [] => ret result
  | pkgAlias :: rest =>
      let* pkg' := deref pkg in
      let* found := findImportInFiles (gopackages.GoFiles pkg') pkgAlias in
      match found with
      | Some info => findImportSpecs_loop pkg pkgPath rest (result ++ [info])%list
      | None =>
          fail ("import not found for package " ++ pkgAlias ++ " in " ++ pkgPath)
      end
  end.

Definition findImportSpecsForExpression (expression : ast.Expr)
    (pkgPath : string) : M Generator (list ImportInfo) :=
  let pkgAliases := pkgAliasVisitor expression in
  if decide (List.length pkgAliases = 0) then ret []
  else
    let* r := getPackage pkgPath in
    match r with
    | (_, Some err) =>
        fail ("failed to load package " ++ pkgPath ++ ": " ++ err)
    | (pkg, None) => findImportSpecs_loop pkg pkgPath pkgAliases []
    end.

Fixpoint resolveTypeForEmbeddedField (expression : ast.Expr)
    (currentPkgPath : string) : M Generator (string * string) :=
  match expression with
  | ast.StarExpr X => resolveTypeForEmbeddedField X currentPkgPath
  | ast.Ident name => ret (currentPkgPath, name)
  | ast.SelectorExpr X Sel =>
      match X with
      | ast.Ident ident =>
          let* r := getPackage currentPkgPath in
          match r with
          | (_, Some err) =>
              fail ("failed to load package " ++ currentPkgPath ++ ": " ++ err)
          | (pkg, None) =>
              let* pkg := deref pkg in
              let* found := findImportInFiles (gopackages.GoFiles pkg) ident in
              match found with
              | Some info => ret (Path info, Sel)
              | None =>
                  fail ("import not found for package " ++ ident ++ " in " ++
                        currentPkgPath)
              end
          end
      | _ => fail "unsupported selector expression for embedded field"
      end
  | _ => fail "unsupported embedded field type"
  end.

(** The state of one resolution: the generator and the [visited] map, which
    the recursive calls share and only ever set to [true]. *)
Definition Resolving : Type := Generator * gset string.

Definition liftG {A} (m : M Generator A) : M Resolving A :=
  λ s, let '(r, g) := m s.1 in (r, (g, s.2)).

(** The variables the closure given to [ast.Inspect] assigns. *)
Record Found : Type := mkFound {
  foundStruct : option (list ast.Field);
  foundPkgPath : string;
  foundErr : option string;
}.

(** A recursive call made from inside the closure: its result goes to
    [foundStruct] and [foundPkgPath], its error to [foundErr]. *)
Definition recurseInto (rec : string → string → M Resolving (list ast.Field * string))
    (pkgPath typeName : string) (found : Found) : M Resolving Found :=
  λ s, match rec pkgPath typeName s with
       | (Ok (recursiveStruct, recursivePkgPath), s') =>
           (Ok {| foundStruct := Some recursiveStruct;
                  foundPkgPath := recursivePkgPath;
                  foundErr := foundErr found |}, s')
       | (Err recursiveErr, s') =>
           (Ok {| foundStruct := foundStruct found;
                  foundPkgPath := foundPkgPath found;
                  foundErr := Some recursiveErr |}, s')
       | (Panic e, s') => (Panic e, s')
       | (Diverge, s') => (Diverge, s')
       end.

(** The closure given to [ast.Inspect], applied to one [TypeSpec] node. *)
Definition inspectTypeSpec
    (rec : string → string → M Resolving (list ast.Field * string))
    (f : ast.File) (pkgPath typeName : string) (ts : ast.TypeSpec)
    (found : Found) : M Resolving Found :=
  if negb (String.eqb (ast.TypeSpec_Name ts) typeName) then ret found
  else
    match ast.TypeSpec_Type ts with
    | ast.StructType fields =>
        ret {| foundStruct := Some fields; foundPkgPath := pkgPath;
               foundErr := foundErr found |}
    | ast.Ident aliasTypeName =>
        if strings.Contains aliasTypeName "." then
          match strings.Split aliasTypeName "." with
          | [importPkgPath; importTypeName] =>
              λ s, match liftG (findImportSpecForAlias f importPkgPath) s with
                   | (Err _, s') =>
                       (Ok {| foundStruct := foundStruct found;
                              foundPkgPath := foundPkgPath found;
                              foundErr := Some ("import path not found for " ++
                                                importPkgPath) |}, s')
                   | (Ok importInfo, s') =>
                       (let* importInfo := deref importInfo in
                        recurseInto rec (Path importInfo) importTypeName found) s'
                   | (Panic e, s') => (Panic e, s')
                   | (Diverge, s') => (Diverge, s')
                   end
          | _ =>
              ret {| foundStruct := foundStruct found;
                     foundPkgPath := foundPkgPath found;
                     foundErr := Some ("invalid qualified type: " ++ aliasTypeName) |}
          end
        else recurseInto rec pkgPath aliasTypeName found
    | _ => ret found
    end.

Fixpoint inspectFile
    (rec : string → string → M Resolving (list ast.Field * string))
    (f : ast.File) (pkgPath typeName : string) (tss : list ast.TypeSpec)
    (found : Found) : M Resolving Found :=
  match tss with
  | [] => ret found
  | ts :: rest =>
      let* found := inspectTypeSpec rec f pkgPath typeName ts found in
      inspectFile rec f pkgPath typeName rest found
  end.

(** The loop over [pkg.GoFiles] of [findStructDefinitionRecursive]. *)
Fixpoint findStructInFiles
    (rec : string → string → M Resolving (list ast.Field * string))
    (pkgPath typeName : string) (gofiles : list string)
  : M Resolving (list ast.Field * string) :=
  match gofiles with
  | [] => fail ("type " ++ typeName ++ " not found in package " ++ pkgPath)
  | file :: rest =>
      match parser_ParseFile file with
      | None => findStructInFiles rec pkgPath typeName rest
      | Some f =>
          let* found := inspectFile rec f pkgPath typeName (ast.TypeSpecs f)
                          {| foundStruct := None; foundPkgPath := "";
                             foundErr := None |} in
          match foundStruct found, foundErr found with
          | Some st, _ => ret (st, foundPkgPath found)
          | None, Some err => fail err
          | None, None => findStructInFiles rec pkgPath typeName rest
          end
      end
  end.

(** [fuel] bounds the depth of the recursion; a call that runs out of it
    stands for one that has not returned at that depth. *)
Fixpoint findStructDefinitionRecursive (fuel : nat) (pkgPath typeName : string)
  : M Resolving (list ast.Field * string) :=
  match fuel with
  | O => lift_res Diverge
  | S fuel' =>
      let key := pkgPath ++ "." ++ typeName in
      let* s := get in
      if decide (key ∈ s.2)
      then fail ("circular type alias detected: " ++ key)
      else
        let* _ := modify (λ s : Resolving, (s.1, {[key]} ∪ s.2)) in
        let* r := liftG (getPackage pkgPath) in
        match r with
        | (_, Some err) =>
            fail ("failed to load package " ++ pkgPath ++ ": " ++ err)
        | (pkg, None) =>
            let* pkg := deref pkg in
            findStructInFiles (findStructDefinitionRecursive fuel') pkgPath
              typeName (gopackages.GoFiles pkg)
        end
  end.

Definition findStructDefinition (fuel : nat) (pkgPath typeName : string)
  : M Generator (list ast.Field * string) :=
  λ g, let '(r, s) := findStructDefinitionRecursive fuel pkgPath typeName (g, ∅) in
       (r, s.1).

(** *** Field extraction and the flattening of embedded fields *)

Definition expandEmbeddedFields_with
    (rec : string → string → M Generator (list FieldDefinition))
    (fld : ast.Field) (structPkgPath : string)
  : M Generator (list FieldDefinition) :=
  let* r := resolveTypeForEmbeddedField (ast.Type_ fld) structPkgPath in
  rec r.1 r.2.

Definition fieldTag (fld : ast.Field) : string :=
  match ast.Tag fld with
  | Some value => strings.Trim value bquote
  | None => ""
  end.

(** The loop of [extractFieldsFromPackage] over the fields of the struct. *)
Fixpoint extractFields_loop
    (rec : string → string → M Generator (list FieldDefinition))
    (structPkgPath : string) (flds : list ast.Field)
    (fields : list FieldDefinition) : M Generator (list FieldDefinition) :=
  match flds with
  | [] => ret fields
  | fld :: rest =>
      let typ := printer_Fprint (ast.Type_ fld) in
      let* importInfos :=
        wrap "failed to find import specs for expression: "
          (findImportSpecsForExpression (ast.Type_ fld) structPkgPath) in
      let tag := fieldTag fld in
      if decide (List.length (ast.Names fld) = 0) then
        let* embeddedFields :=
          wrap "failed to expand embedded field: "
            (expandEmbeddedFields_with rec fld structPkgPath) in
        extractFields_loop rec structPkgPath rest (fields ++ embeddedFields)%list
      else
        extractFields_loop rec structPkgPath rest
          (fields ++ ((λ name, NewFieldDefinition name typ tag importInfos)
                        <$> ast.Names fld))%list
  end.

Fixpoint extractFieldsFromPackage (fuel : nat) (pkgPath typeName : string)
  : M Generator (list FieldDefinition) :=
  match fuel with
  | O => lift_res Diverge
  | S fuel' =>
      let* r := findStructDefinition fuel pkgPath typeName in
      extractFields_loop (extractFieldsFromPackage fuel') r.2 r.1 []
  end.

Definition expandEmbeddedFields (fuel : nat) (fld : ast.Field)
    (structPkgPath : string) : M Generator (list FieldDefinition) :=
  expandEmbeddedFields_with (extractFieldsFromPackage fuel) fld structPkgPath.

(** *** The code assembler *)

(** The two lookup maps of [generateFunction], filled in the order of the
    source fields. *)
Definition indexSourceFields (tag : string) (sourceFields : list FieldDefinition)
  : gmap string FieldDefinition * gmap string FieldDefinition :=
  foldl (λ (maps : gmap string FieldDefinition * gmap string FieldDefinition)
           sourceField,
           let byName := <[Name sourceField := sourceField]> maps.1 in
           let tv := tagValue (Tag sourceField) tag in
           if negb (String.eqb tv "")
           then (byName, <[tv := sourceField]> maps.2)
           else (byName, maps.2))
    (∅, ∅) sourceFields.

(** The loop of [generateFunction] over the destination fields; the state
    is [(assigns, hasError)]. *)
Fixpoint assignsLoop (g : Generator) (mapping : Mapping)
    (byName byTag : gmap string FieldDefinition) (tag : string)
    (sourceFields destFields : list FieldDefinition)
    (assigns : list string) (hasError : bool) : Res (list string * bool) :=
  match destFields with
  | [] => Ok (assigns, hasError)
  | destField :: rest =>
      let sourceField :=
        findSourceForDest destField byName byTag (CustomFieldMappings mapping)
          tag sourceFields in
      let additionalArg := findAdditionalArg (FuncAdditionalArgs mapping) destField in
      let? line := assignmentLine g sourceField destField
                     (Conversions_Conversions (conversions g))
                     (CustomConversions mapping) additionalArg in
      let assigns :=
        if negb (String.eqb line.1 "") then (assigns ++ [line.1])%list else assigns in
      assignsLoop g mapping byName byTag tag sourceFields rest assigns
        (if line.2 then true else hasError)
  end.

Definition funcName (fromType toType : TypeWithImportsTemplate) : string :=
  "Map" ++ GetUnaliasedType fromType ++ "To" ++ GetUnaliasedType toType.

Fixpoint renderParameters (g : Generator) (args : list AdditionalArg)
    (funcArgs : list string) : Res (list string) :=
  match args with
  | [] => Ok funcArgs
  | arg :: rest =>
      let? p := RenderParameter arg (importManager g) in
      renderParameters g rest (funcArgs ++ [p])%list
  end.

(** The text of one function, the two [fmt.Sprintf] of [generateFunction]:
    they differ in the result list only. *)
Definition functionText (funcName fromType toType funcArgs retType : string)
    (hasError : bool) (assigns : list string) : string :=
  "// " ++ funcName ++ " copies " ++ fromType ++ " → " ++ toType ++ nl ++
  "func " ++ funcName ++ "(" ++ funcArgs ++ ") (dst " ++ retType ++
  (if hasError then ", err error" else "") ++ ") {" ++ nl ++
  "    " ++ strings.Join assigns (nl ++ tab) ++ nl ++
  "    return" ++ nl ++ "}".

(** [generateFunction] reads the generator and changes nothing in it. With
    [Debug] set the source also logs the two field lists, which is not part
    of the text it returns. *)
Definition generateFunction (g : Generator) (mapping : Mapping) : Res string :=
  match GetFields g (TypeTemplate (From mapping)),
        GetFields g (TypeTemplate (To mapping)) with
  | Some sourceFields, Some destFields =>
      let tag := if String.eqb (Mapping_Tag mapping) "" then "json"
                 else Mapping_Tag mapping in
      let maps := indexSourceFields tag sourceFields in
      let? r := assignsLoop g mapping maps.1 maps.2 tag sourceFields destFields
                  [] false in
      let fromTypeTemplate := From mapping in
      let toTypeTemplate := To mapping in
      let name :=
        if String.eqb (FuncName mapping) ""
        then funcName fromTypeTemplate toTypeTemplate
        else FuncName mapping in
      let? src := ExecuteTemplate fromTypeTemplate (importManager g) in
      let? funcArgs := renderParameters g (FuncAdditionalArgs mapping)
                         ["src " ++ src] in
      let? retType := ExecuteTemplate toTypeTemplate (importManager g) in
      Ok (functionText name (GetUnaliasedType fromTypeTemplate)
            (GetUnaliasedType toTypeTemplate) (strings.Join funcArgs ", ")
            retType r.2 r.1)
  | _, _ =>
      Err ("structs not found: " ++ TypeTemplate (From mapping) ++ ", " ++
           TypeTemplate (To mapping))
  end.

(** Nested loops of the form [for ... { g.importManager.AddImport(imp) }]. *)
Definition addImports (imps : list string) (g : Generator) : Generator :=
  set_importManager g (foldl imports.AddImport (importManager g) imps).

Definition addFieldImports (fields : list FieldDefinition) (g : Generator)
  : Generator :=
  foldl (λ g field, addImports (Imports (FieldDefinition_Template field)) g)
    g fields.

(** [extractFieldsFromPackage] as [Generate] calls it: on an error the
    message names the rendered type, and rendering may panic. *)
Definition extractFor (fuel : nat) (pre : string) (def : StructDefinition)
  : M Generator (list FieldDefinition) :=
  λ g,
    let pkgPath := default "" (head (Imports def)) in
    match extractFieldsFromPackage fuel pkgPath (GetUnaliasedType def) g with
    | (Err err, g') =>
        (let? rendered := ExecuteTemplate def (importManager g') in
         Err (pre ++ rendered ++ ": " ++ err), g')
    | r => r
    end.

(** The body of the loop of [Generate] over the mappings. *)
Definition generateMapping (fuel : nat) (mapping : Mapping) : M Generator string :=
  let* _ := modify (λ g,
    foldl (λ g (customConversion : Conversion),
             addImports (Conversion_Imports customConversion) g)
      g (CustomConversions mapping)) in
  let* _ := modify (λ g,
    foldl (λ g (additionalArg : AdditionalArg),
             addImports (Imports (AdditionalArg_Template additionalArg)) g)
      g (FuncAdditionalArgs mapping)) in
  let* _ := modify (addImports (Imports (From mapping))) in
  let* _ := modify (addImports (Imports (To mapping))) in
  let* fromFields := extractFor fuel "failed to extract fields from " (From mapping) in
  let* _ := modify (addFieldImports fromFields) in
  let* toFields := extractFor fuel "failed to extract fields to " (To mapping) in
  let* _ := modify (addFieldImports toFields) in
  let* _ := modify (λ g, AddFields g (TypeTemplate (From mapping)) fromFields) in
  let* _ := modify (λ g, AddFields g (TypeTemplate (To mapping)) toFields) in
  let* g := get in
  wrap "failed to generate function: " (lift_res (generateFunction g mapping)).

Fixpoint generateMappings (fuel : nat) (mappings : list Mapping)
    (funcs : list string) : M Generator (list string) :=
  match mappings with
  | [] => ret funcs
  | mapping :: rest =>
      let* funcCode := generateMapping fuel mapping in
      generateMappings fuel rest (funcs ++ [funcCode])%list
  end.

(** The document [Generate] returns. *)
Definition document (outPackageName importCode funcCode : string) : string :=
  "// Code generated by structmap; DO NOT EDIT." ++ nl ++
  "package " ++ outPackageName ++ nl ++ nl ++
  importCode ++ nl ++ nl ++
  funcCode ++ nl.

(** [Generate]; [range_order] is the order the [range] over the import table
    takes in this run, [fuel] the recursion depth allowed to the resolver. *)
Definition Generate (fuel : nat) (range_order : imports.RangeOrder)
  : M Generator string :=
  let* _ := modify (λ g,
    foldl (λ g (conversion : Conversion),
             addImports (Conversion_Imports conversion) g)
      g (Conversions_Conversions (conversions g))) in
  let* g := get in
  let* funcs := generateMappings fuel (Mappings (config g)) [] in
  let funcCode := strings.Join funcs (nl ++ nl) in
  let* g := get in
  let importCode := imports.RenderImports range_order (importManager g) funcCode in
  ret (document (OutPackageName (config g)) importCode funcCode).

End with_env.
End generator.

(** ** A concrete tool chain, for running the engine on examples *)

Module example.

Import generator.

(** *** Templates with placeholders [{{ .Key }}] *)

Inductive TmplState : Type :=
| InText
| OneBrace
| InAction (acc : string)
| OneClose (acc : string).

Definition placeholder (acc : string) (data : gmap string string)
  : option string :=
  match strings.Trim acc " " with
  | String "." key => Some (default "" (data !! key))
  | _ => None
  end.

Fixpoint run_template (text : string) (data : gmap string string)
    (st : TmplState) : TmplResult :=
  match text with
  | "" =>
      match st with
      | InText => Rendered ""
      | OneBrace => Rendered "{"
      | _ => ParseError "unclosed action"
      end
  | String c rest =>
      let emit (s : string) (st : TmplState) :=
        match run_template rest data st with
        | Rendered out => Rendered (s ++ out)
        | r => r
        end in
      match st with
      | InText =>
          if Ascii.eqb c "{" then run_template rest data OneBrace
          else emit (String c "") InText
      | OneBrace =>
          if Ascii.eqb c "{" then run_template rest data (InAction "")
          else emit (String "{" (String c "")) InText
      | InAction acc =>
          if Ascii.eqb c "}" then run_template rest data (OneClose acc)
          else run_template rest data (InAction (acc ++ String c ""))
      | OneClose acc =>
          if Ascii.eqb c "}" then
            match placeholder acc data with
            | Some v => emit v InText
            | None => ExecError ("bad action: " ++ acc)
            end
          else run_template rest data (InAction (acc ++ String "}" (String c "")))
      end
  end.

(** *** Struct tags in the conventional form [key:"value" key:"value"] *)

Inductive TagState : Type :=
| TagName (acc : string)
| TagColon (name : string)
| TagValue (name acc : string).

Fixpoint tag_get (tag key : string) (st : TagState) : string :=
  match tag with
  | "" => ""
  | String c rest =>
      match st with
      | TagName acc =>
          if Ascii.eqb c " " && String.eqb acc "" then tag_get rest key (TagName "")
          else if Ascii.eqb c ":" then
            if String.eqb acc "" then "" else tag_get rest key (TagColon acc)
          else if Ascii.eqb c " " || Ascii.eqb c (ascii_of_nat 34) then ""
          else tag_get rest key (TagName (acc ++ String c ""))
      | TagColon name =>
          if Ascii.eqb c (ascii_of_nat 34) then tag_get rest key (TagValue name "")
          else ""
      | TagValue name acc =>
          if Ascii.eqb c (ascii_of_nat 34) then
            if String.eqb name key then acc else tag_get rest key (TagName "")
          else tag_get rest key (TagValue name (acc ++ String c ""))
      end
  end.

(** *** Printing the type expressions of the examples *)

Fixpoint print_expr (e : ast.Expr) : string :=
  match e with
  | ast.Ident name => name
  | ast.StarExpr X => "*" ++ print_expr X
  | ast.SelectorExpr X Sel => print_expr X ++ "." ++ Sel
  | ast.ArrayType Elt => "[]" ++ print_expr Elt
  | ast.MapType Key Value => "map[" ++ print_expr Key ++ "]" ++ print_expr Value
  | ast.StructType _ => "struct{...}"
  | ast.FuncType _ _ => "func(...)"
  | ast.OtherExpr text => text
  end.

(** *** The packages of the examples *)

Definition field (name : string) (type : ast.Expr) (tag : string) : ast.Field :=
  ast.mkField [name] type
    (if String.eqb tag "" then None else Some (bquote ++ tag ++ bquote)).

Definition embedded (type : ast.Expr) : ast.Field := ast.mkField [] type None.

Definition json (v : string) : string := "json:" ++ dquote ++ v ++ dquote.

(** [models1]: [type User struct { ID string; Name string; Age int }]. *)
Definition models1_go : ast.File :=
  {| ast.Imports := [];
     ast.TypeSpecs :=
       [ast.mkTypeSpec "User"
          (ast.StructType
             [field "ID" (ast.Ident "string") (json "id");
              field "Name" (ast.Ident "string") (json "name");
              field "Age" (ast.Ident "int") (json "age")])] |}.

(** [models2]: [type UserDTO struct { ID string; Name string }]. *)
Definition models2_go : ast.File :=
  {| ast.Imports := [];
     ast.TypeSpecs :=
       [ast.mkTypeSpec "UserDTO"
          (ast.StructType
             [field "ID" (ast.Ident "string") (json "id");
              field "Name" (ast.Ident "string") (json "name")])] |}.

(** [p]: [import "example.com/q"], [type A = q.Other],
    [type Local = Inner], [type Inner struct { X int }],
    [type Loop1 = Loop2], [type Loop2 = Loop1] and
    [type Node struct { *Node; Val int }]. *)
Definition p_go : ast.File :=
  {| ast.Imports := [ast.mkImportSpec None (dquote ++ "example.com/q" ++ dquote)];
     ast.TypeSpecs :=
       [ast.mkTypeSpec "A" (ast.SelectorExpr (ast.Ident "q") "Other");
        ast.mkTypeSpec "Local" (ast.Ident "Inner");
        ast.mkTypeSpec "Inner" (ast.StructType [field "X" (ast.Ident "int") ""]);
        ast.mkTypeSpec "Loop1" (ast.Ident "Loop2");
        ast.mkTypeSpec "Loop2" (ast.Ident "Loop1");
        ast.mkTypeSpec "Node"
          (ast.StructType
             [embedded (ast.StarExpr (ast.Ident "Node"));
              field "Val" (ast.Ident "int") ""])] |}.

(** [q], which imports nothing: [type Other struct { X int }]. *)
Definition q_go : ast.File :=
  {| ast.Imports := [];
     ast.TypeSpecs :=
       [ast.mkTypeSpec "Other" (ast.StructType [field "X" (ast.Ident "int") ""])] |}.

Definition package (name path file : string) : gopackages.Package :=
  {| gopackages.Name := name; gopackages.PkgPath := path;
     gopackages.GoFiles := [file]; gopackages.Errors := [] |}.

(** What the loader reports for a path no module provides: the error is
    carried by the package it returns, not returned beside it. *)
Definition no_module (pkgPath : string) : gopackages.Package :=
  {| gopackages.Name := ""; gopackages.PkgPath := pkgPath;
     gopackages.GoFiles := [];
     gopackages.Errors :=
       ["-: no required module provides package " ++ pkgPath ++
        "; to add it:" ++ nl ++ tab ++ "go get " ++ pkgPath] |}.

Definition load (pkgPath : string) : list gopackages.Package * option string :=
  if String.eqb pkgPath "example.com/models1"
  then ([package "models1" pkgPath "models1.go"], None)
  else if String.eqb pkgPath "example.com/models2"
  then ([package "models2" pkgPath "models2.go"], None)
  else if String.eqb pkgPath "example.com/p"
  then ([package "p" pkgPath "p.go"], None)
  else if String.eqb pkgPath "example.com/q"
  then ([package "q" pkgPath "q.go"], None)
  else ([no_module pkgPath], None).

Definition parse (file : string) : option ast.File :=
  if String.eqb file "models1.go" then Some models1_go
  else if String.eqb file "models2.go" then Some models2_go
  else if String.eqb file "p.go" then Some p_go
  else if String.eqb file "q.go" then Some q_go
  else None.

#[export] Instance env : GoEnv :=
  {| packages_Load := load;
     parser_ParseFile := parse;
     printer_Fprint := print_expr;
     template_Run := λ _ text data, run_template text data InText;
     StructTag_Get := λ tag key, tag_get tag key (TagName "") |}.

Definition import0 (type path : string) : TypeWithImportsTemplate :=
  {| TypeTemplate := "{{ .Import0 }}." ++ type; Imports := [path] |}.

Definition plain_mapping (from to : TypeWithImportsTemplate) : Mapping :=
  {| From := from; To := to; FuncName := ""; FuncAdditionalArgs := [];
     CustomFieldMappings := []; CustomConversions := []; Mapping_Tag := "" |}.

Definition config_of (mappings : list Mapping) : Config :=
  {| OutPackageName := "main"; OutFileName := ""; OutFilePath := "";
     Mappings := mappings; Debug := false |}.

(** The mapping of [models1.User] to [models2.UserDTO]. *)
Definition user_config : Config :=
  config_of [plain_mapping (import0 "User" "example.com/models1")
               (import0 "UserDTO" "example.com/models2")].

Definition no_conversions : Conversions := {| Conversions_Conversions := [] |}.

(** A generator that has registered nothing yet. *)
Definition g0 : Generator := NewGenerator user_config no_conversions.

Definition basic (type : string) : TypeWithImportsTemplate :=
  {| TypeTemplate := type; Imports := [] |}.

Definition a_field (name type tag : string) : FieldDefinition :=
  {| Name := name; Tag := tag; FieldDefinition_Template := basic type |}.

(** The rule [int → *int] with a forward template only, as a global rule
    and as a mapping-local rule with a template of its own. *)
Definition rule (source dest tmpl : string) : Conversion :=
  {| SourceType := source; DestType := dest;
     Conversion_Conversion := {| Tmpl := tmpl; Error := false |};
     ReverseConversion := {| Tmpl := ""; Error := false |};
     Conversion_Imports := [] |}.

Definition int_to_ptr : Conversion :=
  rule "int" "*int" "{{ .Dest }} = &{{ .Source }}".

Definition int_to_ptr_local : Conversion :=
  rule "int" "*int" "{{ .Dest }} = ptr({{ .Source }})".

(** The text a type template renders to, empty if it does not render. *)
Definition rendered_text (g : Generator) (t : TypeWithImportsTemplate) : string :=
  match ExecuteTemplate t (importManager g) with
  | Ok text => text
  | _ => ""
  end.

(** A destination field [Name] with three candidate sources and two
    overrides for it: a tag-based one, declared first, and a name-based one. *)
Definition dest_name : FieldDefinition := a_field "Name" "string" (json "name").
Definition src_first_name : FieldDefinition :=
  a_field "FirstName" "string" (json "first_name").
Definition src_nick : FieldDefinition := a_field "Nick" "string" (json "nick").
Definition src_name : FieldDefinition := a_field "Name" "string" (json "name").

Definition three_sources : list FieldDefinition :=
  [src_first_name; src_nick; src_name].

Definition by_tag_nick : CustomFieldMapping :=
  {| SourceField := ""; DestField := ""; SourceTag := "nick"; DestTag := "name";
     CustomFieldMapping_Tag := "" |}.

Definition by_name_first_name : CustomFieldMapping :=
  {| SourceField := "FirstName"; DestField := "Name"; SourceTag := "";
     DestTag := ""; CustomFieldMapping_Tag := "" |}.

(** The generator once the package [example.com/p] is in the cache. *)
Definition p_package : gopackages.Package := package "p" "example.com/p" "p.go".

Definition g_p : Generator :=
  set_packageManager g0
    {| packages.packageCache := {["example.com/p" := Some p_package]} |}.

Definition node_fields : list ast.Field :=
  [embedded (ast.StarExpr (ast.Ident "Node")); field "Val" (ast.Ident "int") ""].

(** Two orders a [range] over the import table may take. *)
Definition listed_order : imports.RangeOrder := map_to_list.
Definition reversed_order : imports.RangeOrder := λ m, reverse (map_to_list m).

(** A fallible rule: [string → int] through [strconv.Atoi]. *)
Definition parse_rule : Conversion :=
  {| SourceType := "string"; DestType := "int";
     Conversion_Conversion :=
       {| Tmpl := "{{ .Dest }}, {{ .Error }} = strconv.Atoi({{ .Source }})";
          Error := true |};
     ReverseConversion := {| Tmpl := ""; Error := false |};
     Conversion_Imports := [] |}.

(** A mapping with an additional argument [about] bound to the field
    [Name]. *)
Definition about_arg : AdditionalArg :=
  {| AdditionalArg_Name := "about"; AdditionalArg_DestField := "Name";
     AdditionalArg_Template := basic "string" |}.

Definition mapping_with_arg : Mapping :=
  {| From := import0 "User" "example.com/models1";
     To := import0 "UserDTO" "example.com/models2";
     FuncName := ""; FuncAdditionalArgs := [about_arg];
     CustomFieldMappings := [by_name_first_name]; CustomConversions := [];
     Mapping_Tag := "" |}.

(** Two types of the same name in two packages: the templates have the
    same text. *)
Definition same_text_mapping : Mapping :=
  plain_mapping (import0 "User" "example.com/models1")
    (import0 "User" "example.com/models2").

(** The fields of [models1.User]. *)
Definition user_fields : list ast.Field :=
  [field "ID" (ast.Ident "string") (json "id");
   field "Name" (ast.Ident "string") (json "name");
   field "Age" (ast.Ident "int") (json "age")].

(** The conversion of the README between [uuid.UUID] and [string]. *)
Definition uuid_rule : Conversion :=
  {| SourceType := "{{ .Import0 }}.UUID"; DestType := "string";
     Conversion_Conversion :=
       {| Tmpl := "{{ .Dest }} = {{ .Source }}.String()"; Error := false |};
     ReverseConversion :=
       {| Tmpl := "{{ .Dest }}, {{ .Error }} = {{ .Import0 }}.Parse({{ .Source }})";
          Error := true |};
     Conversion_Imports := ["github.com/google/uuid"] |}.

Definition uuid_conversions : Conversions :=
  {| Conversions_Conversions := [uuid_rule] |}.

(** The rule with its import spelled as in an import line: in double
    quotes, after a no-break space. *)
Definition quoted_uuid_rule : Conversion :=
  {| SourceType := SourceType uuid_rule; DestType := DestType uuid_rule;
     Conversion_Conversion := Conversion_Conversion uuid_rule;
     ReverseConversion := ReverseConversion uuid_rule;
     Conversion_Imports :=
       [strings.rune [194; 160] ++ dquote ++ "github.com/google/uuid" ++ dquote] |}.

Definition quoted_uuid_conversions : Conversions :=
  {| Conversions_Conversions := [quoted_uuid_rule] |}.

(** A mapping from a type of a package that does not load. *)
Definition missing_config : Config :=
  config_of [plain_mapping (import0 "User" "example.com/missing")
               (import0 "UserDTO" "example.com/models2")].

End example.

(** ** Definitions used to state the properties *)

Module props.

Import imports generator.

(** The manager a run reaches by registering the paths [ps] in order; the
    fields of [ImportManager] are private, so these are all its states. *)
Definition registered (ps : list string) : ImportManager :=
  foldl AddImport NewImportManager ps.

(** The key under which [AddImport] stores a path. *)
Definition normalized (importPath : string) : string :=
  strings.Trim (strings.TrimSpace importPath) dquote.

(** The aliases of a manager are [ref1 .. refn], [n] the number of paths,
    and the counter is the next number. *)
Definition numbered (im : ImportManager) : Prop :=
  aliasCounter im = S (size (imports im)) ∧
  ∀ alias, (∃ path, imports im !! path = Some alias) ↔
           (∃ k : nat, (1 ≤ k ≤ size (imports im))%nat ∧ alias = "ref" ++ fmt.d k).

(** Ten module paths, of which the text [three_used] mentions three. *)
Definition ten_paths : list string :=
  ["m/a"; "m/b"; "m/c"; "m/d"; "m/e"; "m/f"; "m/g"; "m/h"; "m/i"; "m/j"].

Definition three_used : string :=
  "func F(src ref2.A) (dst ref10.B) { dst.X = ref7.Conv(src.X) }".

(** *** The tag value, in the words of the specification *)

(** The portion of a tag's value before the first comma. *)
Fixpoint before_first_comma (v : string) : string :=
  match v with
  | "" => ""
  | String c v' =>
      if Ascii.eqb c "," then "" else String c (before_first_comma v')
  end.

(** *** The conversion resolver, in the words of the specification *)

(** [rt] gives the rendered text of a type template. A rule matches forward
    when its source and destination types render as the requested ones, and
    in reverse when they render as the requested ones swapped and the rule
    has a reverse template. *)
Definition forward_match (rt : TypeWithImportsTemplate → string)
    (s d : TypeWithImportsTemplate) (rule : Conversion) : bool :=
  String.eqb (rt (GetSourceTypeWithImportsTemplate rule)) (rt s) &&
  String.eqb (rt (GetDestTypeWithImportsTemplate rule)) (rt d).

Definition reverse_match (rt : TypeWithImportsTemplate → string)
    (s d : TypeWithImportsTemplate) (rule : Conversion) : bool :=
  String.eqb (rt (GetDestTypeWithImportsTemplate rule)) (rt s) &&
  String.eqb (rt (GetSourceTypeWithImportsTemplate rule)) (rt d) &&
  negb (String.eqb (Tmpl (ReverseConversion rule)) "").

(** The first rule, in list order, that matches forward or in reverse, with
    the direction; the forward test comes first. *)
Definition first_rule (rt : TypeWithImportsTemplate → string)
    (s d : TypeWithImportsTemplate) (rules : list Conversion)
  : option (Conversion * bool) :=
  match List.find (λ rule, forward_match rt s d rule || reverse_match rt s d rule)
          rules with
  | Some rule => Some (rule, negb (forward_match rt s d rule))
  | None => None
  end.

(** The templates the resolver renders for a request and a rule list. *)
Definition rule_templates (s d : TypeWithImportsTemplate)
    (rules : list Conversion) : list TypeWithImportsTemplate :=
  s :: d :: flat_map (λ rule, [GetSourceTypeWithImportsTemplate rule;
                               GetDestTypeWithImportsTemplate rule]) rules.

(** The comment left for a destination field without a source. *)
Definition unmapped_comment (dest : FieldDefinition) : string :=
  "// no matching source found for field: " ++ Name dest ++
  ", consider adding an additional arg or aligning the fields".

Section with_env.
Context `{GoEnv}.

(** The part of [Generate] before the import block is rendered: the
    registrations and the functions of all mappings. *)
Definition generateFuncs (fuel : nat) : M Generator (list string) :=
  (let* _ := modify (λ g,
     foldl (λ g (conversion : Conversion),
              addImports (Conversion_Imports conversion) g)
       g (Conversions_Conversions (conversions g))) in
   let* g := get in
   generateMappings fuel (Mappings (config g)) [])%go.

(** *** The field matcher, in the words of the specification *)

(** The last-declared source field of a given name, and of a given tag
    value under the key [tag]. *)
Definition last_named (name : string) (sourceFields : list FieldDefinition)
  : option FieldDefinition :=
  List.find (λ f, String.eqb (Name f) name) (rev sourceFields).

Definition last_tagged (tag v : string) (sourceFields : list FieldDefinition)
  : option FieldDefinition :=
  List.find (λ f, String.eqb (tagValue (Tag f) tag) v) (rev sourceFields).

(** The first source field whose value under [tag] is [v]. *)
Definition first_tagged (tag v : string) (sourceFields : list FieldDefinition)
  : option FieldDefinition :=
  List.find (λ f, String.eqb (tagValue (Tag f) tag) v) sourceFields.

(** What a name-based override resolves to for [dest]. *)
Definition name_override (dest : FieldDefinition)
    (sourceFields : list FieldDefinition) (o : CustomFieldMapping)
  : option FieldDefinition :=
  if negb (String.eqb (DestField o) "") && String.eqb (DestField o) (Name dest)
     && negb (String.eqb (SourceField o) "")
  then last_named (SourceField o) sourceFields
  else None.

(** What a tag-based override resolves to for [dest]; the key is the
    override's own or else the mapping's. *)
Definition tag_override (dest : FieldDefinition) (tag : string)
    (sourceFields : list FieldDefinition) (o : CustomFieldMapping)
  : option FieldDefinition :=
  let key := if String.eqb (CustomFieldMapping_Tag o) "" then tag
             else CustomFieldMapping_Tag o in
  if negb (String.eqb (DestTag o) "") &&
     String.eqb (tagValue (Tag dest) key) (DestTag o) &&
     negb (String.eqb (SourceTag o) "")
  then first_tagged key (SourceTag o) sourceFields
  else None.

Definition override_target (dest : FieldDefinition) (tag : string)
    (sourceFields : list FieldDefinition) (o : CustomFieldMapping)
  : option FieldDefinition :=
  match name_override dest sourceFields o with
  | Some f => Some f
  | None => tag_override dest tag sourceFields o
  end.

(** The first override, in declaration order, that resolves. *)
Fixpoint first_override (dest : FieldDefinition) (tag : string)
    (sourceFields : list FieldDefinition) (overrides : list CustomFieldMapping)
  : option FieldDefinition :=
  match overrides with
  | [] => None
  | o :: rest =>
      match override_target dest tag sourceFields o with
      | Some f => Some f
      | None => first_override dest tag sourceFields rest
      end
  end.

(** Rule 3: equality of the tag values under the mapping's key. *)
Definition tag_rule (dest : FieldDefinition) (tag : string)
    (sourceFields : list FieldDefinition) : option FieldDefinition :=
  let v := tagValue (Tag dest) tag in
  if String.eqb v "" then None else last_tagged tag v sourceFields.

(** Overrides, then the name, then the tag. *)
Definition match_field (dest : FieldDefinition)
    (sourceFields : list FieldDefinition) (overrides : list CustomFieldMapping)
    (tag : string) : option FieldDefinition :=
  match first_override dest tag sourceFields overrides with
  | Some f => Some f
  | None =>
      match last_named (Name dest) sourceFields with
      | Some f => Some f
      | None => tag_rule dest tag sourceFields
      end
  end.

(** [findSourceForDest] as [generateFunction] calls it. *)
Definition matchedSource (dest : FieldDefinition)
    (sourceFields : list FieldDefinition) (overrides : list CustomFieldMapping)
    (tag : string) : option FieldDefinition :=
  let maps := indexSourceFields tag sourceFields in
  findSourceForDest dest maps.1 maps.2 overrides tag sourceFields.

End with_env.

End props.

(** ** Definitions used to state further properties *)

Module props_more.

Import imports generator props.

(** [g'] differs from [g] at most by entries added to the package cache. *)
Definition cache_grown (g g' : Generator) : Prop :=
  importManager g' = importManager g ∧
  typeToFieldsMap g' = typeToFieldsMap g ∧
  conversions g' = conversions g ∧
  config g' = config g ∧
  ∀ k v, packages.packageCache (packageManager g) !! k = Some v →
         packages.packageCache (packageManager g') !! k = Some v.

(** A computation that at most adds entries to the package cache. *)
Definition cache_only {A} (m : M Generator A) : Prop :=
  ∀ g, cache_grown g (m g).2.

Definition cache_only_resolving {A} (m : M Resolving A) : Prop :=
  ∀ s, cache_grown s.1 (m s).2.1.

(** [g'] has the configuration and the conversions of [g]. *)
Definition same_inputs (g g' : Generator) : Prop :=
  config g' = config g ∧ conversions g' = conversions g.

(** Both run the same configuration with the same conversion rules. *)
Definition keeps_inputs {A} (m : M Generator A) : Prop :=
  ∀ g, same_inputs g (m g).2.

(** A call that returns normally or panics: it neither returns an error
    nor fails to return. *)
Definition returns_or_panics {A} (r : Res A) : Prop :=
  match r with
  | Ok _ | Panic _ => True
  | Err _ | Diverge => False
  end.

(** The state of [pkgAliasVisitor]: the list holds each name once, and the
    names of the list are those of the set. *)
Definition seen_ok (st : list string * gset string) : Prop :=
  NoDup st.1 ∧ ∀ x, x ∈ st.1 ↔ x ∈ st.2.

(** The import table of [g'] has every binding of that of [g]. *)
Definition imports_grown (g g' : Generator) : Prop :=
  ∀ k a, imports.imports (importManager g) !! k = Some a →
         imports.imports (importManager g') !! k = Some a.

(** A computation that only adds bindings to the import table. *)
Definition grows_imports {A} (m : M Generator A) : Prop :=
  ∀ g, imports_grown g (m g).2.

(** The two errors [Generate] wraps around a failed field extraction. *)
Definition extraction_error (e : string) : Prop :=
  ∃ rest, e = "failed to extract fields from " ++ rest ∨
          e = "failed to extract fields to " ++ rest.

(** The map [executeTemplate] hands to the template. *)
Definition conversionData (c : Conversion) (sourceVar destVar errorVar : string)
    (im : ImportManager) : gmap string string :=
  <["Error" := errorVar]>
    (<["Dest" := destVar]>
       (<["Source" := sourceVar]> (importData im 0 (Conversion_Imports c) ∅))).

(** The imports of the global conversions, in the order [Generate]
    registers them. *)
Definition conversion_imports (conversions : Conversions) : list string :=
  concat (Conversion_Imports <$> Conversions_Conversions conversions).

Section with_env.
Context `{GoEnv}.

(** The descriptors of the named fields [flds], none of whose types is
    qualified: one per name, in order. *)
Definition plain_fields (flds : list ast.Field) : list FieldDefinition :=
  flds ≫= λ fld,
    (λ name, NewFieldDefinition name (printer_Fprint (ast.Type_ fld))
               (fieldTag fld) []) <$> ast.Names fld.

Definition plain_field (fld : ast.Field) : Prop :=
  ast.Names fld ≠ [] ∧ pkgAliasVisitor (ast.Type_ fld) = [].

(** The line [generateFunction] emits for one destination field. *)
Definition fieldLine (g : Generator) (mapping : Mapping)
    (byName byTag : gmap string FieldDefinition) (tag : string)
    (sourceFields : list FieldDefinition) (destField : FieldDefinition)
  : Res (string * bool) :=
  assignmentLine g
    (findSourceForDest destField byName byTag (CustomFieldMappings mapping) tag
       sourceFields)
    destField (Conversions_Conversions (conversions g))
    (CustomConversions mapping)
    (findAdditionalArg (FuncAdditionalArgs mapping) destField).

(** The lines of all destination fields, up to the first that panics. *)
Fixpoint fieldLines (line : FieldDefinition → Res (string * bool))
    (destFields : list FieldDefinition) : Res (list (string * bool)) :=
  match destFields with
  | [] => Ok []
  | destField :: rest =>
      res_bind (line destField) (λ l,
        res_bind (fieldLines line rest) (λ ls, Ok (l :: ls)))
  end.

End with_env.

End props_more.

(** * Properties *)

Module imports_facts.

Import imports props.

Lemma fmt_d_inj (n m : nat) : fmt.d n = fmt.d m → n = m.
Proof.
  unfold fmt.d. intros E.
  apply (f_equal NilEmpty.uint_of_string) in E.
  rewrite !NilEmpty.usu in E. injection E as E.
  apply (f_equal Nat.of_uint) in E.
  by rewrite !DecimalNat.Unsigned.of_to in E.
Qed.

Lemma append_inj_l (p s t : string) : p ++ s = p ++ t → s = t.
Proof. induction p as [|c p IH]; simpl; [done|]. intros [= E]. auto. Qed.

Lemma alias_inj (n m : nat) : "ref" ++ fmt.d n = "ref" ++ fmt.d m → n = m.
Proof. intros E. by apply fmt_d_inj, (append_inj_l "ref"). Qed.

(** [AddImport] on a path with a separator: what it stores and where. *)
Lemma AddImport_unfold (im : ImportManager) (p : string) :
  strings.Contains p "/" = true →
  AddImport im p =
    if String.eqb (strings.TrimSpace p) "" then im
    else match imports im !! normalized p with
         | Some _ => im
         | None =>
             {| imports := <[normalized p := "ref" ++ fmt.d (aliasCounter im)]>
                             (imports im);
                aliasCounter := S (aliasCounter im) |}
         end.
Proof. intros Hc. unfold AddImport, normalized. by rewrite Hc. Qed.

Lemma AddImport_idem (im : ImportManager) (p : string) :
  AddImport (AddImport im p) p = AddImport im p.
Proof.
  destruct (strings.Contains p "/") eqn:Hc.
  - rewrite !(AddImport_unfold _ p Hc).
    destruct (String.eqb (strings.TrimSpace p) "") eqn:He; [done|].
    destruct (imports im !! normalized p) eqn:Hl.
    + by rewrite Hl.
    + simpl. by rewrite lookup_insert_eq.
  - unfold AddImport. by rewrite Hc.
Qed.

Lemma numbered_new : numbered NewImportManager.
Proof.
  split; [done|]. intros alias. simpl. rewrite map_size_empty. split.
  - intros [path Hp]. by rewrite lookup_empty in Hp.
  - intros (k & Hk & _). lia.
Qed.

Lemma numbered_fresh (im : ImportManager) (path : string) :
  numbered im → imports im !! path ≠ Some ("ref" ++ fmt.d (aliasCounter im)).
Proof.
  intros [Hc Ha] Hp.
  destruct (proj1 (Ha _) (ex_intro _ path Hp)) as (k & Hk & E).
  apply alias_inj in E. lia.
Qed.

Lemma numbered_AddImport (im : ImportManager) (p : string) :
  numbered im → numbered (AddImport im p).
Proof.
  intros Hn. destruct (strings.Contains p "/") eqn:Hc;
    [|unfold AddImport; by rewrite Hc].
  rewrite (AddImport_unfold _ p Hc).
  destruct (String.eqb (strings.TrimSpace p) ""); [done|].
  destruct (imports im !! normalized p) eqn:Hl; [done|].
  destruct Hn as [Hc' Ha]. split; cbn [imports aliasCounter].
  - by rewrite map_size_insert_None, Hc'.
  - intros alias. rewrite map_size_insert_None by done. split.
    + intros [path Hp]. destruct (decide (normalized p = path)) as [<-|Hne].
      * rewrite lookup_insert_eq in Hp. injection Hp as <-.
        exists (S (size (imports im))). split; [lia|]. by rewrite Hc'.
      * rewrite lookup_insert_ne in Hp by done.
        destruct (proj1 (Ha alias) (ex_intro _ path Hp)) as (k & Hk & E).
        exists k. split; [lia|done].
    + intros (k & Hk & ->). destruct (decide (k = S (size (imports im)))) as [->|Hne].
      * exists (normalized p). by rewrite lookup_insert_eq, Hc'.
      * destruct (proj2 (Ha ("ref" ++ fmt.d k))) as [path Hp].
        { exists k. split; [lia|done]. }
        exists path. rewrite lookup_insert_ne; [done|]. intros <-. congruence.
Qed.

Lemma numbered_registered (ps : list string) : numbered (registered ps).
Proof.
  unfold registered. generalize numbered_new.
  generalize NewImportManager as im. induction ps as [|p ps IH]; intros im Hn;
    simpl; [done|]. by apply IH, numbered_AddImport.
Qed.

(** The entries [RenderImports] keeps, whatever order [range] takes. *)
Lemma kept_entries (range_order : RangeOrder) (m : gmap string string)
    (pattern : string) :
  range_ok range_order →
  let es := filter (referenced pattern) (range_order m) in
  NoDup es ∧
  (∀ path alias, (path, alias) ∈ es ↔
     m !! path = Some alias ∧ strings.Contains pattern (alias ++ ".") = true) ∧
  es ≡ₚ filter (referenced pattern) (map_to_list m).
Proof.
  intros Hok es. split; [|split].
  - apply NoDup_filter. rewrite (Hok m). apply NoDup_map_to_list.
  - intros path alias. unfold es. rewrite list_elem_of_filter, (Hok m).
    rewrite elem_of_map_to_list. unfold referenced. simpl. tauto.
  - unfold es. by rewrite (Hok m).
Qed.

Lemma NoDup_fst_filter (P : string * string → Prop) `{∀ e, Decision (P e)}
    (l : list (string * string)) :
  NoDup l.*1 → NoDup (filter P l).*1.
Proof.
  induction l as [|e l IH]; [done|]. rewrite fmap_cons, NoDup_cons.
  intros [Hn Hd]. rewrite filter_cons. destruct (decide (P e)); [|by auto].
  rewrite fmap_cons, NoDup_cons. split; [|by auto].
  intros Hin. apply Hn. apply list_elem_of_fmap in Hin as (e' & -> & Hin).
  apply list_elem_of_filter in Hin as [_ Hin]. apply list_elem_of_fmap. eauto.
Qed.

Lemma kept_paths_once (range_order : RangeOrder) (m : gmap string string)
    (pattern : string) :
  range_ok range_order → NoDup (filter (referenced pattern) (range_order m)).*1.
Proof.
  intros Hok. apply NoDup_fst_filter. rewrite (Hok m).
  apply NoDup_fst_map_to_list.
Qed.

(** A separator survives the trimming of white space and quotes. *)
Lemma Contains_char (s : string) (c : ascii) :
  strings.Contains s (String c "") = true ↔ c ∈ list_ascii_of_string s.
Proof.
  induction s as [|d s IH]; simpl.
  - split; [done|]. by intros ?%elem_of_nil.
  - rewrite elem_of_cons. destruct (Ascii.eqb_spec c d) as [->|Hne].
    + replace (strings.HasPrefix s "") with true by (by destruct s). tauto.
    + rewrite IH. split; [by right|]. by intros [?|?].
Qed.

Lemma TrimLeft_keeps (s cutset : string) (c : ascii) :
  strings.in_cutset cutset c = false →
  c ∈ list_ascii_of_string s →
  c ∈ list_ascii_of_string (strings.TrimLeft s cutset).
Proof.
  intros Hc. induction s as [|d s IH]; simpl; [done|].
  rewrite elem_of_cons. intros [->|Hin].
  - rewrite Hc. simpl. apply elem_of_cons. by left.
  - destruct (strings.in_cutset cutset d); [by auto|].
    simpl. apply elem_of_cons. by right.
Qed.

Lemma TrimRight_keeps (s cutset : string) (c : ascii) :
  strings.in_cutset cutset c = false →
  c ∈ list_ascii_of_string s →
  c ∈ list_ascii_of_string (strings.TrimRight s cutset).
Proof.
  intros Hc. unfold strings.TrimRight.
  induction s as [|d s IH]; simpl; [done|].
  rewrite elem_of_cons. intros Hin.
  destruct (strings.TrimRight_go s cutset) as [r|] eqn:Hr; simpl in *.
  - apply elem_of_cons. destruct Hin as [->|Hin]; [by left|right; auto].
  - destruct Hin as [->|Hin].
    + rewrite Hc. simpl. apply elem_of_cons. by left.
    + apply IH in Hin. by apply elem_of_nil in Hin.
Qed.

Lemma Trim_keeps (s cutset : string) (c : ascii) :
  strings.in_cutset cutset c = false →
  c ∈ list_ascii_of_string s →
  c ∈ list_ascii_of_string (strings.Trim s cutset).
Proof. intros Hc Hin. by apply TrimRight_keeps, TrimLeft_keeps. Qed.

Lemma rev_app_bytes (s t : string) :
  list_ascii_of_string (String.rev_app s t) =
  (rev (list_ascii_of_string s) ++ list_ascii_of_string t)%list.
Proof.
  revert t. induction s as [|c s IH]; intros t; simpl; [done|].
  rewrite IH. simpl. by rewrite <- app_assoc.
Qed.

Lemma elem_of_rev {A} (x : A) (l : list A) : x ∈ rev l ↔ x ∈ l.
Proof. rewrite !list_elem_of_In. symmetry. apply in_rev. Qed.

Lemma rev_bytes (s : string) :
  list_ascii_of_string (String.rev s) = rev (list_ascii_of_string s).
Proof. unfold String.rev. rewrite rev_app_bytes. simpl. by rewrite app_nil_r. Qed.

Lemma length_bytes (s : string) :
  List.length (list_ascii_of_string s) = String.length s.
Proof. induction s as [|c s IH]; simpl; [done|]. by rewrite IH. Qed.

Lemma CutPrefix_bytes (s t rest : string) :
  strings.CutPrefix s t = Some rest →
  list_ascii_of_string s = (list_ascii_of_string t ++ list_ascii_of_string rest)%list.
Proof.
  revert s. induction t as [|c t IH]; intros s; simpl.
  - by intros [= ->].
  - destruct s as [|d s]; [done|]. destruct (Ascii.eqb_spec c d) as [->|]; [|done].
    intros E. simpl. by rewrite (IH _ E).
Qed.

Lemma cut_rune_bytes (runes : list string) (s rest : string) :
  strings.cut_rune runes s = Some rest →
  ∃ t, t ∈ runes ∧
       list_ascii_of_string s = (list_ascii_of_string t ++ list_ascii_of_string rest)%list.
Proof.
  unfold strings.cut_rune. induction runes as [|t runes IH]; simpl; [done|].
  destruct (strings.CutPrefix s t) as [r|] eqn:E; simpl.
  - intros [= <-]. exists t. split; [by left|]. by apply CutPrefix_bytes.
  - intros (u & Hu & Eu)%IH. exists u. split; [by right|done].
Qed.

Lemma trim_runes_keeps (runes : list string) (fuel : nat) (s : string) (c : ascii) :
  Forall (λ t, c ∉ list_ascii_of_string t) runes →
  c ∈ list_ascii_of_string s →
  c ∈ list_ascii_of_string (strings.trim_runes runes fuel s).
Proof.
  intros Hr. revert s. induction fuel as [|fuel IH]; intros s Hin; simpl; [done|].
  destruct (strings.cut_rune runes s) as [rest|] eqn:E; [|done].
  apply cut_rune_bytes in E as (t & Ht & E). apply IH.
  rewrite E in Hin. apply elem_of_app in Hin as [Hin|Hin]; [|done].
  rewrite Forall_forall in Hr. by destruct (Hr t Ht).
Qed.

(** The cutting stops for want of white space, never for want of fuel. *)
Lemma trim_runes_done (runes : list string) (fuel : nat) (s : string) :
  Forall (λ t, t ≠ "") runes →
  (String.length s ≤ fuel)%nat →
  strings.cut_rune runes (strings.trim_runes runes fuel s) = None.
Proof.
  intros Hr. revert s. induction fuel as [|fuel IH]; intros s Hlen; simpl.
  - destruct s; [|simpl in Hlen; lia]. unfold strings.cut_rune.
    induction runes as [|t runes IHr]; [done|].
    apply Forall_cons in Hr as [Ht Hr]. simpl.
    destruct t; [done|]. simpl. by apply IHr.
  - destruct (strings.cut_rune runes s) as [rest|] eqn:E; [|done].
    apply IH. apply cut_rune_bytes in E as (t & Ht & E).
    apply (f_equal List.length) in E. rewrite length_app in E.
    rewrite Forall_forall in Hr. specialize (Hr t Ht).
    rewrite !length_bytes in E. destruct t; [done|]. simpl in *. lia.
Qed.

Lemma TrimSpace_keeps (s : string) (c : ascii) :
  Forall (λ t, c ∉ list_ascii_of_string t) strings.space_runes →
  c ∈ list_ascii_of_string s →
  c ∈ list_ascii_of_string (strings.TrimSpace s).
Proof.
  intros Hr Hin. unfold strings.TrimSpace, strings.TrimRightSpace, strings.TrimLeftSpace.
  rewrite rev_bytes. apply elem_of_rev. apply trim_runes_keeps.
  - apply Forall_fmap. eapply Forall_impl; [exact Hr|].
    intros t Ht. simpl. rewrite rev_bytes. by rewrite elem_of_rev.
  - rewrite rev_bytes. apply elem_of_rev. by apply trim_runes_keeps.
Qed.

Lemma separator_no_space :
  Forall (λ t, "/"%char ∉ list_ascii_of_string t) strings.space_runes.
Proof. apply Forall_forall. intros t Ht. revert t Ht. apply Forall_forall. compute_done. Qed.

Lemma TrimSpace_separator (p : string) :
  strings.Contains p "/" = true → String.eqb (strings.TrimSpace p) "" = false.
Proof.
  intros Hc%Contains_char.
  apply (TrimSpace_keeps _ _ separator_no_space) in Hc.
  destruct (strings.TrimSpace p); [by apply elem_of_nil in Hc|done].
Qed.

Lemma normalized_separator (p : string) :
  strings.Contains p "/" = true → strings.Contains (normalized p) "/" = true.
Proof.
  intros Hc%Contains_char. apply Contains_char. unfold normalized.
  apply Trim_keeps; [done|]. by apply TrimSpace_keeps; [apply separator_no_space|].
Qed.

(** Nothing that [strings.TrimSpace] returns starts with white space. *)
Lemma TrimSpace_no_leading_space (s : string) :
  strings.cut_rune strings.space_runes (strings.TrimLeftSpace s) = None.
Proof.
  apply trim_runes_done; [|done].
  apply Forall_forall. intros t Ht. revert t Ht. apply Forall_forall. compute_done.
Qed.

(** White space of more than one byte is cut like a blank, bytes that
    encode no code point are kept, and a path spelled with a no-break
    space in front is the path already registered. *)
Lemma TrimSpace_unicode :
  strings.TrimSpace (strings.rune [194; 160] ++ " m/f" ++
                     strings.rune [226; 128; 168] ++ tab) = "m/f" ∧
  strings.TrimSpace (strings.rune [160] ++ "m/f" ++ strings.rune [226; 128]) =
    strings.rune [160] ++ "m/f" ++ strings.rune [226; 128] ∧
  normalized (strings.rune [194; 160] ++ "m/f") = normalized "m/f" ∧
  registered ["m/f"; strings.rune [194; 160] ++ "m/f"] = registered ["m/f"].
Proof. by vm_compute. Qed.

(** The text of an alias holds no space, so a line is cut at its first
    space into the alias and the quoted path. *)
Lemma fmt_d_no_space (n : nat) : " "%char ∉ list_ascii_of_string (fmt.d n).
Proof.
  unfold fmt.d. generalize (Nat.to_uint n) as u.
  induction u; simpl; [by intros ?%elem_of_nil|..];
    (intros [E|Hin]%elem_of_cons; [discriminate|auto]).
Qed.

Lemma cut_at_space (a1 a2 r1 r2 : string) :
  " "%char ∉ list_ascii_of_string a1 →
  " "%char ∉ list_ascii_of_string a2 →
  a1 ++ String " " r1 = a2 ++ String " " r2 → a1 = a2 ∧ r1 = r2.
Proof.
  revert a2. induction a1 as [|c a1 IH]; intros [|d a2]; simpl.
  - by intros _ _ [= ->].
  - intros _ Hd [= <- _]. destruct Hd. by left.
  - intros Hc _ [= -> _]. destruct Hc. by left.
  - intros Hc Hd [= -> E].
    destruct (IH a2) as [-> ->]; [| |done|done].
    + intros Hin. apply Hc. by right.
    + intros Hin. apply Hd. by right.
Qed.

Lemma append_char_inj (s t : string) (c : ascii) :
  s ++ String c "" = t ++ String c "" → s = t.
Proof.
  revert t. induction s as [|a s IH]; intros [|b t]; simpl; [done| | |].
  - intros [= _ E]. by destruct t.
  - intros [= _ E]. by destruct s.
  - intros [= -> E]. by rewrite (IH _ E).
Qed.

Lemma import_line_inj (k1 k2 : nat) (p1 p2 : string) :
  tab ++ ("ref" ++ fmt.d k1) ++ " " ++ dquote ++ p1 ++ dquote =
  tab ++ ("ref" ++ fmt.d k2) ++ " " ++ dquote ++ p2 ++ dquote →
  k1 = k2 ∧ p1 = p2.
Proof.
  intros [= E].
  apply (cut_at_space (fmt.d k1) (fmt.d k2)) in E as [Ek Ep];
    [|apply fmt_d_no_space..].
  split; [by apply fmt_d_inj|]. injection Ep as Ep.
  by apply (append_char_inj _ _ (ascii_of_nat 34)).
Qed.

(** C7 — Import rendering and registration. For the manager reached by
    registering the paths [ps], whatever order the [range] over the table
    takes: the block holds exactly one line for each registered path whose
    alias followed by a dot occurs in the text and none for any other (each
    path at most once, no line twice, and as many lines as there are such
    paths); a line is a tab, the alias, a space and the path in double
    quotes; the block is empty when nothing is registered; registering a
    path twice is registering it once; a path without a separator changes
    nothing; a path with one is stored under its trimmed form, unchanged if
    already present and otherwise bound to the next alias [ref(n+1)], which
    no path has yet; and the aliases in use are exactly [ref1 .. refn]. *)
Theorem import_rendering_and_registration (ps : list string)
    (range_order : RangeOrder) (pattern p : string) :
  range_ok range_order →
  let im := registered ps in
  let n := size (imports im) in
  (∃ es : list (string * string),
     let lines :=
       (λ e : string * string, tab ++ e.2 ++ " " ++ dquote ++ e.1 ++ dquote) <$> es in
     NoDup es.*1 ∧
     (∀ path alias, (path, alias) ∈ es ↔
        imports im !! path = Some alias ∧
        strings.Contains pattern (alias ++ ".") = true) ∧
     NoDup lines ∧
     List.length lines =
       List.length (filter (referenced pattern) (map_to_list (imports im))) ∧
     RenderImports range_order im pattern =
       if decide (n = 0) then ""
       else "import (" ++ nl ++ strings.Join lines nl ++ nl ++ ")") ∧
  AddImport (AddImport im p) p = AddImport im p ∧
  (strings.Contains p "/" = false → AddImport im p = im) ∧
  (strings.Contains p "/" = true →
   match imports im !! normalized p with
   | Some _ => AddImport im p = im
   | None =>
       AddImport im p =
         {| imports := <[normalized p := "ref" ++ fmt.d (S n)]> (imports im);
            aliasCounter := S (S n) |} ∧
       ∀ path, imports im !! path ≠ Some ("ref" ++ fmt.d (S n))
   end) ∧
  (∀ alias, (∃ path, imports im !! path = Some alias) ↔
            (∃ k : nat, (1 ≤ k ≤ n)%nat ∧ alias = "ref" ++ fmt.d k)).
Proof.
  intros Hok im n.
  pose proof (numbered_registered ps) as Hn. fold im in Hn.
  split; [|split; [|split; [|split]]].
  - exists (filter (referenced pattern) (range_order (imports im))).
    destruct (kept_entries range_order (imports im) pattern Hok) as (Hnd & Hin & Hp).
    cbn zeta. split; [by apply kept_paths_once|]. split; [done|]. split; [|split].
    + apply NoDup_fmap_2_strong; [|done].
      intros [p1 a1] [p2 a2] [H1 _]%Hin [H2 _]%Hin. cbn [fst snd]. intros E.
      destruct (proj1 (proj2 Hn a1) (ex_intro _ p1 H1)) as (k1 & _ & ->).
      destruct (proj1 (proj2 Hn a2) (ex_intro _ p2 H2)) as (k2 & _ & ->).
      by apply import_line_inj in E as [-> ->].
    + by rewrite length_fmap, Hp.
    + unfold RenderImports, importLines, importLine. fold n.
      by destruct (decide (n = 0)).
  - apply AddImport_idem.
  - intros Hc. unfold AddImport. by rewrite Hc.
  - intros Hc. rewrite (AddImport_unfold _ _ Hc), (TrimSpace_separator _ Hc).
    destruct (imports im !! normalized p) eqn:Hl; [done|].
    destruct Hn as [Hcnt Ha]. fold n in Hcnt. rewrite Hcnt. split; [done|].
    intros path. rewrite <- Hcnt. apply numbered_fresh. by split.
  - apply Hn.
Qed.

(** Registering ten paths and mentioning three of them gives three import
    lines, in whatever order the table is ranged over. *)
Lemma ten_registered_three_referenced (range_order : RangeOrder) :
  range_ok range_order →
  List.length (importLines (range_order (imports (registered ten_paths))) three_used)
  = 3.
Proof.
  intros Hok. unfold importLines.
  destruct (kept_entries range_order (imports (registered ten_paths)) three_used Hok)
    as (_ & _ & Hp).
  rewrite length_fmap, Hp. by vm_compute.
Qed.

Lemma import_rendering_and_registration_witness :
  range_ok map_to_list ∧
  let im := registered ten_paths in
  let p := strings.rune [194; 160] ++ dquote ++ "m/k" ++ dquote ++ " " in
  AddImport (AddImport im p) p = AddImport im p ∧
  imports (AddImport im p) !! "m/k" = Some "ref11" ∧
  ∃ es : list (string * string),
    let lines :=
      (λ e : string * string, tab ++ e.2 ++ " " ++ dquote ++ e.1 ++ dquote) <$> es in
    NoDup es.*1 ∧ NoDup lines ∧ List.length lines = 3 ∧
    RenderImports map_to_list im three_used =
      "import (" ++ nl ++ strings.Join lines nl ++ nl ++ ")".
Proof.
  assert (Hok : range_ok map_to_list) by (intros m; reflexivity).
  split; [exact Hok|]. intros im p.
  destruct (import_rendering_and_registration ten_paths map_to_list three_used
              p Hok) as ((es & Hnd & _ & Hlines & Hlen & Hr) & Hidem & _ & Hstore & _).
  split; [exact Hidem|]. split.
  - assert (Hc : strings.Contains p "/" = true) by (vm_compute; reflexivity).
    assert (Hl : imports (registered ten_paths) !! normalized p = None)
      by (vm_compute; reflexivity).
    specialize (Hstore Hc). rewrite Hl in Hstore. destruct Hstore as [E _].
    unfold im. rewrite E. cbn [imports].
    change (normalized p) with "m/k". rewrite lookup_insert_eq.
    vm_compute. reflexivity.
  - exists es. split; [exact Hnd|]. split; [exact Hlines|].
    split; [rewrite Hlen; vm_compute; reflexivity|exact Hr].
Defined.

End imports_facts.

Module tag_facts.

Import generator props.

Lemma Split_head (v : string) :
  strings.Split v "," = before_first_comma v :: tail (strings.Split v ",").
Proof.
  induction v as [|c v IH]; [done|]. simpl.
  destruct (Ascii.eqb c ","); [done|]. by rewrite IH.
Qed.

Lemma before_first_comma_prefix (v : string) :
  ∃ rest, v = before_first_comma v ++ rest ∧
          (rest = "" ∨ ∃ options, rest = String "," options).
Proof.
  induction v as [|c v (rest & E & Hrest)]; simpl.
  - exists "". auto.
  - destruct (Ascii.eqb_spec c ",") as [->|Hne].
    + exists (String "," v). eauto.
    + exists rest. split; [|done].
      change (String c v = String c (before_first_comma v ++ rest)). by f_equal.
Qed.

Lemma before_first_comma_no_comma (v : string) :
  strings.Contains (before_first_comma v) "," = false.
Proof.
  induction v as [|c v IH]; [done|]. cbn [before_first_comma].
  destruct (Ascii.eqb c ",") eqn:Hc; [done|].
  cbn [strings.Contains strings.HasPrefix].
  rewrite Ascii.eqb_sym, Hc. exact IH.
Qed.

(** C10 — The tag value used for matching. For every annotation and key,
    [tagValue] is the portion of the key's value before its first comma
    (the value is that portion followed by nothing or by a comma and the
    options, and the portion holds no comma), except that an empty
    annotation and a portion equal to [-] give the empty value, which never
    matches. *)
Theorem tagValue_before_first_comma `{GoEnv} (tag key : string) :
  let v := StructTag_Get tag key in
  let part := before_first_comma v in
  tagValue tag key =
    (if String.eqb tag "" then ""
     else if String.eqb part "-" then "" else part) ∧
  (∃ rest, v = part ++ rest ∧ (rest = "" ∨ ∃ options, rest = String "," options)) ∧
  strings.Contains part "," = false.
Proof.
  intros v part. split; [|split].
  - unfold tagValue. destruct (String.eqb tag ""); [done|]. fold v.
    rewrite Split_head. fold part. simpl.
    destruct (String.eqb_spec v "") as [E|_]; [|done].
    unfold part. rewrite E. done.
  - apply before_first_comma_prefix.
  - apply before_first_comma_no_comma.
Qed.

End tag_facts.

Module tag_examples.

Import generator example.

(** With the conventional tag syntax: [json:"id,omitempty"] matches on [id],
    [json:"-,omitempty"] and [json:"-"] on nothing, and a key that is absent
    on nothing. *)
Lemma tagValue_examples :
  tagValue (json "id,omitempty") "json" = "id" ∧
  tagValue (json "-,omitempty") "json" = "" ∧
  tagValue (json "-") "json" = "" ∧
  tagValue (json "id") "structmap" = "" ∧
  tagValue "" "json" = "".
Proof. repeat split; by vm_compute. Qed.

(** Default tag matching and a tag-based override both compare these
    values: the options after the comma play no part, and of two source
    fields with the value the later one is taken by default matching. *)
Lemma tag_matching_examples :
  let dest := a_field "Ident" "string" (json "id,omitempty") in
  let early := a_field "A" "string" (json "id") in
  let late := a_field "B" "string" (json "id,string") in
  let other := a_field "C" "string" (json "-") in
  props.matchedSource dest [early; late; other] [] "json" = Some late ∧
  props.matchedSource dest [early; late; other]
    [{| SourceField := ""; DestField := ""; SourceTag := "id"; DestTag := "id";
        CustomFieldMapping_Tag := "json" |}] "json" = Some early ∧
  props.matchedSource (a_field "D" "string" (json "-")) [early; late; other] []
    "json" = None.
Proof. repeat split; by vm_compute. Qed.

End tag_examples.

Module assembler_facts.

Import generator props.

Section with_env.
Context `{GoEnv}.

(** C8 — The unmapped destination field. When the matcher finds no source
    for a destination field and no additional argument is bound to it, the
    line for the field is the comment naming it, the line is not fallible,
    and the loop over the destination fields goes on with the remaining
    fields: its outcome is that of the remaining fields with the comment
    added to the lines and the error flag as it was. *)
Theorem unmapped_field_comment (g : Generator) (mapping : Mapping)
    (byName byTag : gmap string FieldDefinition) (tag : string)
    (sourceFields : list FieldDefinition) (destField : FieldDefinition)
    (rest : list FieldDefinition) (assigns : list string) (hasError : bool) :
  findSourceForDest destField byName byTag (CustomFieldMappings mapping) tag
    sourceFields = None →
  findAdditionalArg (FuncAdditionalArgs mapping) destField = None →
  assignmentLine g None destField (Conversions_Conversions (conversions g))
    (CustomConversions mapping) None = Ok (unmapped_comment destField, false) ∧
  assignsLoop g mapping byName byTag tag sourceFields (destField :: rest)
    assigns hasError =
  assignsLoop g mapping byName byTag tag sourceFields rest
    (assigns ++ [unmapped_comment destField]) hasError.
Proof.
  intros Hsrc Harg. split; [done|].
  cbn [assignsLoop]. rewrite Hsrc, Harg. done.
Qed.

End with_env.

Import example.

Lemma unmapped_field_comment_witness :
  let g := NewGenerator example.user_config example.no_conversions in
  let mapping := example.plain_mapping (example.import0 "User" "example.com/models1")
                   (example.import0 "UserDTO" "example.com/models2") in
  let dest := {| Name := "LastName"; Tag := example.json "last_name";
                 FieldDefinition_Template := NewTypeWithImportsTemplate "string" [] |} in
  assignsLoop g mapping ∅ ∅ "json" [] [dest] [] false =
    Ok (["// no matching source found for field: LastName, consider adding an additional arg or aligning the fields"], false).
Proof.
  intros g mapping dest.
  destruct (unmapped_field_comment g mapping ∅ ∅ "json" [] dest [] [] false)
    as [_ Hloop]; [reflexivity|reflexivity|].
  rewrite Hloop. reflexivity.
Defined.

End assembler_facts.

Module conversion_facts.

Import generator props.

Section with_env.
Context `{GoEnv}.

Lemma Equals_rendered (t u : TypeWithImportsTemplate) (im : imports.ImportManager)
    (a b : string) :
  ExecuteTemplate t im = Ok a → ExecuteTemplate u im = Ok b →
  Equals t u im = Ok (String.eqb a b).
Proof. intros Ht Hu. unfold Equals. by rewrite Ht, Hu. Qed.

(** The two loops of [findConversion] are one loop over the local rules
    followed by the global ones. *)
Lemma findConversion_app (g : Generator) (s d : TypeWithImportsTemplate)
    (convs customs : list Conversion) :
  findConversion g s d convs customs = findConversion_loop g (customs ++ convs) s d.
Proof.
  unfold findConversion. induction customs as [|c customs IH]; simpl.
  - by destruct (findConversion_loop g convs s d) as [[?|]| | |].
  - destruct (equalsFunc g c s d) as [[|]| | |]; simpl; try done.
    destruct (reverseEqualsFunc g c s d) as [[|]| | |]; simpl; try done.
Qed.

Section rendered.
Variables (g : Generator) (rt : TypeWithImportsTemplate → string).
Variables (s d : TypeWithImportsTemplate).

Lemma rule_templates_cons (rule : Conversion) (rules : list Conversion)
    (t : TypeWithImportsTemplate) :
  t ∈ rule_templates s d rules → t ∈ rule_templates s d (rule :: rules).
Proof.
  unfold rule_templates. rewrite !elem_of_cons. simpl. rewrite !elem_of_cons.
  tauto.
Qed.

Lemma equalsFunc_rendered (rule : Conversion) (rules : list Conversion) :
  (∀ t, t ∈ rule_templates s d (rule :: rules) →
        ExecuteTemplate t (importManager g) = Ok (rt t)) →
  equalsFunc g rule s d = Ok (forward_match rt s d rule) ∧
  reverseEqualsFunc g rule s d = Ok (reverse_match rt s d rule).
Proof.
  intros Hr.
  assert (Hs : ExecuteTemplate s (importManager g) = Ok (rt s)).
  { apply Hr. unfold rule_templates. set_solver. }
  assert (Hd : ExecuteTemplate d (importManager g) = Ok (rt d)).
  { apply Hr. unfold rule_templates. set_solver. }
  assert (Hrs : ExecuteTemplate (GetSourceTypeWithImportsTemplate rule)
                  (importManager g) = Ok (rt (GetSourceTypeWithImportsTemplate rule))).
  { apply Hr. unfold rule_templates. simpl. set_solver. }
  assert (Hrd : ExecuteTemplate (GetDestTypeWithImportsTemplate rule)
                  (importManager g) = Ok (rt (GetDestTypeWithImportsTemplate rule))).
  { apply Hr. unfold rule_templates. simpl. set_solver. }
  unfold equalsFunc, reverseEqualsFunc, forward_match, reverse_match.
  rewrite (Equals_rendered _ _ _ _ _ Hrs Hs), (Equals_rendered _ _ _ _ _ Hrd Hd),
    (Equals_rendered _ _ _ _ _ Hrd Hs), (Equals_rendered _ _ _ _ _ Hrs Hd).
  simpl. split.
  - by destruct (String.eqb _ _).
  - destruct (String.eqb (rt (GetDestTypeWithImportsTemplate rule)) (rt s)); [|done].
    simpl. by destruct (String.eqb _ _).
Qed.

Lemma findConversion_loop_rendered (rules : list Conversion) :
  (∀ t, t ∈ rule_templates s d rules →
        ExecuteTemplate t (importManager g) = Ok (rt t)) →
  findConversion_loop g rules s d = Ok (first_rule rt s d rules).
Proof.
  induction rules as [|rule rules IH]; intros Hr; [done|].
  destruct (equalsFunc_rendered rule rules Hr) as [Hf Hv].
  cbn [findConversion_loop]. rewrite Hf. cbn [res_bind].
  unfold first_rule. cbn [List.find].
  destruct (forward_match rt s d rule) eqn:Ef; cbn [orb negb].
  - by rewrite Ef.
  - rewrite Hv. cbn [res_bind]. destruct (reverse_match rt s d rule) eqn:Ev.
    + by rewrite Ef.
    + apply IH. intros t Ht. by apply Hr, rule_templates_cons.
Qed.

(** What [first_rule] returns is the first rule of the list that matches,
    forward if it can and in reverse otherwise. *)
Lemma first_rule_first (rules : list Conversion) (rule : Conversion)
    (isReverse : bool) :
  first_rule rt s d rules = Some (rule, isReverse) →
  ∃ before after,
    rules = (before ++ rule :: after)%list ∧
    (∀ r, r ∈ before → forward_match rt s d r = false ∧
                       reverse_match rt s d r = false) ∧
    isReverse = negb (forward_match rt s d rule) ∧
    (isReverse = true → reverse_match rt s d rule = true).
Proof.
  unfold first_rule. induction rules as [|r rules IH]; simpl; [done|].
  destruct (forward_match rt s d r || reverse_match rt s d r) eqn:Em.
  - intros [= <- <-]. exists [], rules. split; [done|]. split.
    + by intros ? ?%elem_of_nil.
    + split; [done|]. by destruct (forward_match rt s d r).
  - intros Hf. destruct (IH Hf) as (before & after & -> & Hb & Hrev).
    exists (r :: before), after. split; [done|]. split; [|done].
    intros r' [->|Hin]%elem_of_cons; [|by auto].
    by apply orb_false_iff in Em.
Qed.

Lemma first_rule_app_l (local global : list Conversion)
    (found : Conversion * bool) :
  first_rule rt s d local = Some found →
  first_rule rt s d (local ++ global) = Some found.
Proof.
  unfold first_rule. induction local as [|r local IH]; simpl; [done|].
  by destruct (forward_match rt s d r || reverse_match rt s d r).
Qed.

End rendered.

(** C5 — Conversion resolution. The resolver is one search through the
    mapping-local rules followed by the global rules, in declaration order.
    When the type templates involved render, its answer is the first rule
    of that list whose types render as the requested pair, or as the pair
    swapped if the rule has a reverse template, the forward test being made
    first: no rule before it matches either way. So a matching local rule is
    returned whatever the global rules are, and when no rule matches the
    field is assigned by a direct copy, which is not fallible. *)
Theorem conversion_resolution_order (g : Generator)
    (rt : TypeWithImportsTemplate → string) (source dest : FieldDefinition)
    (convs customs : list Conversion) :
  let s := FieldDefinition_Template source in
  let d := FieldDefinition_Template dest in
  (∀ t, t ∈ rule_templates s d (customs ++ convs) →
        ExecuteTemplate t (importManager g) = Ok (rt t)) →
  findConversion g s d convs customs = Ok (first_rule rt s d (customs ++ convs)) ∧
  (∀ rule isReverse,
     first_rule rt s d (customs ++ convs) = Some (rule, isReverse) →
     ∃ before after,
       (customs ++ convs)%list = (before ++ rule :: after)%list ∧
       (∀ r, r ∈ before → forward_match rt s d r = false ∧
                          reverse_match rt s d r = false) ∧
       isReverse = negb (forward_match rt s d rule) ∧
       (isReverse = true → reverse_match rt s d rule = true)) ∧
  (∀ found, first_rule rt s d customs = Some found →
            findConversion g s d convs customs = Ok (Some found)) ∧
  (first_rule rt s d (customs ++ convs) = None →
   assignmentLine g (Some source) dest convs customs None =
     Ok ("dst." ++ Name dest ++ " = " ++ "src." ++ Name source, false)).
Proof.
  intros s d Hr.
  assert (Hfind : findConversion g s d convs customs
                  = Ok (first_rule rt s d (customs ++ convs))).
  { rewrite findConversion_app. by apply findConversion_loop_rendered. }
  split; [done|]. split; [|split].
  - intros rule isReverse. apply first_rule_first.
  - intros found Hl. rewrite Hfind. f_equal. by apply first_rule_app_l.
  - intros Hnone. unfold assignmentLine. fold s d. rewrite Hfind, Hnone. done.
Qed.

(** C6 — A rule without a reverse template, in the reverse direction. Its
    reverse rendering is the bare assignment and runs no template. When the
    source field renders as the rule's destination type and the destination
    field as its source type, the rule does not match forward, and no other
    rule of the lists matches, the line for the field is the bare
    assignment [dst.X = src.Y], returned without a panic and not fallible. *)
Theorem reverse_without_template_bare_assignment (g : Generator)
    (conv : Conversion) (source dest : FieldDefinition)
    (convs customs : list Conversion) (sourceVar destVar errorVar : string) :
  let s := FieldDefinition_Template source in
  let d := FieldDefinition_Template dest in
  Tmpl (ReverseConversion conv) = "" →
  Equals (GetDestTypeWithImportsTemplate conv) s (importManager g) = Ok true →
  Equals (GetSourceTypeWithImportsTemplate conv) d (importManager g) = Ok true →
  equalsFunc g conv s d = Ok false →
  (∀ r, r ∈ (customs ++ convs)%list → r = conv ∨
        (equalsFunc g r s d = Ok false ∧ reverseEqualsFunc g r s d = Ok false)) →
  ExecuteReverseConversionTemplate conv sourceVar destVar errorVar (importManager g)
    = Ok (destVar ++ " = " ++ sourceVar, false) ∧
  reverseEqualsFunc g conv s d = Ok false ∧
  findConversion g s d convs customs = Ok None ∧
  assignmentLine g (Some source) dest convs customs None =
    Ok ("dst." ++ Name dest ++ " = " ++ "src." ++ Name source, false).
Proof.
  intros s d Htmpl Hds Hsd Hfwd Hothers.
  assert (Hrev : reverseEqualsFunc g conv s d = Ok false).
  { unfold reverseEqualsFunc. rewrite Hds. simpl. rewrite Hsd. simpl.
    by rewrite Htmpl. }
  assert (Hnone : findConversion g s d convs customs = Ok None).
  { rewrite findConversion_app. induction (customs ++ convs)%list as [|r rules IH];
      [done|]. cbn [findConversion_loop].
    assert (equalsFunc g r s d = Ok false ∧ reverseEqualsFunc g r s d = Ok false)
      as [-> ->].
    { destruct (Hothers r) as [->|?]; [set_solver|by split|done]. }
    simpl. apply IH. intros r' Hin. apply Hothers. set_solver. }
  split; [|split; [done|split; [done|]]].
  - unfold ExecuteReverseConversionTemplate. by rewrite Htmpl.
  - unfold assignmentLine. fold s d. by rewrite Hnone.
Qed.

End with_env.

Import example.

(** A local and a global rule for the same pair: the local one is used. *)
Lemma conversion_resolution_order_witness :
  findConversion g0 (basic "int") (basic "*int") [int_to_ptr] [int_to_ptr_local]
    = Ok (Some (int_to_ptr_local, false)) ∧
  assignmentLine g0 (Some (a_field "Count" "int" "")) (a_field "Count" "*int" "")
    [int_to_ptr] [int_to_ptr_local] None
    = Ok ("dst.Count = ptr(src.Count)", false).
Proof.
  destruct (conversion_resolution_order g0 (rendered_text g0)
              (a_field "Count" "int" "") (a_field "Count" "*int" "")
              [int_to_ptr] [int_to_ptr_local]) as (Hfind & _ & _ & _).
  { intros t Ht. unfold rule_templates in Ht. simpl in Ht.
    repeat (apply elem_of_cons in Ht as [->|Ht]; [reflexivity|]).
    by apply elem_of_nil in Ht. }
  split; [etrans; [exact Hfind|reflexivity]|].
  unfold assignmentLine. rewrite Hfind. reflexivity.
Defined.

(** [int → *int] has no reverse template: from [*int] to [int] the line is
    the bare assignment. *)
Lemma reverse_without_template_bare_assignment_witness :
  assignmentLine g0 (Some (a_field "Y" "*int" "")) (a_field "X" "int" "")
    [int_to_ptr] [] None = Ok ("dst.X = src.Y", false).
Proof.
  assert (Hothers : ∀ r, r ∈ ([] ++ [int_to_ptr])%list → r = int_to_ptr ∨
            (equalsFunc g0 r (basic "*int") (basic "int") = Ok false ∧
             reverseEqualsFunc g0 r (basic "*int") (basic "int") = Ok false)).
  { intros r Hin. left. apply elem_of_cons in Hin as [->|Hin]; [reflexivity|].
    by apply elem_of_nil in Hin. }
  exact (proj2 (proj2 (proj2
    (reverse_without_template_bare_assignment g0 int_to_ptr
       (a_field "Y" "*int" "") (a_field "X" "int" "") [int_to_ptr] []
       "src.Y" "dst.X" "err" eq_refl eq_refl eq_refl eq_refl Hothers)))).
Defined.

(** The scenario of the specification: [{Count int}] to [{Count *int}] with
    the rule [int → *int] gives [dst.Count = &src.Count]. *)
Lemma count_scenario :
  assignmentLine g0 (Some (a_field "Count" "int" "")) (a_field "Count" "*int" "")
    [int_to_ptr] [] None = Ok ("dst.Count = &src.Count", false).
Proof. reflexivity. Qed.

End conversion_facts.

Module matcher_facts.

Import generator props.

Section with_env.
Context `{GoEnv}.

(** The lookup maps hold, for each key, the last source field with it. *)
Lemma indexSourceFields_snoc (tag : string) (l : list FieldDefinition)
    (x : FieldDefinition) :
  indexSourceFields tag (l ++ [x]) =
    let maps := indexSourceFields tag l in
    let tv := tagValue (Tag x) tag in
    (<[Name x := x]> maps.1,
     if negb (String.eqb tv "") then <[tv := x]> maps.2 else maps.2).
Proof.
  unfold indexSourceFields. rewrite foldl_app. simpl.
  by destruct (negb (String.eqb (tagValue (Tag x) tag) "")).
Qed.

Lemma byName_last (tag : string) (sourceFields : list FieldDefinition)
    (name : string) :
  (indexSourceFields tag sourceFields).1 !! name = last_named name sourceFields.
Proof.
  unfold last_named.
  induction sourceFields as [|x l IH] using rev_ind; [done|].
  rewrite indexSourceFields_snoc, rev_unit. cbn [fst List.find].
  destruct (String.eqb_spec (Name x) name) as [<-|Hne].
  - by rewrite lookup_insert_eq.
  - by rewrite lookup_insert_ne.
Qed.

Lemma byTag_last (tag : string) (sourceFields : list FieldDefinition)
    (v : string) :
  v ≠ "" →
  (indexSourceFields tag sourceFields).2 !! v = last_tagged tag v sourceFields.
Proof.
  intros Hv. unfold last_tagged.
  induction sourceFields as [|x l IH] using rev_ind; [done|].
  rewrite indexSourceFields_snoc, rev_unit. cbn [snd List.find].
  destruct (String.eqb_spec (tagValue (Tag x) tag) v) as [E|Hne].
  - rewrite E. destruct (String.eqb_spec v "") as [?|_]; [done|].
    simpl. by rewrite lookup_insert_eq.
  - destruct (negb (String.eqb (tagValue (Tag x) tag) "")); [|done].
    by rewrite lookup_insert_ne.
Qed.

Lemma customFieldMappingStep_spec (dest : FieldDefinition) (tag : string)
    (sourceFields : list FieldDefinition) (o : CustomFieldMapping) :
  customFieldMappingStep dest (indexSourceFields tag sourceFields).1 tag
    sourceFields o = override_target dest tag sourceFields o.
Proof.
  unfold customFieldMappingStep, override_target, name_override, tag_override.
  rewrite byName_last.
  destruct (negb (String.eqb (DestField o) "") &&
            String.eqb (DestField o) (Name dest) &&
            negb (String.eqb (SourceField o) ""));
    [destruct (last_named (SourceField o) sourceFields); [done|]|].
  all: unfold findByTag, first_tagged;
    set (key := if String.eqb (CustomFieldMapping_Tag o) "" then tag
                else CustomFieldMapping_Tag o);
    destruct (String.eqb_spec (DestTag o) "") as [E0|Hne0]; [done|];
    cbn [negb andb];
    destruct (String.eqb_spec (tagValue (Tag dest) key) (DestTag o)) as [E|Hne];
    [rewrite E; destruct (String.eqb_spec (DestTag o) "") as [?|_]; [done|];
     cbn [negb andb]; by destruct (String.eqb (SourceTag o) "")
    |by rewrite andb_false_r].
Qed.

Lemma customFieldMappingsLoop_spec (dest : FieldDefinition) (tag : string)
    (sourceFields : list FieldDefinition) (overrides : list CustomFieldMapping) :
  customFieldMappingsLoop dest (indexSourceFields tag sourceFields).1 tag
    sourceFields overrides = first_override dest tag sourceFields overrides.
Proof.
  induction overrides as [|o overrides IH]; [done|].
  cbn [customFieldMappingsLoop first_override].
  by rewrite customFieldMappingStep_spec, IH.
Qed.

Lemma matchedSource_spec (dest : FieldDefinition)
    (sourceFields : list FieldDefinition) (overrides : list CustomFieldMapping)
    (tag : string) :
  matchedSource dest sourceFields overrides tag =
  match_field dest sourceFields overrides tag.
Proof.
  unfold matchedSource, findSourceForDest, match_field, tag_rule.
  cbn zeta. rewrite customFieldMappingsLoop_spec, byName_last.
  destruct (first_override dest tag sourceFields overrides); [done|].
  destruct (last_named (Name dest) sourceFields); [done|].
  destruct (String.eqb_spec (tagValue (Tag dest) tag) "") as [E|Hne]; [done|].
  cbn [negb]. by apply byTag_last.
Qed.

Lemma first_override_reached (dest : FieldDefinition) (tag : string)
    (sourceFields : list FieldDefinition)
    (before after : list CustomFieldMapping) (o : CustomFieldMapping) :
  (∀ o', o' ∈ before → override_target dest tag sourceFields o' = None) →
  first_override dest tag sourceFields (before ++ o :: after) =
    match override_target dest tag sourceFields o with
    | Some f => Some f
    | None => first_override dest tag sourceFields after
    end.
Proof.
  induction before as [|o' before IH]; intros Hb; [done|].
  cbn [app first_override]. rewrite (Hb o') by set_solver.
  apply IH. intros ? ?. apply Hb. set_solver.
Qed.

(** The last element of a list that passes a test. *)
Lemma find_rev_last {A} (P : A → bool) (l : list A) (x : A) :
  List.find P (rev l) = Some x →
  ∃ before after, l = (before ++ x :: after)%list ∧ P x = true ∧
                  ∀ y, y ∈ after → P y = false.
Proof.
  induction l as [|y l IH] using rev_ind; [done|].
  rewrite rev_unit. cbn [List.find]. destruct (P y) eqn:Ey.
  - intros [= <-]. exists l, []. split; [done|]. split; [done|].
    by intros ? ?%elem_of_nil.
  - intros Hf. destruct (IH Hf) as (before & after & -> & Hx & Hafter).
    exists before, (after ++ [y])%list. split; [by rewrite <- app_assoc|].
    split; [done|]. intros z [Hz|Hz%list_elem_of_singleton]%elem_of_app;
      [by auto|by subst].
Qed.

(** C4 (as amended) — Field matching. The source of a destination field is
    settled by the first rule that yields one: the overrides in declaration
    order, each tried by name and then by tag; then the source field of the
    same name; then the source field with the same tag value under the
    mapping's key. So an override wins over a same-named source field and
    over every override declared after it, a name-based override wins when
    no override declared before it resolves, and a tag-based override
    declared before it that resolves wins instead. In the tag rule the
    last-declared source field with the value wins, and an empty tag value
    (a value of [-], or no annotation) matches nothing. *)
Theorem field_matching_precedence (dest : FieldDefinition)
    (sourceFields : list FieldDefinition) (overrides : list CustomFieldMapping)
    (tag : string) :
  matchedSource dest sourceFields overrides tag =
    match_field dest sourceFields overrides tag ∧
  (∀ before o after f,
     overrides = (before ++ o :: after)%list →
     (∀ o', o' ∈ before → override_target dest tag sourceFields o' = None) →
     override_target dest tag sourceFields o = Some f →
     matchedSource dest sourceFields overrides tag = Some f) ∧
  (∀ before o after f,
     overrides = (before ++ o :: after)%list →
     (∀ o', o' ∈ before → override_target dest tag sourceFields o' = None) →
     name_override dest sourceFields o = Some f →
     matchedSource dest sourceFields overrides tag = Some f) ∧
  (∀ f, tag_rule dest tag sourceFields = Some f →
     tagValue (Tag dest) tag ≠ "" ∧
     ∃ before after,
       sourceFields = (before ++ f :: after)%list ∧
       tagValue (Tag f) tag = tagValue (Tag dest) tag ∧
       ∀ f', f' ∈ after → tagValue (Tag f') tag ≠ tagValue (Tag dest) tag) ∧
  (tagValue (Tag dest) tag = "" → tag_rule dest tag sourceFields = None) ∧
  (Tag dest = "" → tag_rule dest tag sourceFields = None).
Proof.
  assert (Hreach : ∀ before o after f,
     overrides = (before ++ o :: after)%list →
     (∀ o', o' ∈ before → override_target dest tag sourceFields o' = None) →
     override_target dest tag sourceFields o = Some f →
     matchedSource dest sourceFields overrides tag = Some f).
  { intros before o after f -> Hb Ho. rewrite matchedSource_spec.
    unfold match_field. by rewrite (first_override_reached _ _ _ _ _ _ Hb), Ho. }
  split; [apply matchedSource_spec|]. split; [exact Hreach|].
  split; [|split; [|split]].
  - intros before o after f Ho Hb Hn. apply (Hreach before o after f Ho Hb).
    unfold override_target. by rewrite Hn.
  - unfold tag_rule. intros f.
    destruct (String.eqb_spec (tagValue (Tag dest) tag) "") as [?|Hne]; [done|].
    intros Hf. split; [done|]. unfold last_tagged in Hf.
    destruct (find_rev_last _ _ _ Hf) as (before & after & -> & Hx & Hafter).
    exists before, after. split; [done|]. split; [by apply String.eqb_eq|].
    intros f' Hin. apply String.eqb_neq. by apply Hafter.
  - unfold tag_rule. by intros ->.
  - unfold tag_rule, tagValue. by intros ->.
Qed.

End with_env.

Import example.

(** The name-based override, declared first, wins over the tag-based
    override and over the source field of the same name. *)
Lemma field_matching_precedence_witness :
  matchedSource dest_name three_sources [by_name_first_name; by_tag_nick] "json"
  = Some src_first_name.
Proof.
  destruct (field_matching_precedence dest_name three_sources
              [by_name_first_name; by_tag_nick] "json") as (_ & _ & Hname & _).
  apply (Hname [] by_name_first_name [by_tag_nick] src_first_name).
  - reflexivity.
  - intros o' Hin. by apply elem_of_nil in Hin.
  - reflexivity.
Defined.

(** C4 (as stated) fails: with the tag-based override declared before the
    name-based one, all three of a name-based override, a tag-based override
    and a same-named source field are present for the destination field, and
    the source chosen is the target of the tag-based override, not that of
    the name-based one. *)
Lemma name_override_not_always_chosen :
  let overrides := [by_tag_nick; by_name_first_name] in
  by_name_first_name ∈ overrides ∧
  name_override dest_name three_sources by_name_first_name = Some src_first_name ∧
  by_tag_nick ∈ overrides ∧
  tag_override dest_name "json" three_sources by_tag_nick = Some src_nick ∧
  last_named (Name dest_name) three_sources = Some src_name ∧
  matchedSource dest_name three_sources overrides "json" = Some src_nick ∧
  matchedSource dest_name three_sources overrides "json" ≠ Some src_first_name.
Proof.
  cbn zeta. split; [set_solver|]. split; [reflexivity|]. split; [set_solver|].
  split; [reflexivity|]. split; [reflexivity|]. split; [reflexivity|].
  vm_compute. discriminate.
Qed.

End matcher_facts.

Module packages_facts.

Import packages.

Section with_env.
Context `{GoEnv}.

(** [loadPackage] returns a package or an error, never neither. *)
Lemma loadPackage_shape (pkgPath : string) :
  (∃ pkg, loadPackage pkgPath = (Some pkg, None)) ∨
  (∃ err, loadPackage pkgPath = (None, Some err)).
Proof.
  unfold loadPackage. destruct (packages_Load pkgPath) as [[|pkg pkgs] [err|]];
    eauto. destruct (decide _); eauto.
Qed.

(** The first call for a path stores what [loadPackage] returned, nil
    included, and the next call returns the stored pointer with a nil error. *)
Lemma GetPackage_twice (pm : PackageManager) (pkgPath : string) :
  packageCache pm !! pkgPath = None →
  (GetPackage pm pkgPath).1 = loadPackage pkgPath ∧
  (GetPackage (GetPackage pm pkgPath).2 pkgPath).1
  = ((loadPackage pkgPath).1, None).
Proof.
  intros Hmiss.
  assert (E : GetPackage pm pkgPath =
              (loadPackage pkgPath,
               {| packageCache := <[pkgPath := (loadPackage pkgPath).1]>
                                    (packageCache pm) |})).
  { unfold GetPackage. rewrite Hmiss. by destruct (loadPackage pkgPath). }
  rewrite E. cbn [fst snd]. split; [done|].
  unfold GetPackage. cbn [packageCache]. by rewrite lookup_insert_eq.
Qed.

End with_env.

Import example.

(** C9 — the code at the failing input. The package [example.com/missing]
    does not load. The first [GetPackage] returns a nil package and the
    error; the second returns a nil package and a nil error. *)
Theorem GetPackage_failure_is_cached_as_success :
  let first := GetPackage NewPackageManager "example.com/missing" in
  let second := GetPackage first.2 "example.com/missing" in
  first.1 = (None,
             Some ("package errors: [-: no required module provides package " ++
                   "example.com/missing; to add it:" ++ nl ++ tab ++
                   "go get example.com/missing]")) ∧
  second.1 = (None, None).
Proof. split; reflexivity. Qed.

End packages_facts.

Module resolver_facts.

Import generator.

Section with_env.
Context `{GoEnv}.

(** The closure given to [ast.Inspect] has a case for a struct type and a
    case for an identifier; on a declaration whose type is a qualified name
    [pkg.Other], which the parser gives as a [SelectorExpr], it assigns
    nothing. *)
Lemma inspectTypeSpec_selector
    (rec : string → string → M Resolving (list ast.Field * string))
    (f : ast.File) (pkgPath typeName name : string) (X : ast.Expr) (Sel : string)
    (found : Found) :
  inspectTypeSpec rec f pkgPath typeName
    (ast.mkTypeSpec name (ast.SelectorExpr X Sel)) found = ret found.
Proof. unfold inspectTypeSpec. simpl. by destruct (negb _). Qed.

(** An embedded field whose type resolves to [(pkgPath, typeName)] hands
    the extraction of that type to the recursion: if that call does not
    return, neither does the loop. *)
Lemma extractFields_loop_embedded_diverges
    (rec : string → string → M Generator (list FieldDefinition))
    (structPkgPath : string) (fld : ast.Field) (rest : list ast.Field)
    (fields : list FieldDefinition) (g g' : Generator)
    (pkgPath typeName : string) :
  ast.Names fld = [] →
  pkgAliasVisitor (ast.Type_ fld) = [] →
  resolveTypeForEmbeddedField (ast.Type_ fld) structPkgPath g
    = (Ok (pkgPath, typeName), g) →
  rec pkgPath typeName g = (Diverge, g') →
  extractFields_loop rec structPkgPath (fld :: rest) fields g = (Diverge, g').
Proof.
  intros Hn Ha Hr Hrec. cbn [extractFields_loop].
  unfold findImportSpecsForExpression. rewrite Ha, Hn. cbn [List.length].
  unfold bind at 1. unfold wrap at 1.
  destruct (decide (0 = 0)) as [_|?]; [|done]. cbn [ret].
  unfold bind at 1. unfold wrap at 1. unfold expandEmbeddedFields_with.
  unfold bind at 1. rewrite Hr. cbn [fst snd]. by rewrite Hrec.
Qed.

End with_env.

Import example.

(** C2 — the code at the failing input. In [example.com/p] the declaration
    [type A = q.Other] aliases the struct [Other] of the imported package
    [example.com/q]. Resolving [Other] in [q] gives its fields, and so does
    resolving the alias [Local] of a struct of [p] itself, but resolving [A]
    fails with a not-found error, at every recursion depth. *)
Theorem cross_package_alias_not_found (fuel : nat) :
  (findStructDefinition (S fuel) "example.com/p" "A" g0).1
    = Err "type A not found in package example.com/p" ∧
  (findStructDefinition (S fuel) "example.com/q" "Other" g0).1
    = Ok ([field "X" (ast.Ident "int") ""], "example.com/q") ∧
  (findStructDefinition (S (S fuel)) "example.com/p" "Local" g0).1
    = Ok ([field "X" (ast.Ident "int") ""], "example.com/p").
Proof. repeat split; vm_compute; reflexivity. Qed.

(** An alias cycle inside one package is caught by the visited set. *)
Lemma alias_cycle_in_one_package (fuel : nat) :
  (findStructDefinition (S (S (S fuel))) "example.com/p" "Loop1" g0).1
    = Err "circular type alias detected: example.com/p.Loop1".
Proof. vm_compute. reflexivity. Qed.

Lemma findStructDefinition_Node (fuel : nat) :
  findStructDefinition (S fuel) "example.com/p" "Node" g_p
    = (Ok (node_fields, "example.com/p"), g_p).
Proof. vm_compute. reflexivity. Qed.

Lemma findStructDefinition_Node_first (fuel : nat) :
  findStructDefinition (S fuel) "example.com/p" "Node" g0
    = (Ok (node_fields, "example.com/p"), g_p).
Proof. vm_compute. reflexivity. Qed.

(** Expanding the fields of [Node] calls the extraction of [Node] again,
    in the same state. *)
Lemma extractFields_loop_Node
    (rec : string → string → M Generator (list FieldDefinition)) :
  rec "example.com/p" "Node" g_p = (Diverge, g_p) →
  extractFields_loop rec "example.com/p" node_fields [] g_p = (Diverge, g_p).
Proof.
  intros Hrec.
  by apply (extractFields_loop_embedded_diverges rec _ _ _ _ g_p g_p
              "example.com/p" "Node").
Qed.

Lemma extract_Node_diverges_loaded (fuel : nat) :
  extractFieldsFromPackage fuel "example.com/p" "Node" g_p = (Diverge, g_p).
Proof.
  induction fuel as [|fuel IH]; [reflexivity|].
  cbn [extractFieldsFromPackage]. unfold bind at 1.
  rewrite findStructDefinition_Node. cbn [fst snd].
  by apply extractFields_loop_Node.
Qed.

(** C3 — the code at the failing input. [type Node struct { *Node; Val int }]
    embeds a pointer to itself. Extracting its fields has not returned at
    any recursion depth: every expansion of the embedded field starts the
    extraction of [Node] again, with a fresh visited set. *)
Theorem embedded_cycle_never_returns (fuel : nat) :
  (extractFieldsFromPackage fuel "example.com/p" "Node" g0).1 = Diverge.
Proof.
  destruct fuel as [|fuel]; [reflexivity|].
  cbn [extractFieldsFromPackage]. unfold bind at 1.
  rewrite findStructDefinition_Node_first. cbn [fst snd].
  rewrite extractFields_loop_Node; [done|]. apply extract_Node_diverges_loaded.
Qed.

End resolver_facts.

Module generate_facts.

Import imports generator props.

Section with_env.
Context `{GoEnv}.

(** [Generate] is [generateFuncs] followed by the rendering of the import
    block over the text of the functions. *)
Lemma Generate_split (fuel : nat) (range_order : RangeOrder) (g : Generator) :
  Generate fuel range_order g =
  match generateFuncs fuel g with
  | (Ok funcs, g') =>
      let funcCode := strings.Join funcs (nl ++ nl) in
      (Ok (document (OutPackageName (config g'))
             (RenderImports range_order (importManager g') funcCode) funcCode),
       g')
  | (Err e, g') => (Err e, g')
  | (Panic e, g') => (Panic e, g')
  | (Diverge, g') => (Diverge, g')
  end.
Proof.
  unfold Generate, generateFuncs, bind, modify, get, ret.
  by destruct (generateMappings _ _ _ _) as [[funcs|e|e|] g'].
Qed.

Lemma importLines_Permutation (range_order1 range_order2 : RangeOrder)
    (m : gmap string string) (pattern : string) :
  range_ok range_order1 → range_ok range_order2 →
  importLines (range_order1 m) pattern ≡ₚ importLines (range_order2 m) pattern.
Proof.
  intros H1 H2. unfold importLines. by rewrite (H1 m), (H2 m).
Qed.

Lemma Permutation_short {A} (l k : list A) :
  l ≡ₚ k → (List.length l ≤ 1)%nat → l = k.
Proof.
  intros Hp Hl. destruct l as [|a [|b l]]; simpl in Hl; [| |lia].
  - by apply Permutation_nil_l in Hp.
  - by apply Permutation_singleton_l in Hp.
Qed.

(** C1 (as amended) — Determinism of [Generate]. Two runs on the same
    configuration and conversions, whatever order each takes through the
    import table, leave the generator in the same state and either end in
    the same failure or return two documents with the same package clause
    and the same function text whose import blocks hold the same lines, in
    an order that may differ; with at most one import line the two
    documents are the same text. *)
Theorem generate_same_up_to_import_order (fuel : nat) (config : Config)
    (conversions : Conversions) (range_order1 range_order2 : RangeOrder) :
  range_ok range_order1 → range_ok range_order2 →
  let g := NewGenerator config conversions in
  let run1 := Generate fuel range_order1 g in
  let run2 := Generate fuel range_order2 g in
  run1.2 = run2.2 ∧
  ((is_Ok run1.1 = false ∧ run1.1 = run2.1) ∨
   ∃ (funcCode : string) (g' : Generator),
     let table := imports.imports (importManager g') in
     run1.1 = Ok (document (OutPackageName (generator.config g'))
                    (RenderImports range_order1 (importManager g') funcCode)
                    funcCode) ∧
     run2.1 = Ok (document (OutPackageName (generator.config g'))
                    (RenderImports range_order2 (importManager g') funcCode)
                    funcCode) ∧
     importLines (range_order1 table) funcCode ≡ₚ
       importLines (range_order2 table) funcCode ∧
     ((List.length (importLines (range_order1 table) funcCode) ≤ 1)%nat →
      run1.1 = run2.1)).
Proof.
  intros H1 H2 g run1 run2. unfold run1, run2. rewrite !Generate_split.
  destruct (generateFuncs fuel g) as [[funcs|e|e|] g']; cbn [fst snd];
    try (split; [done|left; by split]).
  split; [done|]. right. exists (strings.Join funcs (nl ++ nl)), g'.
  cbn zeta. split; [done|]. split; [done|].
  pose proof (importLines_Permutation range_order1 range_order2
                (imports.imports (importManager g'))
                (strings.Join funcs (nl ++ nl)) H1 H2) as Hp.
  split; [done|]. intros Hl. unfold RenderImports.
  by rewrite (Permutation_short _ _ Hp Hl).
Qed.

End with_env.

Import example.

Lemma listed_order_ok : range_ok listed_order.
Proof. intros m. reflexivity. Qed.

Lemma reversed_order_ok : range_ok reversed_order.
Proof. intros m. apply reverse_Permutation. Qed.

(** The mapping of [models1.User] to [models2.UserDTO], run with the import
    table ranged over in two orders: the same function text, the same two
    import lines. *)
Lemma generate_same_up_to_import_order_witness :
  let g := NewGenerator user_config no_conversions in
  (Generate 2 listed_order g).2 = (Generate 2 reversed_order g).2 ∧
  ∃ funcCode table,
    importLines (listed_order table) funcCode ≡ₚ
    importLines (reversed_order table) funcCode.
Proof.
  destruct (generate_same_up_to_import_order 2 user_config no_conversions
              listed_order reversed_order listed_order_ok reversed_order_ok)
    as [Hstate [[Hfail _]|(funcCode & g' & _ & _ & Hperm & _)]].
  - split; [exact Hstate|]. exists "", ∅. reflexivity.
  - split; [exact Hstate|]. eauto.
Defined.

(** C1 (as stated) fails: the mapping of [models1.User] to
    [models2.UserDTO] uses two imports, and two runs on this one
    configuration that range over the import table in different orders
    both succeed and return different texts. *)
Lemma generate_not_byte_identical :
  let g := NewGenerator user_config no_conversions in
  range_ok listed_order ∧ range_ok reversed_order ∧
  is_Ok (Generate 2 listed_order g).1 = true ∧
  is_Ok (Generate 2 reversed_order g).1 = true ∧
  (Generate 2 listed_order g).1 ≠ (Generate 2 reversed_order g).1.
Proof.
  cbn zeta. split; [apply listed_order_ok|]. split; [apply reversed_order_ok|].
  split; [reflexivity|]. split; [reflexivity|]. vm_compute. discriminate.
Qed.

(** The end-to-end scenario of the specification: [{ID, Name, Age}] to
    [{ID, Name}] gives a body of two assignments and no comment line. *)
Lemma user_to_dto_scenario :
  (Generate 2 listed_order (NewGenerator user_config no_conversions)).1 =
  Ok ("// Code generated by structmap; DO NOT EDIT." ++ nl ++
      "package main" ++ nl ++ nl ++
      "import (" ++ nl ++
      tab ++ "ref1 " ++ dquote ++ "example.com/models1" ++ dquote ++ nl ++
      tab ++ "ref2 " ++ dquote ++ "example.com/models2" ++ dquote ++ nl ++
      ")" ++ nl ++ nl ++
      "// MapUserToUserDTO copies User → UserDTO" ++ nl ++
      "func MapUserToUserDTO(src ref1.User) (dst ref2.UserDTO) {" ++ nl ++
      "    dst.ID = src.ID" ++ nl ++
      tab ++ "dst.Name = src.Name" ++ nl ++
      "    return" ++ nl ++
      "}" ++ nl).
Proof. vm_compute. reflexivity. Qed.

End generate_facts.

Module imports_more.

Import imports props imports_facts.

Lemma AddImport_keeps (im : ImportManager) (p k a : string) :
  imports im !! k = Some a → imports (AddImport im p) !! k = Some a.
Proof.
  intros Hk. destruct (strings.Contains p "/") eqn:Hc;
    [|unfold AddImport; by rewrite Hc].
  rewrite (AddImport_unfold _ p Hc).
  destruct (String.eqb (strings.TrimSpace p) ""); [done|].
  destruct (imports im !! normalized p) eqn:Hl; [done|].
  cbn [imports]. rewrite lookup_insert_ne; [done|]. intros <-. congruence.
Qed.

Lemma foldl_AddImport_keeps (ps : list string) (im : ImportManager) (k a : string) :
  imports im !! k = Some a → imports (foldl AddImport im ps) !! k = Some a.
Proof.
  revert im. induction ps as [|p ps IH]; intros im Hk; [done|].
  simpl. by apply IH, AddImport_keeps.
Qed.

(** X1 — Aliases are stable. A path that has an alias keeps it through
    every later registration: [GetImportAlias] answers the same before and
    after any further calls of [AddImport]. *)
Theorem alias_stable_under_registration (im : ImportManager) (ps : list string)
    (q a : string) :
  imports im !! strings.Trim q dquote = Some a →
  GetImportAlias im q = a ∧ GetImportAlias (foldl AddImport im ps) q = a.
Proof.
  intros Hq. unfold GetImportAlias.
  by rewrite Hq, (foldl_AddImport_keeps ps im _ a Hq).
Qed.

(** The keys of the table are the trimmed forms of registered paths that
    hold a separator. *)
Lemma AddImport_keys (im : ImportManager) (p k : string) :
  is_Some (imports (AddImport im p) !! k) →
  is_Some (imports im !! k) ∨ (k = normalized p ∧ strings.Contains p "/" = true).
Proof.
  destruct (strings.Contains p "/") eqn:Hc;
    [|unfold AddImport; rewrite Hc; by left].
  rewrite (AddImport_unfold _ p Hc).
  destruct (String.eqb (strings.TrimSpace p) ""); [by left|].
  destruct (imports im !! normalized p) eqn:Hl; [by left|].
  cbn [imports]. destruct (decide (normalized p = k)) as [<-|Hne].
  - by right.
  - rewrite lookup_insert_ne by done. by left.
Qed.

Lemma registered_snoc (l : list string) (x : string) :
  registered (l ++ [x]) = AddImport (registered l) x.
Proof. unfold registered. by rewrite foldl_app. Qed.

Lemma registered_keys (ps : list string) (k : string) :
  is_Some (imports (registered ps) !! k) →
  ∃ p, p ∈ ps ∧ k = normalized p ∧ strings.Contains p "/" = true.
Proof.
  induction ps as [|x l IH] using rev_ind.
  - intros [a Ha]. unfold registered in Ha. simpl in Ha.
    by rewrite lookup_empty in Ha.
  - rewrite registered_snoc. intros [Hk|[-> Hc]]%AddImport_keys.
    + destruct (IH Hk) as (p & Hp & E & Hc). exists p.
      split; [apply elem_of_app; by left|done].
    + exists x. split; [|done].
      apply elem_of_app. right. by apply list_elem_of_singleton.
Qed.

Lemma registered_size (ps : list string) :
  Forall (λ p, strings.Contains p "/" = true) ps →
  NoDup (normalized <$> ps) →
  size (imports (registered ps)) = List.length ps.
Proof.
  induction ps as [|x l IH] using rev_ind; [done|].
  rewrite Forall_app, Forall_singleton, fmap_app, NoDup_app.
  intros [Hl Hx] (Hnd & Hfresh & _). rewrite registered_snoc, length_app. simpl.
  rewrite (AddImport_unfold _ x Hx), (TrimSpace_separator _ Hx).
  destruct (imports (registered l) !! normalized x) eqn:Hlk.
  - exfalso. destruct (registered_keys l (normalized x)) as (p & Hp & E & _); [by eexists|].
    apply (Hfresh (normalized x)); [|by apply list_elem_of_singleton].
    rewrite E. apply list_elem_of_fmap. eauto.
  - cbn [imports]. rewrite map_size_insert_None by done. rewrite IH by done. lia.
Qed.

(** X2 — Aliases follow first-seen order. When the registered paths all
    hold a separator and are distinct once trimmed, the path registered at
    position [i] (from 0) is bound to [ref(i+1)]. *)
Theorem aliases_follow_first_seen_order (ps : list string) (i : nat) (p : string) :
  Forall (λ p, strings.Contains p "/" = true) ps →
  NoDup (normalized <$> ps) →
  ps !! i = Some p →
  imports (registered ps) !! normalized p = Some ("ref" ++ fmt.d (S i)).
Proof.
  revert i p. induction ps as [|x l IH] using rev_ind; intros i p; [done|].
  rewrite Forall_app, Forall_singleton, fmap_app, NoDup_app.
  intros [Hl Hx] (Hnd & Hfresh & _) Hi. rewrite registered_snoc.
  destruct (decide (i < List.length l)%nat) as [Hlt|Hge].
  - rewrite lookup_app_l in Hi by done. apply AddImport_keeps. by apply IH.
  - rewrite lookup_app_r in Hi by lia.
    destruct (i - List.length l)%nat as [|n] eqn:En; [|by destruct n].
    injection Hi as <-. assert (i = List.length l) as -> by lia.
    rewrite (AddImport_unfold _ x Hx), (TrimSpace_separator _ Hx).
    destruct (imports (registered l) !! normalized x) eqn:Hlk.
    + exfalso. destruct (registered_keys l (normalized x)) as (p & Hp & E & _); [by eexists|].
      apply (Hfresh (normalized x)); [|by apply list_elem_of_singleton].
      rewrite E. apply list_elem_of_fmap. eauto.
    + cbn [imports]. rewrite lookup_insert_eq.
      destruct (numbered_registered l) as [-> _].
      by rewrite registered_size.
Qed.


Lemma AddImport_injective (im : ImportManager) (p : string) :
  numbered im →
  (∀ p1 p2 a, imports im !! p1 = Some a → imports im !! p2 = Some a → p1 = p2) →
  ∀ p1 p2 a, imports (AddImport im p) !! p1 = Some a →
             imports (AddImport im p) !! p2 = Some a → p1 = p2.
Proof.
  intros Hn Hinj. destruct (strings.Contains p "/") eqn:Hc;
    [|unfold AddImport; by rewrite Hc].
  rewrite (AddImport_unfold _ p Hc).
  destruct (String.eqb (strings.TrimSpace p) ""); [done|].
  destruct (imports im !! normalized p) eqn:Hl; [done|].
  cbn [imports]. intros p1 p2 a.
  destruct (decide (normalized p = p1)) as [<-|H1];
    destruct (decide (normalized p = p2)) as [<-|H2]; [done| | |].
  - rewrite lookup_insert_eq, lookup_insert_ne by done. intros [= <-] H.
    by apply numbered_fresh in H.
  - rewrite lookup_insert_eq, lookup_insert_ne by done. intros H [= <-].
    by apply numbered_fresh in H.
  - rewrite !lookup_insert_ne by done. apply Hinj.
Qed.

(** X3 — Distinct paths have distinct aliases: in a manager reached by
    registrations no alias is bound to two paths. *)
Theorem distinct_paths_distinct_aliases (ps : list string) (p1 p2 a : string) :
  imports (registered ps) !! p1 = Some a →
  imports (registered ps) !! p2 = Some a →
  p1 = p2.
Proof.
  revert p1 p2 a. induction ps as [|x l IH] using rev_ind.
  - intros p1 p2 a H. unfold registered in H. simpl in H.
    by rewrite lookup_empty in H.
  - rewrite registered_snoc. apply AddImport_injective; [|done].
    apply numbered_registered.
Qed.

Lemma TrimLeft_within (s cutset : string) (c : ascii) :
  c ∈ list_ascii_of_string (strings.TrimLeft s cutset) →
  c ∈ list_ascii_of_string s.
Proof.
  induction s as [|d s IH]; simpl; [done|].
  destruct (strings.in_cutset cutset d); [|done].
  intros Hin. apply elem_of_cons. right. auto.
Qed.

Lemma TrimRight_within (s cutset : string) (c : ascii) :
  c ∈ list_ascii_of_string (strings.TrimRight s cutset) →
  c ∈ list_ascii_of_string s.
Proof.
  unfold strings.TrimRight. induction s as [|d s IH]; simpl; [done|].
  destruct (strings.TrimRight_go s cutset) as [r|]; simpl in *.
  - rewrite !elem_of_cons. intros [->|Hin]; [by left|right; auto].
  - destruct (strings.in_cutset cutset d); simpl; [by intros ?%elem_of_nil|].
    rewrite !elem_of_cons. intros [->|Hin%elem_of_nil]; [by left|done].
Qed.

Lemma Trim_no_separator (s cutset : string) :
  strings.Contains s "/" = false → strings.Contains (strings.Trim s cutset) "/" = false.
Proof.
  intros Hc. apply not_true_is_false. intros Ht%Contains_char.
  apply TrimRight_within, TrimLeft_within, Contains_char in Ht. congruence.
Qed.

(** X4 — A path without a separator never has an alias: whatever has been
    registered, [GetImportAlias] returns the empty string for it, so a
    placeholder for a standard-library import such as [time] renders as
    nothing. *)
Theorem no_alias_without_separator (ps : list string) (p : string) :
  strings.Contains p "/" = false → GetImportAlias (registered ps) p = "".
Proof.
  intros Hc. unfold GetImportAlias.
  destruct (imports (registered ps) !! strings.Trim p dquote) as [a|] eqn:Hl; [|done].
  destruct (registered_keys ps (strings.Trim p dquote)) as (q & _ & E & Hq);
    [by eexists|].
  apply normalized_separator in Hq. rewrite <- E in Hq.
  by rewrite (Trim_no_separator p dquote Hc) in Hq.
Qed.

Lemma filter_none {A} (P : A → Prop) `{∀ x, Decision (P x)} (l : list A) :
  (∀ x, x ∈ l → ¬ P x) → filter P l = [].
Proof.
  induction l as [|x l IH]; intros Hn; [done|].
  rewrite filter_cons_False; [|apply Hn; by left].
  apply IH. intros y Hy. apply Hn. by right.
Qed.

(** X5 — An import block without lines. When paths are registered and no
    alias followed by a dot occurs in the text, [RenderImports] still
    returns an import block, with no line in it. *)
Theorem import_block_without_references (range_order : RangeOrder)
    (im : ImportManager) (pattern : string) :
  range_ok range_order →
  size (imports im) ≠ 0 →
  (∀ path alias, imports im !! path = Some alias →
                 strings.Contains pattern (alias ++ ".") = false) →
  RenderImports range_order im pattern = "import (" ++ nl ++ nl ++ ")".
Proof.
  intros Hok Hsize Hnone. unfold RenderImports, importLines.
  destruct (decide (size (imports im) = 0)); [done|].
  replace (filter (referenced pattern) (range_order (imports im))) with
    (@nil (string * string)); [done|].
  symmetry. apply filter_none. intros [path alias] Hin.
  rewrite (Hok _) in Hin. apply elem_of_map_to_list in Hin.
  unfold referenced. simpl. by rewrite (Hnone _ _ Hin).
Qed.

Lemma alias_stable_under_registration_witness :
  GetImportAlias (registered ["m/a"; "m/b"]) "m/a" = "ref1" ∧
  GetImportAlias (foldl AddImport (registered ["m/a"; "m/b"]) ["m/c"; "m/a"]) "m/a"
  = "ref1".
Proof.
  apply (alias_stable_under_registration (registered ["m/a"; "m/b"])
           ["m/c"; "m/a"] "m/a" "ref1").
  reflexivity.
Defined.

Lemma aliases_follow_first_seen_order_witness :
  let spelled := strings.rune [194; 160] ++ dquote ++ "m/b" ++ dquote ++ nl in
  normalized spelled = "m/b" ∧
  imports (registered ["m/a"; spelled; "m/c"]) !! normalized spelled = Some "ref2" ∧
  imports (registered ten_paths) !! normalized "m/g" = Some "ref7".
Proof.
  intros spelled. split; [reflexivity|]. split.
  - apply (aliases_follow_first_seen_order ["m/a"; spelled; "m/c"] 1 spelled).
    + repeat constructor.
    + compute_done.
    + reflexivity.
  - apply (aliases_follow_first_seen_order ten_paths 6 "m/g").
    + by apply Forall_forall; intros p Hp;
        repeat (apply elem_of_cons in Hp as [->|Hp]; [reflexivity|]);
        apply elem_of_nil in Hp.
    + compute_done.
    + reflexivity.
Defined.

Lemma distinct_paths_distinct_aliases_witness :
  imports (registered ten_paths) !! normalized " m/g " = Some "ref7" ∧
  imports (registered ten_paths) !! "m/g" = Some "ref7" ∧
  normalized " m/g " = "m/g".
Proof.
  split; [reflexivity|]. split; [reflexivity|].
  apply (distinct_paths_distinct_aliases ten_paths (normalized " m/g ") "m/g"
           "ref7"); reflexivity.
Defined.

Lemma no_alias_without_separator_witness :
  GetImportAlias (registered ["time"; "m/a"; "fmt"]) "time" = "".
Proof.
  apply (no_alias_without_separator ["time"; "m/a"; "fmt"] "time"). reflexivity.
Defined.

Lemma import_block_without_references_witness :
  RenderImports map_to_list (registered ["m/a"]) "func F() {}"
  = "import (" ++ nl ++ nl ++ ")".
Proof.
  apply (import_block_without_references map_to_list (registered ["m/a"])
           "func F() {}").
  - intros m. reflexivity.
  - vm_compute. discriminate.
  - intros path alias Hin.
    change (imports (registered ["m/a"]))
      with ({["m/a" := "ref1"]} : gmap string string) in Hin.
    apply lookup_singleton_Some in Hin as [_ <-]. reflexivity.
Defined.

End imports_more.

Module packages_more.

Import packages.

Section with_env.
Context `{GoEnv}.

(** X6 — [loadPackage] returns an error or a package, never both and
    never neither; a package it returns is the first one the loader listed
    and carries no errors. *)
Theorem loadPackage_outcome (pkgPath : string) :
  (∃ err, loadPackage pkgPath = (None, Some err)) ∨
  (∃ pkg rest, loadPackage pkgPath = (Some pkg, None) ∧
               packages_Load pkgPath = (pkg :: rest, None) ∧
               gopackages.Errors pkg = []).
Proof.
  unfold loadPackage. destruct (packages_Load pkgPath) as [[|pkg pkgs] [err|]];
    eauto.
  destruct (decide _) as [Hlt|Hge]; [eauto|]. right. exists pkg, pkgs.
  split; [done|]. split; [done|].
  destruct (gopackages.Errors pkg); [done|]. simpl in Hge. lia.
Qed.

(** X7 — A package that loads is cached. After the first [GetPackage] of
    a path that loads, the next call returns the same package with a nil
    error and leaves the manager as it is, and the entries of other paths
    are untouched by the first call. *)
Theorem GetPackage_success_is_cached (pm : PackageManager) (pkgPath : string)
    (pkg : gopackages.Package) :
  packageCache pm !! pkgPath = None →
  loadPackage pkgPath = (Some pkg, None) →
  let pm1 := (GetPackage pm pkgPath).2 in
  (GetPackage pm pkgPath).1 = (Some pkg, None) ∧
  GetPackage pm1 pkgPath = ((Some pkg, None), pm1) ∧
  ∀ other, other ≠ pkgPath →
           packageCache pm1 !! other = packageCache pm !! other.
Proof.
  intros Hmiss Hload.
  assert (E : GetPackage pm pkgPath =
              ((Some pkg, None),
               {| packageCache := <[pkgPath := Some pkg]> (packageCache pm) |})).
  { unfold GetPackage. by rewrite Hmiss, Hload. }
  rewrite E. cbn [fst snd]. split; [done|]. split.
  - unfold GetPackage. cbn [packageCache]. by rewrite lookup_insert_eq.
  - intros other Hne. cbn [packageCache]. by rewrite lookup_insert_ne.
Qed.

End with_env.

Import example.

Lemma GetPackage_success_is_cached_witness :
  let pm1 := (GetPackage NewPackageManager "example.com/p").2 in
  (GetPackage NewPackageManager "example.com/p").1 = (Some p_package, None) ∧
  GetPackage pm1 "example.com/p" = ((Some p_package, None), pm1).
Proof.
  destruct (GetPackage_success_is_cached NewPackageManager "example.com/p"
              p_package) as (Hfirst & Hsecond & _);
    [reflexivity|vm_compute; reflexivity|].
  split; [exact Hfirst|exact Hsecond].
Defined.

End packages_more.

Module resolver_more.

Import imports generator props props_more.

Section with_env.
Context `{GoEnv}.

Lemma cache_grown_refl (g : Generator) : cache_grown g g.
Proof. by repeat split. Qed.

Lemma cache_grown_trans (g1 g2 g3 : Generator) :
  cache_grown g1 g2 → cache_grown g2 g3 → cache_grown g1 g3.
Proof.
  intros (? & ? & ? & ? & H12) (? & ? & ? & ? & H23).
  repeat split; try congruence. auto.
Qed.

Lemma cache_only_ret {A} (a : A) : cache_only (ret a).
Proof. intros g. apply cache_grown_refl. Qed.

Lemma cache_only_fail {A} (e : string) : cache_only (@fail Generator A e).
Proof. intros g. apply cache_grown_refl. Qed.

Lemma cache_only_lift {A} (r : Res A) : cache_only (lift_res r).
Proof. intros g. apply cache_grown_refl. Qed.

Lemma cache_only_deref {A} (p : option A) : cache_only (deref p).
Proof. destruct p; [apply cache_only_ret|apply cache_only_lift]. Qed.

Lemma cache_only_bind {A B} (m : M Generator A) (k : A → M Generator B) :
  cache_only m → (∀ a, cache_only (k a)) → cache_only (bind m k).
Proof.
  intros Hm Hk g. unfold bind. specialize (Hm g).
  destruct (m g) as [[a|e|e|] g1]; cbn [snd] in *; try done.
  eapply cache_grown_trans; [exact Hm|apply Hk].
Qed.

Lemma cache_only_wrap {A} (pre : string) (m : M Generator A) :
  cache_only m → cache_only (wrap pre m).
Proof.
  intros Hm g. unfold wrap. specialize (Hm g).
  by destruct (m g) as [[a|e|e|] g1].
Qed.

Lemma cache_only_getPackage (pkgPath : string) : cache_only (getPackage pkgPath).
Proof.
  intros g. unfold getPackage, packages.GetPackage.
  destruct (packages.packageCache (packageManager g) !! pkgPath) as [pkg|] eqn:Hl.
  - by repeat split.
  - destruct (packages.loadPackage pkgPath) as [pkg err].
    unfold cache_grown, set_packageManager.
    cbn [fst snd importManager typeToFieldsMap conversions config
         packageManager packages.packageCache].
    repeat split. intros k v Hk. rewrite lookup_insert_ne; [done|].
    intros <-. congruence.
Qed.

Lemma cache_only_findImportSpecForAlias_loop (imps : list ast.ImportSpec)
    (pkgAlias : string) :
  cache_only (findImportSpecForAlias_loop imps pkgAlias).
Proof.
  induction imps as [|imp rest IH]; [apply cache_only_ret|].
  cbn [findImportSpecForAlias_loop]. apply cache_only_bind;
    [apply cache_only_getPackage|].
  intros [pkg [err|]]; [apply cache_only_fail|].
  apply cache_only_bind; [apply cache_only_deref|]. intros pkg'.
  destruct (ast.ImportSpec_Name imp) as [name|].
  - destruct (String.eqb name pkgAlias); [apply cache_only_ret|].
    destruct (String.eqb _ pkgAlias); [apply cache_only_ret|done].
  - destruct (String.eqb _ pkgAlias); [apply cache_only_ret|done].
Qed.

Lemma cache_only_findImportInFiles (gofiles : list string) (pkgAlias : string) :
  cache_only (findImportInFiles gofiles pkgAlias).
Proof.
  induction gofiles as [|gofile rest IH]; [apply cache_only_ret|].
  cbn [findImportInFiles]. destruct (parser_ParseFile gofile) as [file|]; [|done].
  apply cache_only_bind; [apply cache_only_findImportSpecForAlias_loop|].
  intros [info|]; [apply cache_only_ret|done].
Qed.

Lemma cache_only_findImportSpecs_loop (pkg : option gopackages.Package)
    (pkgPath : string) (pkgAliases : list string) (result : list ImportInfo) :
  cache_only (findImportSpecs_loop pkg pkgPath pkgAliases result).
Proof.
  revert result. induction pkgAliases as [|a rest IH]; intros result;
    [apply cache_only_ret|].
  cbn [findImportSpecs_loop]. apply cache_only_bind; [apply cache_only_deref|].
  intros pkg'. apply cache_only_bind; [apply cache_only_findImportInFiles|].
  intros [info|]; [apply IH|apply cache_only_fail].
Qed.

Lemma cache_only_findImportSpecsForExpression (e : ast.Expr) (pkgPath : string) :
  cache_only (findImportSpecsForExpression e pkgPath).
Proof.
  unfold findImportSpecsForExpression. destruct (decide _); [apply cache_only_ret|].
  apply cache_only_bind; [apply cache_only_getPackage|].
  intros [pkg [err|]]; [apply cache_only_fail|].
  apply cache_only_findImportSpecs_loop.
Qed.

Lemma cache_only_resolveTypeForEmbeddedField (e : ast.Expr) (p : string) :
  cache_only (resolveTypeForEmbeddedField e p).
Proof.
  induction e; cbn [resolveTypeForEmbeddedField];
    try apply cache_only_fail; try apply cache_only_ret; try done.
  destruct e; try apply cache_only_fail.
  apply cache_only_bind; [apply cache_only_getPackage|].
  intros [pkg [err|]]; [apply cache_only_fail|].
  apply cache_only_bind; [apply cache_only_deref|]. intros pkg'.
  apply cache_only_bind; [apply cache_only_findImportInFiles|].
  intros [info|]; [apply cache_only_ret|apply cache_only_fail].
Qed.

(** The same for the computations that also carry the visited set. *)
Lemma resolving_ret {A} (a : A) : cache_only_resolving (ret a).
Proof. intros s. apply cache_grown_refl. Qed.

Lemma resolving_fail {A} (e : string) : cache_only_resolving (@fail Resolving A e).
Proof. intros s. apply cache_grown_refl. Qed.

Lemma resolving_lift {A} (r : Res A) : cache_only_resolving (lift_res r).
Proof. intros s. apply cache_grown_refl. Qed.

Lemma resolving_deref {A} (p : option A) : cache_only_resolving (deref p).
Proof. destruct p; [apply resolving_ret|apply resolving_lift]. Qed.

Lemma resolving_bind {A B} (m : M Resolving A) (k : A → M Resolving B) :
  cache_only_resolving m → (∀ a, cache_only_resolving (k a)) →
  cache_only_resolving (bind m k).
Proof.
  intros Hm Hk s. unfold bind. specialize (Hm s).
  destruct (m s) as [[a|e|e|] s1]; cbn [snd] in *; try done.
  eapply cache_grown_trans; [exact Hm|apply Hk].
Qed.

Lemma resolving_liftG {A} (m : M Generator A) :
  cache_only m → cache_only_resolving (liftG m).
Proof.
  intros Hm s. unfold liftG. specialize (Hm s.1). by destruct (m s.1).
Qed.

Lemma resolving_recurseInto
    (rec : string → string → M Resolving (list ast.Field * string))
    (pkgPath typeName : string) (found : Found) :
  (∀ p t, cache_only_resolving (rec p t)) →
  cache_only_resolving (recurseInto rec pkgPath typeName found).
Proof.
  intros Hrec s. unfold recurseInto. specialize (Hrec pkgPath typeName s).
  by destruct (rec pkgPath typeName s) as [[[st pp]|e|e|] s1].
Qed.

Lemma resolving_inspectTypeSpec
    (rec : string → string → M Resolving (list ast.Field * string))
    (f : ast.File) (pkgPath typeName : string) (ts : ast.TypeSpec)
    (found : Found) :
  (∀ p t, cache_only_resolving (rec p t)) →
  cache_only_resolving (inspectTypeSpec rec f pkgPath typeName ts found).
Proof.
  intros Hrec. unfold inspectTypeSpec.
  destruct (negb _); [apply resolving_ret|].
  destruct (ast.TypeSpec_Type ts) as [alias| | | | | | |]; try apply resolving_ret.
  destruct (strings.Contains alias "."); [|by apply resolving_recurseInto].
  destruct (strings.Split alias ".") as [|a [|b [|c l]]]; try apply resolving_ret.
  intros s.
  pose proof (resolving_liftG _ (cache_only_findImportSpecForAlias_loop
                                   (ast.Imports f) a) s) as Hl.
  fold (findImportSpecForAlias f a) in Hl.
  destruct (liftG (findImportSpecForAlias f a) s) as [[info|e|e|] s1];
    cbn [snd] in *; try done.
  eapply cache_grown_trans; [exact Hl|].
  apply resolving_bind; [apply resolving_deref|].
  intros info'. by apply resolving_recurseInto.
Qed.

Lemma resolving_inspectFile
    (rec : string → string → M Resolving (list ast.Field * string))
    (f : ast.File) (pkgPath typeName : string) (tss : list ast.TypeSpec)
    (found : Found) :
  (∀ p t, cache_only_resolving (rec p t)) →
  cache_only_resolving (inspectFile rec f pkgPath typeName tss found).
Proof.
  intros Hrec. revert found. induction tss as [|ts rest IH]; intros found;
    [apply resolving_ret|].
  cbn [inspectFile]. apply resolving_bind; [by apply resolving_inspectTypeSpec|].
  apply IH.
Qed.

Lemma resolving_findStructInFiles
    (rec : string → string → M Resolving (list ast.Field * string))
    (pkgPath typeName : string) (gofiles : list string) :
  (∀ p t, cache_only_resolving (rec p t)) →
  cache_only_resolving (findStructInFiles rec pkgPath typeName gofiles).
Proof.
  intros Hrec. induction gofiles as [|file rest IH]; [apply resolving_fail|].
  cbn [findStructInFiles]. destruct (parser_ParseFile file) as [f|]; [|done].
  apply resolving_bind; [by apply resolving_inspectFile|].
  intros found. destruct (foundStruct found); [apply resolving_ret|].
  destruct (foundErr found); [apply resolving_fail|done].
Qed.

Lemma resolving_findStructDefinitionRecursive (fuel : nat)
    (pkgPath typeName : string) :
  cache_only_resolving (findStructDefinitionRecursive fuel pkgPath typeName).
Proof.
  revert pkgPath typeName. induction fuel as [|fuel IH]; intros pkgPath typeName;
    [apply resolving_lift|].
  cbn [findStructDefinitionRecursive]. apply resolving_bind.
  { intros s. apply cache_grown_refl. }
  intros s0. destruct (decide _); [apply resolving_fail|].
  apply resolving_bind. { intros s. apply cache_grown_refl. }
  intros _. apply resolving_bind;
    [apply resolving_liftG, cache_only_getPackage|].
  intros [pkg [err|]]; [apply resolving_fail|].
  apply resolving_bind; [apply resolving_deref|]. intros pkg'.
  by apply resolving_findStructInFiles.
Qed.

Lemma cache_only_findStructDefinition (fuel : nat) (pkgPath typeName : string) :
  cache_only (findStructDefinition fuel pkgPath typeName).
Proof.
  intros g. unfold findStructDefinition.
  pose proof (resolving_findStructDefinitionRecursive fuel pkgPath typeName (g, ∅))
    as Hr.
  by destruct (findStructDefinitionRecursive fuel pkgPath typeName (g, ∅)).
Qed.

Lemma cache_only_extractFields_loop
    (rec : string → string → M Generator (list FieldDefinition))
    (structPkgPath : string) (flds : list ast.Field)
    (fields : list FieldDefinition) :
  (∀ p t, cache_only (rec p t)) →
  cache_only (extractFields_loop rec structPkgPath flds fields).
Proof.
  intros Hrec. revert fields. induction flds as [|fld rest IH]; intros fields;
    [apply cache_only_ret|].
  cbn [extractFields_loop]. apply cache_only_bind.
  { apply cache_only_wrap, cache_only_findImportSpecsForExpression. }
  intros infos. destruct (decide _); [|apply IH].
  apply cache_only_bind; [|intros efs; apply IH].
  apply cache_only_wrap. unfold expandEmbeddedFields_with.
  apply cache_only_bind; [apply cache_only_resolveTypeForEmbeddedField|].
  intros r. apply Hrec.
Qed.

Lemma cache_only_extractFieldsFromPackage (fuel : nat)
    (pkgPath typeName : string) :
  cache_only (extractFieldsFromPackage fuel pkgPath typeName).
Proof.
  revert pkgPath typeName. induction fuel as [|fuel IH]; intros pkgPath typeName;
    [apply cache_only_lift|].
  cbn [extractFieldsFromPackage]. apply cache_only_bind;
    [apply cache_only_findStructDefinition|].
  intros r. by apply cache_only_extractFields_loop.
Qed.

(** X8 — Resolution only fills the package cache. Finding a struct
    definition and extracting its fields, at any depth and whether they
    succeed or fail, leave the import table, the descriptor store, the
    conversions and the configuration of the generator as they were, and
    keep every entry the package cache already had. *)
Theorem resolution_only_fills_the_package_cache (fuel : nat)
    (pkgPath typeName : string) (g : Generator) :
  let g1 := (findStructDefinition fuel pkgPath typeName g).2 in
  let g2 := (extractFieldsFromPackage fuel pkgPath typeName g).2 in
  cache_grown g g1 ∧ cache_grown g g2.
Proof.
  split; [apply cache_only_findStructDefinition|
          apply cache_only_extractFieldsFromPackage].
Qed.

End with_env.
End resolver_more.

Module extraction_more.

Import imports generator props props_more.

Section with_env.
Context `{GoEnv}.

(** X9 — The type of an embedded field. Through any number of pointer
    stars a plain name [T] resolves to the current package and [T], with no
    package loaded; an array, map, struct, function or other type
    expression is refused as an unsupported embedded field type, and a
    selector whose left side is not a plain name as an unsupported
    selector. *)
Theorem embedded_pointers_are_stripped (n : nat) (name currentPkgPath : string)
    (g : Generator) (e : ast.Expr) :
  resolveTypeForEmbeddedField (Nat.iter n ast.StarExpr (ast.Ident name))
    currentPkgPath g = (Ok (currentPkgPath, name), g) ∧
  (match e with
   | ast.Ident _ | ast.StarExpr _ | ast.SelectorExpr _ _ => True
   | _ => resolveTypeForEmbeddedField (Nat.iter n ast.StarExpr e)
            currentPkgPath g = (Err "unsupported embedded field type", g)
   end) ∧
  (match e with
   | ast.Ident _ => True
   | _ => resolveTypeForEmbeddedField
            (Nat.iter n ast.StarExpr (ast.SelectorExpr e name)) currentPkgPath g
          = (Err "unsupported selector expression for embedded field", g)
   end).
Proof.
  induction n as [|n (IH1 & IH2 & IH3)].
  - split; [done|]. split; by destruct e.
  - split; [exact IH1|]. split; by destruct e.
Qed.

Lemma extractFields_loop_plain_step
    (rec : string → string → M Generator (list FieldDefinition))
    (structPkgPath : string) (fld : ast.Field) (rest : list ast.Field)
    (fields : list FieldDefinition) (g : Generator) :
  plain_field fld →
  extractFields_loop rec structPkgPath (fld :: rest) fields g =
  extractFields_loop rec structPkgPath rest
    (fields ++ plain_fields [fld])%list g.
Proof.
  intros [Hn Ha]. cbn [extractFields_loop].
  unfold findImportSpecsForExpression. rewrite Ha. cbn [List.length].
  unfold bind at 1. unfold wrap at 1.
  destruct (decide (0 = 0)) as [_|?]; [|done]. cbn [ret].
  destruct (decide (List.length (ast.Names fld) = 0)) as [E|_].
  { by destruct (ast.Names fld). }
  unfold plain_fields. simpl. by rewrite app_nil_r.
Qed.

Lemma plain_fields_app (l1 l2 : list ast.Field) :
  plain_fields (l1 ++ l2) = (plain_fields l1 ++ plain_fields l2)%list.
Proof. unfold plain_fields. apply bind_app. Qed.

Lemma extractFields_loop_plain
    (rec : string → string → M Generator (list FieldDefinition))
    (structPkgPath : string) (flds rest : list ast.Field)
    (fields : list FieldDefinition) (g : Generator) :
  Forall plain_field flds →
  extractFields_loop rec structPkgPath (flds ++ rest) fields g =
  extractFields_loop rec structPkgPath rest (fields ++ plain_fields flds)%list g.
Proof.
  intros Hp. revert fields. induction Hp as [|fld flds Hf Hp IH]; intros fields.
  - by rewrite app_nil_r.
  - cbn [app]. rewrite extractFields_loop_plain_step by done. rewrite IH.
    by rewrite <- app_assoc, <- plain_fields_app.
Qed.

(** X10 — A struct of named fields. When the declaration found for a type
    is a struct whose fields all have names and unqualified types, the
    extraction returns one descriptor per declared name, in declaration
    order (a field list [A, B int] gives two), each with the printed type,
    the tag without its back quotes and no imports, in the state the
    lookup of the declaration left. *)
Theorem plain_struct_fields (fuel : nat) (pkgPath typeName structPkgPath : string)
    (flds : list ast.Field) (g g' : Generator) :
  findStructDefinition (S fuel) pkgPath typeName g = (Ok (flds, structPkgPath), g') →
  Forall plain_field flds →
  extractFieldsFromPackage (S fuel) pkgPath typeName g = (Ok (plain_fields flds), g').
Proof.
  intros Hfind Hp. cbn [extractFieldsFromPackage]. unfold bind at 1.
  rewrite Hfind. cbn [fst snd].
  pose proof (extractFields_loop_plain (extractFieldsFromPackage fuel)
                structPkgPath flds [] [] g' Hp) as Hl.
  rewrite app_nil_r in Hl. by rewrite Hl.
Qed.

Lemma extractFields_loop_embedded_step
    (rec : string → string → M Generator (list FieldDefinition))
    (structPkgPath : string) (fld : ast.Field) (rest : list ast.Field)
    (fields embeddedFields : list FieldDefinition) (g g' : Generator)
    (pkgPath typeName : string) :
  ast.Names fld = [] →
  pkgAliasVisitor (ast.Type_ fld) = [] →
  resolveTypeForEmbeddedField (ast.Type_ fld) structPkgPath g
    = (Ok (pkgPath, typeName), g) →
  rec pkgPath typeName g = (Ok embeddedFields, g') →
  extractFields_loop rec structPkgPath (fld :: rest) fields g =
  extractFields_loop rec structPkgPath rest (fields ++ embeddedFields)%list g'.
Proof.
  intros Hn Ha Hr Hrec. cbn [extractFields_loop].
  unfold findImportSpecsForExpression. rewrite Ha, Hn. cbn [List.length].
  unfold bind at 1. unfold wrap at 1.
  destruct (decide (0 = 0)) as [_|?]; [|done]. cbn [ret].
  unfold bind at 1. unfold wrap at 1. unfold expandEmbeddedFields_with.
  unfold bind at 1. rewrite Hr. cbn [fst snd]. by rewrite Hrec.
Qed.

(** X11 — Embedded fields are spliced in place. For a struct whose fields
    are named ones, then an embedded field, then named ones again, the
    descriptors are those of the fields before, then whatever the
    extraction of the embedded type returned, then those of the fields
    after. *)
Theorem embedded_fields_are_spliced_in_place
    (rec : string → string → M Generator (list FieldDefinition))
    (structPkgPath : string) (before after : list ast.Field) (fld : ast.Field)
    (embeddedFields : list FieldDefinition) (g g' : Generator)
    (pkgPath typeName : string) :
  Forall plain_field before → Forall plain_field after →
  ast.Names fld = [] →
  pkgAliasVisitor (ast.Type_ fld) = [] →
  resolveTypeForEmbeddedField (ast.Type_ fld) structPkgPath g
    = (Ok (pkgPath, typeName), g) →
  rec pkgPath typeName g = (Ok embeddedFields, g') →
  extractFields_loop rec structPkgPath (before ++ fld :: after) [] g =
  (Ok (plain_fields before ++ embeddedFields ++ plain_fields after)%list, g').
Proof.
  intros Hb Ha Hn Hv Hr Hrec.
  rewrite extractFields_loop_plain by done.
  rewrite (extractFields_loop_embedded_step rec _ _ _ _ embeddedFields g g'
             pkgPath typeName) by done.
  pose proof (extractFields_loop_plain rec structPkgPath after []
                (([] ++ plain_fields before) ++ embeddedFields)%list g' Ha) as Hl.
  rewrite app_nil_r in Hl. rewrite Hl. cbn [extractFields_loop ret app].
  by rewrite <- app_assoc.
Qed.

Lemma NewFieldDefinition_loop_imports (infos : list ImportInfo) (idx : nat)
    (st : string * list string) :
  (NewFieldDefinition_loop idx infos st).2 = (st.2 ++ (Path <$> infos))%list.
Proof.
  revert idx st. induction infos as [|info infos IH]; intros idx st; simpl.
  - by rewrite app_nil_r.
  - rewrite IH. simpl. by rewrite <- app_assoc.
Qed.

(** X12 — [NewFieldDefinition] keeps the name and the tag, and lists as
    imports of the type template the paths of the import infos, in order:
    placeholder [ImportN] stands for the [N]th of them. Without import
    infos the type text is kept as it is. *)
Theorem NewFieldDefinition_imports (name typeStr tag : string)
    (importInfos : list ImportInfo) :
  let fd := NewFieldDefinition name typeStr tag importInfos in
  Name fd = name ∧ Tag fd = tag ∧
  Imports (FieldDefinition_Template fd) = Path <$> importInfos ∧
  TypeTemplate (FieldDefinition_Template (NewFieldDefinition name typeStr tag []))
  = typeStr.
Proof.
  intros fd. unfold fd, NewFieldDefinition.
  pose proof (NewFieldDefinition_loop_imports importInfos 0 (typeStr, [])) as Hi.
  destruct (NewFieldDefinition_loop 0 importInfos (typeStr, [])) as [tt imps] eqn:E.
  simpl in *. by repeat split.
Qed.

End with_env.

Import example.

Lemma plain_struct_fields_witness :
  (extractFieldsFromPackage 1 "example.com/models1" "User" g0).1 =
  Ok [a_field "ID" "string" (json "id"); a_field "Name" "string" (json "name");
      a_field "Age" "int" (json "age")].
Proof.
  rewrite (plain_struct_fields 0 "example.com/models1" "User"
             "example.com/models1" user_fields g0
             (findStructDefinition 1 "example.com/models1" "User" g0).2).
  - reflexivity.
  - reflexivity.
  - unfold user_fields. repeat constructor; done.
Defined.

Lemma embedded_fields_are_spliced_in_place_witness :
  extractFields_loop (λ _ _, ret [a_field "X" "int" ""]) "example.com/p"
    ([field "A" (ast.Ident "int") ""] ++
     embedded (ast.StarExpr (ast.Ident "Inner")) ::
     [field "B" (ast.Ident "int") ""]) [] g0
  = (Ok [a_field "A" "int" ""; a_field "X" "int" ""; a_field "B" "int" ""], g0).
Proof.
  rewrite (embedded_fields_are_spliced_in_place
             (λ _ _, ret [a_field "X" "int" ""]) "example.com/p"
             [field "A" (ast.Ident "int") ""] [field "B" (ast.Ident "int") ""]
             (embedded (ast.StarExpr (ast.Ident "Inner")))
             [a_field "X" "int" ""] g0 g0 "example.com/p" "Inner").
  - reflexivity.
  - repeat constructor; done.
  - repeat constructor; done.
  - reflexivity.
  - reflexivity.
  - reflexivity.
  - reflexivity.
Defined.

End extraction_more.

Module visitor_more.

Import imports generator props props_more.

Lemma seen_ok_add (st : list string * gset string) (name : string) :
  seen_ok st → name ∉ st.2 →
  seen_ok ((st.1 ++ [name])%list, {[name]} ∪ st.2).
Proof.
  intros [Hnd Hiff] Hn. split; simpl.
  - apply NoDup_app. split; [done|]. split; [|apply NoDup_singleton].
    intros x Hx ->%list_elem_of_singleton. by apply Hn, Hiff.
  - intros x. rewrite elem_of_app, list_elem_of_singleton, elem_of_union,
      elem_of_singleton, Hiff. tauto.
Qed.

Lemma visit_seen_ok (e : ast.Expr) (st : list string * gset string) :
  seen_ok st → seen_ok (visit e st).
Proof.
  revert e st. fix IH 1. intros e st Hst.
  destruct e as [n|X|X Sel|Elt|K V|Fields|Params Results|t]; cbn [visit].
  - done.
  - by apply IH.
  - destruct X; try done. destruct (decide _); [done|]. by apply seen_ok_add.
  - by apply IH.
  - apply IH. by apply IH.
  - revert st Hst. induction Fields as [|f fs IHf]; intros st Hst; [done|].
    apply IHf. by apply IH.
  - assert (Hfs : ∀ (fs : list ast.Field) st, seen_ok st →
              seen_ok ((fix visit_fields (fs : list ast.Field) st :=
                          match fs with
                          | [] => st
                          | f :: fs' => visit_fields fs' (visit (ast.Type_ f) st)
                          end) fs st)).
    { induction fs as [|f fs IHf]; intros st' Hst'; [done|].
      apply IHf. by apply IH. }
    destruct Params as [ps|], Results as [rs|]; auto.
  - done.
Qed.

(** X13 — [pkgAliasVisitor] lists every package qualifier of a type
    expression once: its result has no duplicates, so each qualifier gets
    one import placeholder. *)
Theorem pkgAliasVisitor_NoDup (expression : ast.Expr) :
  NoDup (pkgAliasVisitor expression).
Proof.
  unfold pkgAliasVisitor.
  apply (visit_seen_ok expression ([], ∅)). split; [constructor|]. simpl.
  intros x. split; [by intros ?%elem_of_nil|by intros ?%elem_of_empty].
Qed.

End visitor_more.

Module assembler_more.

Import imports generator props props_more.

Section with_env.
Context `{GoEnv}.

(** X15 — The body is the lines of the destination fields, in order. The
    loop over the destination fields returns the lines it was given followed
    by the non-empty line of each destination field in field order, and
    reports an error result exactly when it was told so or some line is
    fallible; it panics where the first line that panics does. *)
Theorem body_is_the_lines_in_field_order (g : Generator) (mapping : Mapping)
    (byName byTag : gmap string FieldDefinition) (tag : string)
    (sourceFields destFields : list FieldDefinition)
    (assigns : list string) (hasError : bool) :
  assignsLoop g mapping byName byTag tag sourceFields destFields assigns hasError
  = res_bind (fieldLines (fieldLine g mapping byName byTag tag sourceFields)
                destFields)
      (λ ls, Ok ((assigns ++ filter (λ text, text ≠ "") ls.*1)%list,
                 hasError || existsb snd ls)).
Proof.
  revert assigns hasError.
  induction destFields as [|d rest IH]; intros assigns hasError.
  - simpl. by rewrite app_nil_r, orb_false_r.
  - cbn [assignsLoop fieldLines]. fold (fieldLine g mapping byName byTag tag
                                          sourceFields d).
    destruct (fieldLine g mapping byName byTag tag sourceFields d)
      as [[text flag]|e|e|]; cbn [res_bind]; try done.
    rewrite IH.
    destruct (fieldLines (fieldLine g mapping byName byTag tag sourceFields) rest)
      as [ls|e|e|]; cbn [res_bind]; try done.
    cbn [fmap list_fmap fst snd existsb]. f_equal. f_equal.
    + rewrite filter_cons. destruct (String.eqb_spec text "") as [->|Hne].
      * cbn [negb]. by destruct (decide _).
      * cbn [negb]. destruct (decide (text ≠ "")); [|done].
        by rewrite <- app_assoc.
    + by destruct flag, hasError.
Qed.

Lemma findConversion_loop_member (g : Generator) (rules : list Conversion)
    (s d : TypeWithImportsTemplate) (conv : Conversion) (isReverse : bool) :
  findConversion_loop g rules s d = Ok (Some (conv, isReverse)) →
  conv ∈ rules ∧
  (isReverse = true → Tmpl (ReverseConversion conv) ≠ "").
Proof.
  induction rules as [|r rules IH]; [done|]. cbn [findConversion_loop].
  destruct (equalsFunc g r s d) as [[|]| | |]; cbn [res_bind]; try done.
  { intros [= <- <-]. split; [by left|done]. }
  destruct (reverseEqualsFunc g r s d) as [[|]| | |] eqn:Er; cbn [res_bind];
    try done.
  - intros [= <- <-]. split; [by left|]. intros _.
    unfold reverseEqualsFunc in Er.
    destruct (Equals _ s _) as [[|]| | |]; cbn [res_bind] in Er; try done.
    destruct (Equals _ d _) as [[|]| | |]; cbn [res_bind] in Er; try done.
    injection Er as Er. apply negb_true_iff in Er. by apply String.eqb_neq.
  - intros Hf. destruct (IH Hf) as [Hin Hr]. split; [by right|done].
Qed.

Lemma findConversion_member (g : Generator) (s d : TypeWithImportsTemplate)
    (convs customs : list Conversion) (conv : Conversion) (isReverse : bool) :
  findConversion g s d convs customs = Ok (Some (conv, isReverse)) →
  conv ∈ (customs ++ convs)%list ∧
  (isReverse = true → Tmpl (ReverseConversion conv) ≠ "").
Proof.
  unfold findConversion.
  destruct (findConversion_loop g customs s d) as [[[c b]|]| | |] eqn:E1;
    cbn [res_bind]; try done.
  - intros [= <- <-]. destruct (findConversion_loop_member _ _ _ _ _ _ E1).
    split; [apply elem_of_app; by left|done].
  - intros E2. destruct (findConversion_loop_member _ _ _ _ _ _ E2).
    split; [apply elem_of_app; by right|done].
Qed.

Lemma assignmentWithConversion_flag (g : Generator) (sourceExpr : string)
    (dest : FieldDefinition) (found : option (Conversion * bool))
    (text : string) :
  assignmentWithConversion g sourceExpr dest (fst <$> found)
    (default false (snd <$> found)) = Ok (text, true) →
  ∃ conv isReverse, found = Some (conv, isReverse) ∧
    if isReverse then Error (ReverseConversion conv) = true ∧
                      Tmpl (ReverseConversion conv) ≠ ""
    else Error (Conversion_Conversion conv) = true.
Proof.
  destruct found as [[conv isReverse]|]; [|done]. simpl.
  intros Hline. exists conv, isReverse. split; [done|].
  destruct isReverse.
  - unfold ExecuteReverseConversionTemplate in Hline.
    destruct (String.eqb_spec (Tmpl (ReverseConversion conv)) "") as [?|Hne];
      [done|].
    unfold executeTemplate in Hline.
    destruct (template_Run _ _ _); [|done|done]. by injection Hline as _ ->.
  - unfold ExecuteConversionTemplate, executeTemplate in Hline.
    destruct (template_Run _ _ _); [|done|done]. by injection Hline as _ ->.
Qed.

(** X16 — A line is fallible only through a flagged rule. If the line of
    a field is fallible, some conversion rule of the mapping or of the
    global list is flagged as returning an error, in its forward template
    or in a reverse template that is not empty. *)
Theorem fallible_line_comes_from_a_flagged_rule (g : Generator)
    (source : option FieldDefinition) (dest : FieldDefinition)
    (convs customs : list Conversion) (additionalArg : option AdditionalArg)
    (text : string) :
  assignmentLine g source dest convs customs additionalArg = Ok (text, true) →
  ∃ conv, conv ∈ (customs ++ convs)%list ∧
          (Error (Conversion_Conversion conv) = true ∨
           (Error (ReverseConversion conv) = true ∧
            Tmpl (ReverseConversion conv) ≠ "")).
Proof.
  unfold assignmentLine. intros Hline.
  assert (Hcase : ∃ s sourceExpr found,
            findConversion g s (FieldDefinition_Template dest) convs customs
              = Ok found ∧
            assignmentWithConversion g sourceExpr dest (fst <$> found)
              (default false (snd <$> found)) = Ok (text, true)).
  { destruct additionalArg as [arg|]; [|destruct source as [src|]; [|done]].
    - destruct (findConversion g (AdditionalArg_Template arg) _ convs customs)
        as [found| | |] eqn:E; cbn [res_bind] in Hline; try done. eauto.
    - destruct (findConversion g (FieldDefinition_Template src) _ convs customs)
        as [found| | |] eqn:E; cbn [res_bind] in Hline; try done. eauto. }
  destruct Hcase as (s & sourceExpr & found & Hfind & Hwith).
  destruct (assignmentWithConversion_flag _ _ _ _ _ Hwith)
    as (conv & isReverse & -> & Hflag).
  destruct (findConversion_member _ _ _ _ _ _ _ Hfind) as [Hin _].
  exists conv. split; [done|]. destruct isReverse; [by right|by left].
Qed.

Lemma line_without_rules (g : Generator) (mapping : Mapping)
    (byName byTag : gmap string FieldDefinition) (tag : string)
    (sourceFields : list FieldDefinition) (d : FieldDefinition) :
  Conversions_Conversions (conversions g) = [] →
  CustomConversions mapping = [] →
  ∃ text, fieldLine g mapping byName byTag tag sourceFields d = Ok (text, false) ∧
          text ≠ "".
Proof.
  intros Hc Hm. unfold fieldLine, assignmentLine. rewrite Hc, Hm.
  destruct (findAdditionalArg _ d) as [arg|];
    [|destruct (findSourceForDest _ _ _ _ _ _) as [src|]]; simpl; eauto.
Qed.

(** X17 — Without conversion rules the body cannot fail. When neither the
    global list nor the mapping has a conversion rule, the loop over the
    destination fields returns without a panic, adds exactly one line per
    destination field and leaves the error flag as it was. *)
Theorem body_without_conversion_rules (g : Generator) (mapping : Mapping)
    (byName byTag : gmap string FieldDefinition) (tag : string)
    (sourceFields destFields : list FieldDefinition)
    (assigns : list string) (hasError : bool) :
  Conversions_Conversions (conversions g) = [] →
  CustomConversions mapping = [] →
  ∃ lines,
    assignsLoop g mapping byName byTag tag sourceFields destFields assigns hasError
    = Ok ((assigns ++ lines)%list, hasError) ∧
    List.length lines = List.length destFields.
Proof.
  intros Hc Hm. revert assigns.
  induction destFields as [|d rest IH]; intros assigns.
  - exists []. by rewrite app_nil_r.
  - cbn [assignsLoop]. fold (fieldLine g mapping byName byTag tag sourceFields d).
    destruct (line_without_rules g mapping byName byTag tag sourceFields d Hc Hm)
      as (text & -> & Hne).
    cbn [res_bind fst snd]. destruct (String.eqb_spec text "") as [?|_]; [done|].
    cbn [negb]. destruct (IH (assigns ++ [text])%list) as (lines & -> & Hlen).
    exists (text :: lines). split; [by rewrite <- app_assoc|]. simpl. by rewrite Hlen.
Qed.

(** X18 — An additional argument pre-empts the matching. When an
    additional argument is bound to a destination field (the first one
    declared for it is taken), the line of the field is the one for that
    argument whatever the source fields, the overrides and the tag say; with
    no conversion rule for the pair of types it is [dst.F = arg]. *)
Theorem additional_argument_preempts_matching (g : Generator) (mapping : Mapping)
    (byName byTag : gmap string FieldDefinition) (tag : string)
    (sourceFields : list FieldDefinition) (destField : FieldDefinition)
    (arg : AdditionalArg) :
  findAdditionalArg (FuncAdditionalArgs mapping) destField = Some arg →
  arg ∈ FuncAdditionalArgs mapping ∧
  AdditionalArg_DestField arg = Name destField ∧
  fieldLine g mapping byName byTag tag sourceFields destField =
    assignmentLine g None destField (Conversions_Conversions (conversions g))
      (CustomConversions mapping) (Some arg) ∧
  (findConversion g (AdditionalArg_Template arg)
     (FieldDefinition_Template destField)
     (Conversions_Conversions (conversions g)) (CustomConversions mapping)
   = Ok None →
   fieldLine g mapping byName byTag tag sourceFields destField =
     Ok ("dst." ++ Name destField ++ " = " ++ AdditionalArg_Name arg, false)).
Proof.
  intros Harg. unfold findAdditionalArg in Harg.
  destruct (find_some _ _ Harg) as [Hin Heq]. apply String.eqb_eq in Heq.
  split; [by apply list_elem_of_In|]. split; [done|].
  unfold fieldLine, findAdditionalArg. rewrite Harg. split; [done|].
  intros Hnone. unfold assignmentLine. by rewrite Hnone.
Qed.

End with_env.

Import example.

Lemma fallible_line_comes_from_a_flagged_rule_witness :
  assignmentLine g0 (Some (a_field "Age" "string" "")) (a_field "Age" "int" "")
    [parse_rule] [] None
  = Ok ("dst.Age, err = strconv.Atoi(src.Age)", true) ∧
  ∃ conv, conv ∈ ([] ++ [parse_rule])%list ∧
          (Error (Conversion_Conversion conv) = true ∨
           (Error (ReverseConversion conv) = true ∧
            Tmpl (ReverseConversion conv) ≠ "")).
Proof.
  split; [reflexivity|].
  apply (fallible_line_comes_from_a_flagged_rule g0
           (Some (a_field "Age" "string" "")) (a_field "Age" "int" "")
           [parse_rule] [] None "dst.Age, err = strconv.Atoi(src.Age)").
  reflexivity.
Defined.

Lemma body_without_conversion_rules_witness :
  ∃ lines,
    assignsLoop g0 mapping_with_arg ∅ ∅ "json" three_sources
      [dest_name; src_nick] [] false = Ok (([] ++ lines)%list, false) ∧
    List.length lines = 2.
Proof.
  apply (body_without_conversion_rules g0 mapping_with_arg ∅ ∅ "json"
           three_sources [dest_name; src_nick] [] false); reflexivity.
Defined.

Lemma additional_argument_preempts_matching_witness :
  fieldLine g0 mapping_with_arg
    (indexSourceFields "json" three_sources).1
    (indexSourceFields "json" three_sources).2 "json" three_sources dest_name
  = Ok ("dst.Name = about", false).
Proof.
  destruct (additional_argument_preempts_matching g0 mapping_with_arg
              (indexSourceFields "json" three_sources).1
              (indexSourceFields "json" three_sources).2 "json" three_sources
              dest_name about_arg eq_refl) as (_ & _ & _ & Hline).
  apply Hline. reflexivity.
Defined.

End assembler_more.

Module matcher_more.

Import imports generator props props_more.

Section with_env.
Context `{GoEnv}.

(** X21 — A tag value is never [-] and never holds a comma, whatever the
    annotation and the key are. *)
Theorem tagValue_never_dash_nor_comma (tag key : string) :
  tagValue tag key ≠ "-" ∧ strings.Contains (tagValue tag key) "," = false.
Proof.
  unfold tagValue. destruct (String.eqb tag ""); [done|].
  destruct (String.eqb (StructTag_Get tag key) ""); [done|].
  rewrite tag_facts.Split_head. simpl.
  destruct (String.eqb_spec (before_first_comma (StructTag_Get tag key)) "-")
    as [?|Hne]; [done|].
  split; [done|]. apply tag_facts.before_first_comma_no_comma.
Qed.

Lemma byTag_no_empty_key (tag : string) (sourceFields : list FieldDefinition) :
  (indexSourceFields tag sourceFields).2 !! "" = None.
Proof.
  induction sourceFields as [|x l IH] using rev_ind; [done|].
  rewrite matcher_facts.indexSourceFields_snoc. cbn [snd].
  destruct (String.eqb_spec (tagValue (Tag x) tag) "") as [E|Hne]; [done|].
  cbn [negb]. by rewrite lookup_insert_ne.
Qed.

(** X20 — The lookup maps index the source fields. An entry of the name
    map is a source field of that name, and a name has no entry exactly
    when no source field has it; an entry of the tag map is a source field
    with that tag value, which is not empty, and a value has no entry
    exactly when it is empty or no source field has it. *)
Theorem lookup_maps_index_the_sources (tag : string)
    (sourceFields : list FieldDefinition) (name v : string) :
  let maps := indexSourceFields tag sourceFields in
  (∀ f, maps.1 !! name = Some f → f ∈ sourceFields ∧ Name f = name) ∧
  (maps.1 !! name = None ↔ ∀ f, f ∈ sourceFields → Name f ≠ name) ∧
  (∀ f, maps.2 !! v = Some f →
        f ∈ sourceFields ∧ tagValue (Tag f) tag = v ∧ v ≠ "") ∧
  (maps.2 !! v = None ↔
   v = "" ∨ ∀ f, f ∈ sourceFields → tagValue (Tag f) tag ≠ v).
Proof.
  intros maps. unfold maps.
  rewrite matcher_facts.byName_last. unfold last_named.
  split; [|split; [|split]].
  - intros f Hf. apply find_some in Hf as [Hin Heq].
    split; [|by apply String.eqb_eq].
    apply list_elem_of_In. by apply in_rev.
  - split.
    + intros Hn f Hin. apply String.eqb_neq.
      apply (find_none _ _ Hn). apply in_rev. rewrite rev_involutive.
      by apply list_elem_of_In.
    + intros Hall. destruct (List.find _ _) as [f|] eqn:Hf; [|done].
      apply find_some in Hf as [Hin Heq]. apply String.eqb_eq in Heq.
      exfalso. apply (Hall f); [|done]. apply list_elem_of_In. by apply in_rev.
  - intros f Hf. destruct (decide (v = "")) as [->|Hne].
    { by rewrite byTag_no_empty_key in Hf. }
    rewrite matcher_facts.byTag_last in Hf by done. unfold last_tagged in Hf.
    apply find_some in Hf as [Hin Heq]. apply String.eqb_eq in Heq.
    split; [|done]. apply list_elem_of_In. by apply in_rev.
  - destruct (decide (v = "")) as [->|Hne].
    { rewrite byTag_no_empty_key. split; [by left|done]. }
    rewrite matcher_facts.byTag_last by done. unfold last_tagged. split.
    + intros Hn. right. intros f Hin. apply String.eqb_neq.
      apply (find_none _ _ Hn). apply in_rev. rewrite rev_involutive.
      by apply list_elem_of_In.
    + intros [?|Hall]; [done|].
      destruct (List.find _ _) as [f|] eqn:Hf; [|done].
      apply find_some in Hf as [Hin Heq]. apply String.eqb_eq in Heq.
      exfalso. apply (Hall f); [|done]. apply list_elem_of_In. by apply in_rev.
Qed.

(** X19 — The descriptor store is keyed by the text of the type template
    alone. When the two templates of a mapping have the same text (the
    same type name in two packages), storing the source fields and then
    the destination fields leaves the destination fields under both, and
    the function generated is the one generated without the source fields
    ever being stored. *)
Theorem same_template_text_shares_the_descriptor (g : Generator)
    (mapping : Mapping) (fromFields toFields : list FieldDefinition) :
  TypeTemplate (From mapping) = TypeTemplate (To mapping) →
  let stored :=
    AddFields (AddFields g (TypeTemplate (From mapping)) fromFields)
      (TypeTemplate (To mapping)) toFields in
  GetFields stored (TypeTemplate (From mapping)) = Some toFields ∧
  GetFields stored (TypeTemplate (To mapping)) = Some toFields ∧
  generateFunction stored mapping =
    generateFunction (AddFields g (TypeTemplate (To mapping)) toFields) mapping.
Proof.
  intros E stored. unfold stored, GetFields, AddFields.
  cbn [typeToFieldsMap importManager packageManager conversions config].
  rewrite E, insert_insert_eq, lookup_insert_eq. done.
Qed.

End with_env.

Import example.

Lemma same_template_text_shares_the_descriptor_witness :
  GetFields
    (AddFields (AddFields g0 (TypeTemplate (From same_text_mapping)) three_sources)
       (TypeTemplate (To same_text_mapping)) [dest_name])
    (TypeTemplate (From same_text_mapping)) = Some [dest_name].
Proof.
  destruct (same_template_text_shares_the_descriptor g0 same_text_mapping
              three_sources [dest_name] eq_refl) as (Hfrom & _).
  exact Hfrom.
Defined.

End matcher_more.

Module generate_more.

Import imports generator props props_more.

Section with_env.
Context `{GoEnv}.

Lemma same_inputs_refl (g : Generator) : same_inputs g g.
Proof. by split. Qed.

Lemma same_inputs_trans (g1 g2 g3 : Generator) :
  same_inputs g1 g2 → same_inputs g2 g3 → same_inputs g1 g3.
Proof. intros [? ?] [? ?]. split; congruence. Qed.

Lemma keeps_bind {A B} (m : M Generator A) (k : A → M Generator B) :
  keeps_inputs m → (∀ a, keeps_inputs (k a)) → keeps_inputs (bind m k).
Proof.
  intros Hm Hk g. unfold bind. specialize (Hm g).
  destruct (m g) as [[a|e|e|] g1]; cbn [snd] in *; try done.
  eapply same_inputs_trans; [exact Hm|apply Hk].
Qed.

Lemma keeps_modify (f : Generator → Generator) :
  (∀ g, same_inputs g (f g)) → keeps_inputs (modify f).
Proof. intros Hf g. apply Hf. Qed.

Lemma keeps_get : keeps_inputs (@get Generator).
Proof. intros g. apply same_inputs_refl. Qed.

Lemma keeps_wrap {A} (pre : string) (m : M Generator A) :
  keeps_inputs m → keeps_inputs (wrap pre m).
Proof.
  intros Hm g. unfold wrap. specialize (Hm g).
  by destruct (m g) as [[a|e|e|] g1].
Qed.

Lemma keeps_lift {A} (r : Res A) : keeps_inputs (lift_res r).
Proof. intros g. apply same_inputs_refl. Qed.

Lemma same_inputs_addImports (imps : list string) (g : Generator) :
  same_inputs g (addImports imps g).
Proof. by split. Qed.

Lemma same_inputs_foldl {A} (f : Generator → A → Generator) (l : list A)
    (g : Generator) :
  (∀ g a, same_inputs g (f g a)) → same_inputs g (foldl f g l).
Proof.
  intros Hf. revert g. induction l as [|a l IH]; intros g;
    [apply same_inputs_refl|].
  simpl. eapply same_inputs_trans; [apply Hf|apply IH].
Qed.

Lemma keeps_extractFor (fuel : nat) (pre : string) (def : StructDefinition) :
  keeps_inputs (extractFor fuel pre def).
Proof.
  intros g. unfold extractFor.
  pose proof (resolver_more.cache_only_extractFieldsFromPackage fuel
                (default "" (head (Imports def))) (GetUnaliasedType def) g)
    as (_ & _ & Hc & Hcfg & _).
  destruct (extractFieldsFromPackage fuel _ _ g) as [[a|e|e|] g1];
    cbn [snd] in *; by split.
Qed.

Lemma keeps_generateMapping (fuel : nat) (mapping : Mapping) :
  keeps_inputs (generateMapping fuel mapping).
Proof.
  unfold generateMapping.
  apply keeps_bind.
  { apply keeps_modify. intros g. apply same_inputs_foldl.
    intros g' c. apply same_inputs_addImports. }
  intros _. apply keeps_bind.
  { apply keeps_modify. intros g. apply same_inputs_foldl.
    intros g' c. apply same_inputs_addImports. }
  intros _. apply keeps_bind;
    [apply keeps_modify; intros g; apply same_inputs_addImports|].
  intros _. apply keeps_bind;
    [apply keeps_modify; intros g; apply same_inputs_addImports|].
  intros _. apply keeps_bind; [apply keeps_extractFor|].
  intros fromFields. apply keeps_bind.
  { apply keeps_modify. intros g. unfold addFieldImports.
    apply same_inputs_foldl. intros g' f. apply same_inputs_addImports. }
  intros _. apply keeps_bind; [apply keeps_extractFor|].
  intros toFields. apply keeps_bind.
  { apply keeps_modify. intros g. unfold addFieldImports.
    apply same_inputs_foldl. intros g' f. apply same_inputs_addImports. }
  intros _. apply keeps_bind; [apply keeps_modify; by split|].
  intros _. apply keeps_bind; [apply keeps_modify; by split|].
  intros _. apply keeps_bind; [apply keeps_get|].
  intros g. apply keeps_wrap, keeps_lift.
Qed.

Lemma generateMappings_result (fuel : nat) (mappings : list Mapping)
    (funcs out : list string) (g g' : Generator) :
  generateMappings fuel mappings funcs g = (Ok out, g') →
  same_inputs g g' ∧
  ∃ added, out = (funcs ++ added)%list ∧
           List.length added = List.length mappings.
Proof.
  revert funcs g. induction mappings as [|m rest IH]; intros funcs g.
  - intros [= <- <-]. split; [apply same_inputs_refl|].
    exists []. by rewrite app_nil_r.
  - cbn [generateMappings]. unfold bind at 1.
    pose proof (keeps_generateMapping fuel m g) as Hk.
    destruct (generateMapping fuel m g) as [[code|e|e|] g1]; try done.
    cbn [snd] in Hk. intros Hrest. destruct (IH _ _ Hrest) as (Hs & added & -> & Hl).
    split; [by eapply same_inputs_trans|].
    exists (code :: added). split; [by rewrite <- app_assoc|]. simpl. by rewrite Hl.
Qed.

(** X22 — The document of a successful run. When [Generate] returns a
    text, the configuration is unchanged and the text is, in this order:
    the marker comment, the package clause of the configured package name,
    a blank line, the import block, a blank line, and the function text
    followed by a line end. The function text is as many functions as the
    configuration has mappings, joined by blank lines; the import block is
    empty when no path is registered and otherwise holds one line (a tab,
    the alias, a space, the quoted path) for each registered path whose
    alias followed by a dot occurs in the function text. *)
Theorem generated_document_shape (fuel : nat) (range_order : RangeOrder)
    (config : Config) (conversions : Conversions) (code : string)
    (g' : Generator) :
  range_ok range_order →
  Generate fuel range_order (NewGenerator config conversions) = (Ok code, g') →
  generator.config g' = config ∧
  ∃ (funcs : list string) (es : list (string * string)),
    let funcCode := strings.Join funcs (nl ++ nl) in
    let table := imports.imports (importManager g') in
    let lines :=
      (λ e : string * string, tab ++ e.2 ++ " " ++ dquote ++ e.1 ++ dquote) <$> es in
    List.length funcs = List.length (Mappings config) ∧
    NoDup es.*1 ∧
    (∀ path alias, (path, alias) ∈ es ↔
       table !! path = Some alias ∧
       strings.Contains funcCode (alias ++ ".") = true) ∧
    code =
      "// Code generated by structmap; DO NOT EDIT." ++ nl ++
      "package " ++ OutPackageName config ++ nl ++ nl ++
      (if decide (size table = 0) then ""
       else "import (" ++ nl ++ strings.Join lines nl ++ nl ++ ")") ++ nl ++ nl ++
      funcCode ++ nl.
Proof.
  intros Hok.
  rewrite generate_facts.Generate_split. unfold generateFuncs, bind, modify, get.
  cbn [fst snd]. set (g1 := foldl _ _ _).
  assert (H1 : same_inputs (NewGenerator config conversions) g1).
  { apply same_inputs_foldl. intros g a. apply same_inputs_addImports. }
  destruct H1 as [Hcfg _]. rewrite Hcfg. cbn [generator.config NewGenerator].
  destruct (generateMappings fuel (Mappings config) [] g1) as [[funcs|e|e|] g2]
    eqn:Hm; try done.
  destruct (generateMappings_result _ _ _ _ _ _ Hm) as ([Hc2 _] & added & -> & Hl).
  intros [= <- <-]. rewrite Hc2, Hcfg. split; [done|].
  cbn [app NewGenerator generator.config].
  exists added,
    (filter (referenced (strings.Join added (nl ++ nl)))
       (range_order (imports.imports (importManager g2)))).
  destruct (imports_facts.kept_entries range_order
              (imports.imports (importManager g2))
              (strings.Join added (nl ++ nl)) Hok) as (_ & Hin & _).
  cbn zeta. split; [done|]. split; [by apply imports_facts.kept_paths_once|].
  split; [done|].
  unfold document, RenderImports, importLines, importLine.
  by destruct (decide (size (imports.imports (importManager g2)) = 0)).
Qed.

Lemma ExecuteTemplate_rp (t : TypeWithImportsTemplate) (im : ImportManager) :
  returns_or_panics (ExecuteTemplate t im).
Proof. unfold ExecuteTemplate. by destruct (template_Run _ _ _). Qed.

Lemma rp_bind {A B} (r : Res A) (k : A → Res B) :
  returns_or_panics r → (∀ a, returns_or_panics (k a)) →
  returns_or_panics (res_bind r k).
Proof. destruct r; simpl; auto. Qed.

Lemma Equals_rp (t u : TypeWithImportsTemplate) (im : ImportManager) :
  returns_or_panics (Equals t u im).
Proof.
  unfold Equals. apply rp_bind; [apply ExecuteTemplate_rp|]. intros a.
  apply rp_bind; [apply ExecuteTemplate_rp|]. by intros b.
Qed.

Lemma findConversion_loop_rp (g : Generator) (rules : list Conversion)
    (s d : TypeWithImportsTemplate) :
  returns_or_panics (findConversion_loop g rules s d).
Proof.
  induction rules as [|r rules IH]; [done|]. cbn [findConversion_loop].
  apply rp_bind.
  { unfold equalsFunc. apply rp_bind; [apply Equals_rp|].
    intros [|]; [apply Equals_rp|done]. }
  intros [|]; [done|]. apply rp_bind.
  { unfold reverseEqualsFunc. apply rp_bind; [apply Equals_rp|].
    intros [|]; [|done]. apply rp_bind; [apply Equals_rp|]. by intros [|]. }
  by intros [|].
Qed.

Lemma assignmentLine_rp (g : Generator) (source : option FieldDefinition)
    (dest : FieldDefinition) (convs customs : list Conversion)
    (arg : option AdditionalArg) :
  returns_or_panics (assignmentLine g source dest convs customs arg).
Proof.
  assert (Hfind : ∀ s d, returns_or_panics (findConversion g s d convs customs)).
  { intros s d. unfold findConversion. apply rp_bind;
      [apply findConversion_loop_rp|].
    intros [found|]; [done|apply findConversion_loop_rp]. }
  assert (Hwith : ∀ e found,
            returns_or_panics (assignmentWithConversion g e dest (fst <$> found)
                                 (default false (snd <$> found)))).
  { intros e [[conv [|]]|]; simpl; [| |done].
    - unfold ExecuteReverseConversionTemplate. destruct (String.eqb _ _); [done|].
      unfold executeTemplate. by destruct (template_Run _ _ _).
    - unfold ExecuteConversionTemplate, executeTemplate.
      by destruct (template_Run _ _ _). }
  unfold assignmentLine. destruct arg as [a|]; [|destruct source as [src|]];
    [| |done]; (apply rp_bind; [apply Hfind|intros found; apply Hwith]).
Qed.

Lemma assignsLoop_rp (g : Generator) (mapping : Mapping)
    (byName byTag : gmap string FieldDefinition) (tag : string)
    (sourceFields destFields : list FieldDefinition)
    (assigns : list string) (hasError : bool) :
  returns_or_panics
    (assignsLoop g mapping byName byTag tag sourceFields destFields assigns
       hasError).
Proof.
  revert assigns hasError. induction destFields as [|d rest IH];
    intros assigns hasError; [done|].
  cbn [assignsLoop]. apply rp_bind; [apply assignmentLine_rp|]. intros line.
  apply IH.
Qed.

Lemma renderParameters_rp (g : Generator) (args : list AdditionalArg)
    (funcArgs : list string) :
  returns_or_panics (renderParameters g args funcArgs).
Proof.
  revert funcArgs. induction args as [|a rest IH]; intros funcArgs; [done|].
  cbn [renderParameters]. apply rp_bind.
  { unfold RenderParameter. apply rp_bind; [apply ExecuteTemplate_rp|]. by intros ?. }
  intros p. apply IH.
Qed.

(** X24 — [generateFunction] returns an error only for a missing
    descriptor. Once the fields of both types of the mapping are stored, as
    [Generate] does before the call, it returns a text or panics in a
    template; and whenever it returns an error, one of the two descriptors
    is missing and the error is the structs-not-found one. *)
Theorem generateFunction_error_only_without_descriptors (g : Generator)
    (mapping : Mapping) (fromFields toFields : list FieldDefinition) :
  returns_or_panics
    (generateFunction
       (AddFields (AddFields g (TypeTemplate (From mapping)) fromFields)
          (TypeTemplate (To mapping)) toFields) mapping) ∧
  (∀ e, generateFunction g mapping = Err e →
        (GetFields g (TypeTemplate (From mapping)) = None ∨
         GetFields g (TypeTemplate (To mapping)) = None) ∧
        e = "structs not found: " ++ TypeTemplate (From mapping) ++ ", " ++
            TypeTemplate (To mapping)).
Proof.
  assert (Hbody : ∀ g0 sourceFields destFields,
    GetFields g0 (TypeTemplate (From mapping)) = Some sourceFields →
    GetFields g0 (TypeTemplate (To mapping)) = Some destFields →
    returns_or_panics (generateFunction g0 mapping)).
  { intros g0 sf df Hs Hd. unfold generateFunction. rewrite Hs, Hd.
    apply rp_bind; [apply assignsLoop_rp|]. intros r. cbn zeta.
    apply rp_bind; [apply ExecuteTemplate_rp|]. intros src.
    apply rp_bind; [apply renderParameters_rp|]. intros funcArgs.
    apply rp_bind; [apply ExecuteTemplate_rp|]. by intros retType. }
  split.
  - destruct (decide (TypeTemplate (From mapping) = TypeTemplate (To mapping)))
      as [E|Hne].
    + apply (Hbody _ toFields toFields); unfold GetFields, AddFields;
        cbn [typeToFieldsMap]; rewrite ?E; by rewrite lookup_insert_eq.
    + apply (Hbody _ fromFields toFields); unfold GetFields, AddFields;
        cbn [typeToFieldsMap].
      * rewrite lookup_insert_ne by done. by rewrite lookup_insert_eq.
      * by rewrite lookup_insert_eq.
  - intros e He.
    destruct (GetFields g (TypeTemplate (From mapping))) as [sf|] eqn:Hs;
      destruct (GetFields g (TypeTemplate (To mapping))) as [df|] eqn:Hd.
    + pose proof (Hbody g sf df Hs Hd) as Hrp. by rewrite He in Hrp.
    + unfold generateFunction in He. rewrite ?Hs, ?Hd in He.
      injection He as <-. split; [by right|done].
    + unfold generateFunction in He. rewrite ?Hs, ?Hd in He.
      injection He as <-. split; [by left|done].
    + unfold generateFunction in He. rewrite ?Hs, ?Hd in He.
      injection He as <-. split; [by left|done].
Qed.

End with_env.

Import example.

Lemma generated_document_shape_witness :
  range_ok listed_order ∧
  ∃ (funcs : list string) (es : list (string * string)),
    let lines :=
      (λ e : string * string, tab ++ e.2 ++ " " ++ dquote ++ e.1 ++ dquote) <$> es in
    List.length funcs = 1 ∧
    (Generate 2 listed_order (NewGenerator user_config no_conversions)).1 =
    Ok ("// Code generated by structmap; DO NOT EDIT." ++ nl ++
        "package main" ++ nl ++ nl ++
        ("import (" ++ nl ++ strings.Join lines nl ++ nl ++ ")") ++ nl ++ nl ++
        strings.Join funcs (nl ++ nl) ++ nl).
Proof.
  split; [apply generate_facts.listed_order_ok|].
  pose (run := Generate 2 listed_order (NewGenerator user_config no_conversions)).
  assert (E : run = (Ok (default "" (match run.1 with
                                       | Ok code => Some code
                                       | _ => None
                                       end)), run.2))
    by (vm_compute; reflexivity).
  destruct (generated_document_shape 2 listed_order user_config no_conversions
              _ _ generate_facts.listed_order_ok E)
    as (_ & funcs & es & Hlen & _ & _ & Hcode).
  exists funcs, es. cbn zeta. split; [exact Hlen|].
  assert (Hsize : size (imports.imports (importManager run.2)) = 2)
    by (vm_compute; reflexivity).
  rewrite Hsize in Hcode. cbn [decide] in Hcode.
  fold run. rewrite E. cbn [fst]. f_equal. exact Hcode.
Defined.

End generate_more.

Module naming_more.

Import imports generator props props_more.

Lemma HasPrefix_app (old rest : string) : strings.HasPrefix (old ++ rest) old = true.
Proof.
  induction old as [|c old IH]; simpl; [by destruct rest|].
  by rewrite Ascii.eqb_refl.
Qed.

Lemma ReplaceAll_go_skip (old new pre s : string) :
  strings.ReplaceAll_go old new (String.length pre) (pre ++ s) =
  strings.ReplaceAll_go old new 0 s.
Proof.
  induction pre as [|c pre IH]; simpl; [by destruct s|]. exact IH.
Qed.

Lemma ReplaceAll_go_absent (old new s : string) :
  strings.Contains s old = false → strings.ReplaceAll_go old new 0 s = s.
Proof.
  induction s as [|c s IH]; [done|]. cbn [strings.Contains strings.ReplaceAll_go].
  destruct (strings.HasPrefix (String c s) old); [done|].
  intros Hc. by rewrite IH.
Qed.

Lemma ReplaceAll_prefix (old rest c : string) (a : ascii) :
  old = String a c →
  strings.Contains rest old = false →
  strings.ReplaceAll (old ++ rest) old "" = rest.
Proof.
  intros -> Hc. unfold strings.ReplaceAll.
  change (String a c ++ rest) with (String a (c ++ rest)).
  cbn [strings.ReplaceAll_go].
  change (String a (c ++ rest)) with (String a c ++ rest).
  rewrite HasPrefix_app.
  replace (String.length (String a c) - 1) with (String.length c)
    by (cbn [String.length]; lia).
  rewrite ReplaceAll_go_skip. by rewrite ReplaceAll_go_absent.
Qed.

(** X23 — The default function name. For a type template made of the
    placeholder of its first import, a dot and a name that holds no such
    placeholder, the unaliased type is the name, and the default name of
    the function from one such type to another is [Map<From>To<To>]. *)
Theorem default_function_name (fromName toName fromPath toPath : string) :
  strings.Contains fromName "{{ .Import0 }}." = false →
  strings.Contains toName "{{ .Import0 }}." = false →
  let fromType := {| TypeTemplate := "{{ .Import0 }}." ++ fromName;
                     Imports := [fromPath] |} in
  let toType := {| TypeTemplate := "{{ .Import0 }}." ++ toName;
                   Imports := [toPath] |} in
  GetUnaliasedType fromType = fromName ∧
  GetUnaliasedType toType = toName ∧
  funcName fromType toType = "Map" ++ fromName ++ "To" ++ toName.
Proof.
  intros Hf Ht fromType toType.
  assert (E : ∀ name path, strings.Contains name "{{ .Import0 }}." = false →
            GetUnaliasedType {| TypeTemplate := "{{ .Import0 }}." ++ name;
                                Imports := [path] |} = name).
  { intros name path Hn. unfold GetUnaliasedType.
    cbn [Imports TypeTemplate List.length GetUnaliasedType_loop].
    change ("{{ .Import" ++ fmt.d 0 ++ " }}.") with "{{ .Import0 }}.".
    by apply (ReplaceAll_prefix "{{ .Import0 }}." name "{ .Import0 }}." "{"%char). }
  unfold funcName, fromType, toType. by rewrite !E.
Qed.

Lemma default_function_name_witness :
  funcName
    {| TypeTemplate := "{{ .Import0 }}." ++ "User"; Imports := ["m/a"] |}
    {| TypeTemplate := "{{ .Import0 }}." ++ "UserDTO"; Imports := ["m/b"] |}
  = "Map" ++ "User" ++ "To" ++ "UserDTO".
Proof.
  destruct (default_function_name "User" "UserDTO" "m/a" "m/b" eq_refl eq_refl)
    as (_ & _ & Hname).
  exact Hname.
Defined.

End naming_more.

Module lookup_more.

Import imports generator props props_more.

Section with_env.
Context `{GoEnv}.

(** X14 — The import found for a qualifier. When [findImportSpecForAlias]
    returns an import info, it comes from one of the imports of the file,
    whose package is then in the cache: the info carries that package's
    path and name, and either the import is locally named as the
    qualifier (the info keeps the name as its alias) or the package itself
    is named as the qualifier (the info has no alias). *)
Theorem found_import_matches_the_alias (f : ast.File) (pkgAlias : string)
    (g g' : Generator) (info : ImportInfo) :
  findImportSpecForAlias f pkgAlias g = (Ok (Some info), g') →
  ∃ imp pkg,
    imp ∈ ast.Imports f ∧
    packages.packageCache (packageManager g')
      !! strings.Trim (ast.ImportSpec_Path imp) dquote = Some (Some pkg) ∧
    Path info = gopackages.PkgPath pkg ∧
    PkgName info = gopackages.Name pkg ∧
    ((ast.ImportSpec_Name imp = Some pkgAlias ∧ Alias info = Some pkgAlias) ∨
     (gopackages.Name pkg = pkgAlias ∧ Alias info = None)).
Proof.
  unfold findImportSpecForAlias. generalize (ast.Imports f) as imps.
  intros imps. revert g. induction imps as [|imp rest IH]; intros g; [done|].
  cbn [findImportSpecForAlias_loop]. unfold bind at 1.
  destruct (getPackage _ g) as [[[pkg err]|e|e|] g1] eqn:Hget; try done.
  assert (Hcache : err = None →
            packages.packageCache (packageManager g1)
              !! strings.Trim (ast.ImportSpec_Path imp) dquote = Some pkg).
  { intros ->. unfold getPackage, packages.GetPackage in Hget.
    destruct (packages.packageCache (packageManager g) !! _) as [c|] eqn:Hl.
    - injection Hget as <- <-.
      by cbn [set_packageManager packageManager packages.packageCache].
    - destruct (packages.loadPackage _) as [p e'].
      injection Hget as -> -> <-.
      cbn [set_packageManager packageManager packages.packageCache].
      by rewrite lookup_insert_eq. }
  destruct err as [err|]; [done|]. specialize (Hcache eq_refl).
  unfold bind at 1. destruct pkg as [pkg|]; [|done]. cbn [deref ret].
  assert (Hrest : findImportSpecForAlias_loop rest pkgAlias g1
                    = (Ok (Some info), g') →
            ∃ imp0 pkg0, imp0 ∈ imp :: rest ∧
              packages.packageCache (packageManager g')
                !! strings.Trim (ast.ImportSpec_Path imp0) dquote = Some (Some pkg0) ∧
              Path info = gopackages.PkgPath pkg0 ∧
              PkgName info = gopackages.Name pkg0 ∧
              ((ast.ImportSpec_Name imp0 = Some pkgAlias ∧ Alias info = Some pkgAlias) ∨
               (gopackages.Name pkg0 = pkgAlias ∧ Alias info = None))).
  { intros Hr. destruct (IH _ Hr) as (imp0 & pkg0 & Hin & ?).
    exists imp0, pkg0. split; [by right|done]. }
  assert (Hhere : ∀ alias, (Ok (Some (importInfoOf alias pkg)), g1)
                           = (Ok (Some info), g') →
            (alias = Some pkgAlias ∧ ast.ImportSpec_Name imp = Some pkgAlias) ∨
            (alias = None ∧ gopackages.Name pkg = pkgAlias) →
            ∃ imp0 pkg0, imp0 ∈ imp :: rest ∧
              packages.packageCache (packageManager g')
                !! strings.Trim (ast.ImportSpec_Path imp0) dquote = Some (Some pkg0) ∧
              Path info = gopackages.PkgPath pkg0 ∧
              PkgName info = gopackages.Name pkg0 ∧
              ((ast.ImportSpec_Name imp0 = Some pkgAlias ∧ Alias info = Some pkgAlias) ∨
               (gopackages.Name pkg0 = pkgAlias ∧ Alias info = None))).
  { intros alias [= <- <-] Hor. exists imp, pkg. split; [by left|].
    split; [done|]. split; [done|]. split; [done|]. simpl. tauto. }
  destruct (ast.ImportSpec_Name imp) as [name|].
  - destruct (String.eqb_spec name pkgAlias) as [->|Hne].
    + intros Hr. apply (Hhere _ Hr). by left.
    + destruct (String.eqb_spec (gopackages.Name pkg) pkgAlias) as [E|Hne'];
        [|done]. intros Hr. apply (Hhere _ Hr). by right.
  - destruct (String.eqb_spec (gopackages.Name pkg) pkgAlias) as [E|Hne'];
      [|done]. intros Hr. apply (Hhere _ Hr). by right.
Qed.

End with_env.

Import example.

Lemma found_import_matches_the_alias_witness :
  ∃ imp pkg,
    imp ∈ ast.Imports p_go ∧
    Path (importInfoOf None (package "q" "example.com/q" "q.go"))
    = gopackages.PkgPath pkg.
Proof.
  destruct (found_import_matches_the_alias p_go "q" g0
              (findImportSpecForAlias p_go "q" g0).2
              (importInfoOf None (package "q" "example.com/q" "q.go")))
    as (imp & pkg & Hin & _ & Hpath & _); [vm_compute; reflexivity|].
  exists imp, pkg. split; [exact Hin|exact Hpath].
Defined.

End lookup_more.

Module run_more.

Import imports generator props props_more.

Section with_env.
Context `{GoEnv}.

(** Paths that are new to a manager get the next aliases in the order they
    are registered. *)
Lemma fresh_paths_numbered_in_order (ps : list string) (im : ImportManager)
    (i : nat) (p : string) :
  numbered im →
  Forall (λ p, strings.Contains p "/" = true) ps →
  NoDup (normalized <$> ps) →
  (∀ q, q ∈ ps → imports.imports im !! normalized q = None) →
  ps !! i = Some p →
  imports.imports (foldl AddImport im ps) !! normalized p
  = Some ("ref" ++ fmt.d (aliasCounter im + i)).
Proof.
  revert im i. induction ps as [|x ps IH]; intros im i Hn Hv Hnd Hfresh Hi;
    [done|].
  apply Forall_cons in Hv as [Hx Hv]. rewrite fmap_cons in Hnd.
  apply NoDup_cons in Hnd as [Hnx Hnd].
  assert (Hadd : AddImport im x =
            {| imports.imports := <[normalized x := "ref" ++ fmt.d (aliasCounter im)]>
                                    (imports.imports im);
               aliasCounter := S (aliasCounter im) |}).
  { rewrite (imports_facts.AddImport_unfold _ x Hx),
      (imports_facts.TrimSpace_separator _ Hx).
    by rewrite (Hfresh x) by by left. }
  cbn [foldl]. destruct i as [|i].
  - injection Hi as <-. apply imports_more.foldl_AddImport_keeps.
    rewrite Hadd. cbn [imports.imports]. by rewrite lookup_insert_eq, Nat.add_0_r.
  - cbn [lookup list_lookup] in Hi.
    rewrite (IH (AddImport im x) i); [|by apply imports_facts.numbered_AddImport
                                       |done|done| |done].
    + rewrite Hadd. cbn [aliasCounter]. do 2 f_equal. f_equal. lia.
    + intros q Hq. rewrite Hadd. cbn [imports.imports].
      rewrite lookup_insert_ne; [apply Hfresh; by right|].
      intros E. apply Hnx. rewrite E. apply list_elem_of_fmap. eauto.
Qed.

Lemma set_importManager_twice (g : Generator) (im1 im2 : ImportManager) :
  set_importManager (set_importManager g im1) im2 = set_importManager g im2.
Proof. done. Qed.

Lemma register_conversions (convs : list Conversion) (g : Generator) :
  importManager
    (foldl (λ g (conversion : Conversion),
              addImports (Conversion_Imports conversion) g) g convs)
  = foldl AddImport (importManager g) (concat (Conversion_Imports <$> convs)).
Proof.
  revert g. induction convs as [|c convs IH]; intros g; [done|].
  cbn [foldl fmap list_fmap concat]. rewrite IH, foldl_app. done.
Qed.

Lemma imports_grown_refl (g : Generator) : imports_grown g g.
Proof. by intros k a. Qed.

Lemma imports_grown_trans (g1 g2 g3 : Generator) :
  imports_grown g1 g2 → imports_grown g2 g3 → imports_grown g1 g3.
Proof. intros H12 H23 k a Hk. by apply H23, H12. Qed.

Lemma grows_bind {A B} (m : M Generator A) (k : A → M Generator B) :
  grows_imports m → (∀ a, grows_imports (k a)) → grows_imports (bind m k).
Proof.
  intros Hm Hk g. unfold bind. specialize (Hm g).
  destruct (m g) as [[a|e|e|] g1]; cbn [snd] in *; try done.
  eapply imports_grown_trans; [exact Hm|apply Hk].
Qed.

Lemma grows_modify (f : Generator → Generator) :
  (∀ g, imports_grown g (f g)) → grows_imports (modify f).
Proof. intros Hf g. apply Hf. Qed.

Lemma imports_grown_addImports (imps : list string) (g : Generator) :
  imports_grown g (addImports imps g).
Proof.
  intros k a Hk. unfold addImports. cbn [set_importManager importManager].
  by apply imports_more.foldl_AddImport_keeps.
Qed.

Lemma imports_grown_foldl {A} (f : Generator → A → Generator) (l : list A)
    (g : Generator) :
  (∀ g a, imports_grown g (f g a)) → imports_grown g (foldl f g l).
Proof.
  intros Hf. revert g. induction l as [|a l IH]; intros g;
    [apply imports_grown_refl|].
  simpl. eapply imports_grown_trans; [apply Hf|apply IH].
Qed.

Lemma grows_extractFor (fuel : nat) (pre : string) (def : StructDefinition) :
  grows_imports (extractFor fuel pre def).
Proof.
  intros g. unfold extractFor.
  pose proof (resolver_more.cache_only_extractFieldsFromPackage fuel
                (default "" (head (Imports def))) (GetUnaliasedType def) g)
    as (Him & _).
  destruct (extractFieldsFromPackage fuel _ _ g) as [[a|e|e|] g1];
    cbn [snd] in *; intros k v; by rewrite Him.
Qed.

Lemma grows_generateMapping (fuel : nat) (mapping : Mapping) :
  grows_imports (generateMapping fuel mapping).
Proof.
  unfold generateMapping.
  apply grows_bind.
  { apply grows_modify. intros g. apply imports_grown_foldl.
    intros g' c. apply imports_grown_addImports. }
  intros _. apply grows_bind.
  { apply grows_modify. intros g. apply imports_grown_foldl.
    intros g' c. apply imports_grown_addImports. }
  intros _. apply grows_bind;
    [apply grows_modify; intros g; apply imports_grown_addImports|].
  intros _. apply grows_bind;
    [apply grows_modify; intros g; apply imports_grown_addImports|].
  intros _. apply grows_bind; [apply grows_extractFor|].
  intros fromFields. apply grows_bind.
  { apply grows_modify. intros g. unfold addFieldImports.
    apply imports_grown_foldl. intros g' f. apply imports_grown_addImports. }
  intros _. apply grows_bind; [apply grows_extractFor|].
  intros toFields. apply grows_bind.
  { apply grows_modify. intros g. unfold addFieldImports.
    apply imports_grown_foldl. intros g' f. apply imports_grown_addImports. }
  intros _. apply grows_bind; [apply grows_modify; by intros g k a|].
  intros _. apply grows_bind; [apply grows_modify; by intros g k a|].
  intros _. apply grows_bind; [intros g; apply imports_grown_refl|].
  intros g g1. unfold wrap, lift_res.
  destruct (generateFunction g mapping); apply imports_grown_refl.
Qed.

Lemma grows_generateMappings (fuel : nat) (mappings : list Mapping)
    (funcs : list string) :
  grows_imports (generateMappings fuel mappings funcs).
Proof.
  revert funcs. induction mappings as [|m rest IH]; intros funcs;
    [intros g; apply imports_grown_refl|].
  cbn [generateMappings]. apply grows_bind; [apply grows_generateMapping|].
  intros code. apply IH.
Qed.

(** X25 — The imports of the global conversions are numbered first. When
    they all hold a separator and are distinct once trimmed, the import at
    position [i] of the global conversions, taken in declaration order, is
    bound to [ref(i+1)] in the generator [Generate] leaves, whatever the
    mappings are and whether the run succeeds or fails. *)
Theorem conversion_imports_are_numbered_first (fuel : nat)
    (range_order : RangeOrder) (config : Config) (conversions : Conversions)
    (i : nat) (p : string) :
  Forall (λ p, strings.Contains p "/" = true) (conversion_imports conversions) →
  NoDup (normalized <$> conversion_imports conversions) →
  conversion_imports conversions !! i = Some p →
  let g' := (Generate fuel range_order (NewGenerator config conversions)).2 in
  imports.imports (importManager g') !! normalized p = Some ("ref" ++ fmt.d (S i)).
Proof.
  intros Hv Hnd Hi g'. unfold g'. rewrite generate_facts.Generate_split.
  unfold generateFuncs, bind, modify, get. cbn [fst snd].
  set (g1 := foldl _ (NewGenerator config conversions) _).
  assert (H1 : imports.imports (importManager g1) !! normalized p
               = Some ("ref" ++ fmt.d (S i))).
  { unfold g1. cbn [generator.conversions NewGenerator].
    rewrite register_conversions. cbn [importManager NewGenerator].
    apply (fresh_paths_numbered_in_order _ NewImportManager i p);
      [apply imports_facts.numbered_new|done|done| |done].
    intros q _. apply lookup_empty. }
  pose proof (grows_generateMappings fuel (Mappings (generator.config g1)) [] g1)
    as Hg.
  destruct (generateMappings fuel (Mappings (generator.config g1)) [] g1)
    as [[funcs|e|e|] g2]; cbn [snd] in *; by apply Hg.
Qed.

Lemma generateFunction_with_descriptors (g : Generator) (mapping : Mapping)
    (fromFields toFields : list FieldDefinition) :
  returns_or_panics
    (generateFunction
       (AddFields (AddFields g (TypeTemplate (From mapping)) fromFields)
          (TypeTemplate (To mapping)) toFields) mapping).
Proof.
  unfold generateFunction, GetFields, AddFields. cbn [typeToFieldsMap].
  rewrite lookup_insert_eq.
  destruct (decide (TypeTemplate (To mapping) = TypeTemplate (From mapping)))
    as [E|Hne].
  - rewrite E, lookup_insert_eq.
    apply generate_more.rp_bind; [apply generate_more.assignsLoop_rp|].
    intros r. cbn zeta.
    apply generate_more.rp_bind; [apply generate_more.ExecuteTemplate_rp|].
    intros src.
    apply generate_more.rp_bind; [apply generate_more.renderParameters_rp|].
    intros funcArgs.
    apply generate_more.rp_bind; [apply generate_more.ExecuteTemplate_rp|].
    by intros retType.
  - rewrite lookup_insert_ne by done. rewrite lookup_insert_eq.
    apply generate_more.rp_bind; [apply generate_more.assignsLoop_rp|].
    intros r. cbn zeta.
    apply generate_more.rp_bind; [apply generate_more.ExecuteTemplate_rp|].
    intros src.
    apply generate_more.rp_bind; [apply generate_more.renderParameters_rp|].
    intros funcArgs.
    apply generate_more.rp_bind; [apply generate_more.ExecuteTemplate_rp|].
    by intros retType.
Qed.

Lemma extractFor_error (fuel : nat) (pre : string) (def : StructDefinition)
    (g g' : Generator) (e : string) :
  extractFor fuel pre def g = (Err e, g') → ∃ rest, e = pre ++ rest.
Proof.
  unfold extractFor.
  destruct (extractFieldsFromPackage fuel _ _ g) as [[a|err|err|] g1]; try done.
  pose proof (generate_more.ExecuteTemplate_rp def (importManager g1)) as Hrp.
  destruct (ExecuteTemplate def (importManager g1)) as [rendered|?|?|]; try done.
  cbn [res_bind]. intros [= <- <-]. by exists (rendered ++ ": " ++ err).
Qed.

Lemma generateMapping_error (fuel : nat) (mapping : Mapping) (g g' : Generator)
    (e : string) :
  generateMapping fuel mapping g = (Err e, g') → extraction_error e.
Proof.
  unfold generateMapping, bind, modify, get. cbn [fst snd].
  set (g1 := addImports (Imports (To mapping)) _).
  destruct (extractFor fuel _ (From mapping) g1) as [[ff|e1|e1|] g2] eqn:E1;
    try done.
  2:{ intros [= <- <-]. destruct (extractFor_error _ _ _ _ _ _ E1) as [rest ->].
      exists rest. by left. }
  destruct (extractFor fuel _ (To mapping) (addFieldImports ff g2))
    as [[tf|e2|e2|] g3] eqn:E2; try done.
  2:{ intros [= <- <-]. destruct (extractFor_error _ _ _ _ _ _ E2) as [rest ->].
      exists rest. by right. }
  unfold wrap, lift_res.
  pose proof (generateFunction_with_descriptors
                (addFieldImports tf g3) mapping ff tf) as Hrp.
  by destruct (generateFunction _ mapping).
Qed.

(** X27 — Every error [Generate] returns is a field-extraction error: its
    message starts with "failed to extract fields from " or with "failed to
    extract fields to ". The error of a function that could not be
    generated is never returned, since both descriptors are stored before
    the function is generated. *)
Theorem generate_errors_are_extraction_errors (fuel : nat)
    (range_order : RangeOrder) (g g' : Generator) (e : string) :
  Generate fuel range_order g = (Err e, g') → extraction_error e.
Proof.
  rewrite generate_facts.Generate_split. unfold generateFuncs, bind, modify, get.
  cbn [fst snd]. set (g1 := foldl _ g _).
  generalize (Mappings (config g1)) as mappings. generalize (@nil string) as funcs.
  generalize g1 as g0. clear.
  intros g0 funcs mappings. revert g0 funcs.
  induction mappings as [|m rest IH]; intros g0 funcs; [done|].
  cbn [generateMappings]. unfold bind at 1.
  destruct (generateMapping fuel m g0) as [[code|e1|e1|] g2] eqn:Em; try done.
  - apply IH.
  - intros [= <- <-]. by apply (generateMapping_error _ _ _ _ _ Em).
Qed.

Lemma importData_lookup (im : ImportManager) (imps : list string) (idx i : nat)
    (data : gmap string string) :
  importData im idx imps data !! ("Import" ++ fmt.d (idx + i)) =
  match imps !! i with
  | Some imp => Some (GetImportAlias im imp)
  | None => data !! ("Import" ++ fmt.d (idx + i))
  end.
Proof.
  revert idx i data. induction imps as [|imp rest IH]; intros idx i data; [done|].
  cbn [importData]. destruct i as [|i].
  - cbn [lookup list_lookup]. rewrite Nat.add_0_r.
    assert (Hkeep : ∀ l k d, (idx < k)%nat →
              importData im k l d !! ("Import" ++ fmt.d idx) =
              d !! ("Import" ++ fmt.d idx)).
    { clear. induction l as [|x l IHl]; intros k d Hk; [done|].
      cbn [importData]. rewrite IHl by lia. rewrite lookup_insert_ne; [done|].
      intros E. apply (imports_facts.append_inj_l "Import") in E.
      apply imports_facts.fmt_d_inj in E. lia. }
    rewrite Hkeep by lia. by rewrite lookup_insert_eq.
  - replace (idx + S i)%nat with (S idx + i)%nat by lia. rewrite IH.
    cbn [lookup list_lookup]. destruct (rest !! i); [done|].
    rewrite lookup_insert_ne; [done|].
    intros E. apply (imports_facts.append_inj_l "Import") in E.
    apply imports_facts.fmt_d_inj in E. lia.
Qed.

Lemma importData_keys (im : ImportManager) (imps : list string) (idx : nat)
    (data : gmap string string) (key v : string) :
  importData im idx imps data !! key = Some v →
  data !! key = Some v ∨
  ∃ i imp, imps !! i = Some imp ∧ key = "Import" ++ fmt.d (idx + i) ∧
           v = GetImportAlias im imp.
Proof.
  revert idx data. induction imps as [|imp rest IH]; intros idx data; [by left|].
  cbn [importData]. intros Hl. destruct (IH _ _ Hl) as [Hd|(i & imp' & Hi & -> & ->)].
  - destruct (decide ("Import" ++ fmt.d idx = key)) as [<-|Hne].
    + rewrite lookup_insert_eq in Hd. injection Hd as <-. right.
      exists 0, imp. by rewrite Nat.add_0_r.
    + rewrite lookup_insert_ne in Hd by done. by left.
  - right. exists (S i), imp'. split; [done|]. split; [|done].
    by replace (idx + S i)%nat with (S idx + i)%nat by lia.
Qed.

(** X26 — The data of a conversion template. [executeTemplate] runs the
    template on a map that binds [Source], [Dest] and [Error] to the three
    expressions and [ImportN] to the alias of the rule's [N]th import, and
    nothing else; it returns the rendered text with the rule's error flag
    and panics when the template does not parse or execute. *)
Theorem template_data_of_a_conversion (c : Conversion) (tmplStr : string)
    (hasError : bool) (sourceVar destVar errorVar : string) (im : ImportManager)
    (tmplName : string) :
  let data := conversionData c sourceVar destVar errorVar im in
  executeTemplate c tmplStr hasError sourceVar destVar errorVar im tmplName =
    match template_Run tmplName tmplStr data with
    | Rendered text => Ok (text, hasError)
    | ParseError err => Panic err
    | ExecError err => Panic err
    end ∧
  data !! "Source" = Some sourceVar ∧
  data !! "Dest" = Some destVar ∧
  data !! "Error" = Some errorVar ∧
  (∀ i imp, Conversion_Imports c !! i = Some imp →
            data !! ("Import" ++ fmt.d i) = Some (GetImportAlias im imp)) ∧
  (∀ key v, data !! key = Some v →
            key ∈ ["Source"; "Dest"; "Error"] ∨
            ∃ i imp, Conversion_Imports c !! i = Some imp ∧
                     key = "Import" ++ fmt.d i ∧ v = GetImportAlias im imp).
Proof.
  intros data. unfold data, conversionData.
  split; [done|].
  split; [rewrite !lookup_insert_ne by done; by rewrite lookup_insert_eq|].
  split; [rewrite lookup_insert_ne by done; by rewrite lookup_insert_eq|].
  split; [by rewrite lookup_insert_eq|]. split.
  - intros i imp Hi. rewrite !lookup_insert_ne by done.
    pose proof (importData_lookup im (Conversion_Imports c) 0 i ∅) as Hl.
    cbn [Nat.add] in Hl. by rewrite Hl, Hi.
  - intros key v Hk.
    destruct (decide (key = "Error")) as [->|H1]; [left; repeat constructor|].
    destruct (decide (key = "Dest")) as [->|H2]; [left; repeat constructor|].
    destruct (decide (key = "Source")) as [->|H3]; [left; repeat constructor|].
    rewrite !lookup_insert_ne in Hk by done.
    destruct (importData_keys _ _ _ _ _ _ Hk) as [Hd|(i & imp & Hi & -> & ->)];
      [by rewrite lookup_empty in Hd|].
    right. exists i, imp. by repeat split.
Qed.

End with_env.

Import example.

Lemma conversion_imports_are_numbered_first_witness :
  imports.imports
    (importManager
       (Generate 2 listed_order (NewGenerator user_config uuid_conversions)).2)
    !! normalized "github.com/google/uuid" = Some "ref1" ∧
  imports.imports
    (importManager
       (Generate 2 listed_order (NewGenerator user_config quoted_uuid_conversions)).2)
    !! "github.com/google/uuid" = Some "ref1".
Proof.
  split.
  - apply (conversion_imports_are_numbered_first 2 listed_order user_config
             uuid_conversions 0 "github.com/google/uuid").
    + repeat constructor.
    + compute_done.
    + reflexivity.
  - apply (conversion_imports_are_numbered_first 2 listed_order user_config
             quoted_uuid_conversions 0
             (strings.rune [194; 160] ++ dquote ++ "github.com/google/uuid" ++ dquote)).
    + repeat constructor.
    + compute_done.
    + reflexivity.
Defined.

Lemma generate_errors_are_extraction_errors_witness :
  (Generate 2 listed_order (NewGenerator missing_config no_conversions)).1 =
  Err ("failed to extract fields from ref1.User: failed to load package " ++
       "example.com/missing: package errors: [-: no required module " ++
       "provides package example.com/missing; to add it:" ++ nl ++ tab ++
       "go get example.com/missing]") ∧
  extraction_error
    ("failed to extract fields from ref1.User: failed to load package " ++
     "example.com/missing: package errors: [-: no required module " ++
     "provides package example.com/missing; to add it:" ++ nl ++ tab ++
     "go get example.com/missing]").
Proof.
  split; [vm_compute; reflexivity|].
  apply (generate_errors_are_extraction_errors 2 listed_order
           (NewGenerator missing_config no_conversions)
           (Generate 2 listed_order (NewGenerator missing_config no_conversions)).2).
  vm_compute. reflexivity.
Defined.

End run_more.
